(** * whisperpocket: the voice pipeline of [listen.py] and the STT daemon

    A shallow embedding of the control core of [src/listen.py] (speech
    segmentation, wake-word matching, response chunking, LLM call, keystroke
    extraction, the stop-word listener, pipelined playback) and of
    [src/stt-server/server.py] (the [/transcribe] endpoint), with the
    properties the specification states about them and further properties
    of the code.

    Conventions.
    - A transcript, a wake phrase or the output of the LLM process is a
      [list ascii]; a character is its code point, so there the model
      covers text whose code points are below 256, where [str.lower] is a
      table.  The response that is chunked and spoken is a [list N], the
      list of its code points, whatever they are.  Whitespace is what
      [str.isspace], [str.split], [str.strip] and the regex class [\s] agree
      on.
    - Capabilities the program receives as opaque objects (the VAD, the
      transcription model, the TTS model, numpy's floating point routines,
      the interpreter's table of decimal digits behind the regex class
      [\d]) are [Variable]s of a [Section]; calls to them are recorded in
      logs where a property is about whether a call happens.
    - Loops that return from inside their body are recursive functions
      over the data they iterate on. *)

From Stdlib Require Import Ascii String ZArith QArith Lia.
From Stdlib Require Strings.Byte.
From Stdlib Require Import Sorting.Sorted.
From stdpp Require Import base list strings.

Open Scope nat_scope.
Open Scope list_scope.

(* ================================================================= *)
(** ** Python strings over the code points below 256 *)

Module Py.

Abbreviation text := (list ascii).

(** A string literal as a [text]. *)
Definition txt (s : string) : text := list_ascii_of_string s.

Definition code (c : ascii) : N := N_of_ascii c.

Definition in_range (lo hi : N) (c : ascii) : bool :=
  ((lo <=? code c) && (code c <=? hi))%N.

(** [str.isspace] on one character: TAB..CR, FS..US, space, NEL, NBSP. *)
Definition is_space (c : ascii) : bool :=
  in_range 9 13 c || in_range 28 31 c || in_range 32 32 c
  || in_range 133 133 c || in_range 160 160 c.

(** [str.lower] on one character: A-Z and the Latin-1 capitals
    (all of U+00C0..U+00DE but the multiplication sign). *)
Definition lower_char (c : ascii) : ascii :=
  if in_range 65 90 c
     || (in_range 192 222 c && negb (in_range 215 215 c))
  then ascii_of_N (code c + 32)
  else c.

Definition lower (s : text) : text := map lower_char s.

Definition char_in (cs : string) (c : ascii) : bool :=
  existsb (fun d => bool_decide (c = d)) (list_ascii_of_string cs).

Fixpoint drop_while (p : ascii -> bool) (s : text) : text :=
  match s with
  | [] => []
  | c :: s' => if p c then drop_while p s' else s
  end.

Fixpoint take_while (p : ascii -> bool) (s : text) : text :=
  match s with
  | [] => []
  | c :: s' => if p c then c :: take_while p s' else []
  end.

(** [s.lstrip()], [s.rstrip()], [s.strip()] and [s.lstrip(chars)]. *)
Definition lstrip (s : text) : text := drop_while is_space s.
Definition rstrip (s : text) : text := rev (drop_while is_space (rev s)).
Definition strip (s : text) : text := rstrip (lstrip s).
Definition lstrip_chars (cs : string) (s : text) : text :=
  drop_while (char_in cs) s.

(** [s.split()]: the maximal runs of non-whitespace characters, in order.
    A non-space character opens a new token when the next character is a
    space or the end, and otherwise joins the token that follows it. *)
Fixpoint split (s : text) : list text :=
  match s with
  | [] => []
  | c :: s' =>
      if is_space c then split s'
      else match s' with
           | [] => [[c]]
           | c' :: _ =>
               if is_space c' then [c] :: split s'
               else match split s' with
                    | t :: ts => (c :: t) :: ts
                    | [] => [[c]]
                    end
           end
  end.

End Py.

(* ================================================================= *)
(** ** Python strings over all code points *)

Module Uni.

(** The text of a response can hold any character.  There a character
    is its code point and a [str] the list of its code points. *)
Abbreviation utext := (list N).

(** A string literal as a [utext]. *)
Definition utxt (s : string) : utext :=
  map N_of_ascii (list_ascii_of_string s).

Definition in_range (lo hi c : N) : bool := ((lo <=? c) && (c <=? hi))%N.

(** [str.isspace] on one character, which [str.strip] and the regex
    class [\s] go by: TAB..CR, FS..US, space, NEL, NBSP, U+1680,
    U+2000..U+200A, U+2028, U+2029, U+202F, U+205F and U+3000. *)
Definition is_space (c : N) : bool :=
  in_range 9 13 c || in_range 28 31 c || in_range 32 32 c
  || in_range 133 133 c || in_range 160 160 c
  || in_range 5760 5760 c || in_range 8192 8202 c
  || in_range 8232 8233 c || in_range 8239 8239 c
  || in_range 8287 8287 c || in_range 12288 12288 c.

Definition is_upper_az (c : N) : bool := in_range 65 90 c.

(** The character is [d]. *)
Definition is_char (d : ascii) (c : N) : bool := (c =? N_of_ascii d)%N.

Definition space : N := 32.

Fixpoint drop_while (p : N -> bool) (s : utext) : utext :=
  match s with
  | [] => []
  | c :: s' => if p c then drop_while p s' else s
  end.

Fixpoint take_while (p : N -> bool) (s : utext) : utext :=
  match s with
  | [] => []
  | c :: s' => if p c then c :: take_while p s' else []
  end.

(** [s.lstrip()], [s.rstrip()] and [s.strip()]. *)
Definition lstrip (s : utext) : utext := drop_while is_space s.
Definition rstrip (s : utext) : utext := rev (drop_while is_space (rev s)).
Definition strip (s : utext) : utext := rstrip (lstrip s).

(** [s.split(sep)] for a one-character separator: always at least one
    field, empty fields kept. *)
Fixpoint split_on (sep : N) (s : utext) : list utext :=
  match s with
  | [] => [[]]
  | c :: s' =>
      if (c =? sep)%N then [] :: split_on sep s'
      else match split_on sep s' with
           | t :: ts => (c :: t) :: ts
           | [] => [[c]]
           end
  end.

(** [sep.join(parts)]. *)
Fixpoint join (sep : utext) (parts : list utext) : utext :=
  match parts with
  | [] => []
  | [p] => p
  | p :: ps => p ++ sep ++ join sep ps
  end.

(** [re.sub(r"\s+", " ", s)]: every maximal whitespace run becomes one
    space. *)
Fixpoint collapse_ws (s : utext) : utext :=
  match s with
  | [] => []
  | c :: s' =>
      if is_space c then
        match s' with
        | c' :: _ => if is_space c' then collapse_ws s'
                     else space :: collapse_ws s'
        | [] => [space]
        end
      else c :: collapse_ws s'
  end.

(** [s.startswith(p)] *)
Fixpoint starts_with (p s : utext) : bool :=
  match p, s with
  | [], _ => true
  | _ :: _, [] => false
  | a :: p', b :: s' => (a =? b)%N && starts_with p' s'
  end.

End Uni.

(* ================================================================= *)
(** ** Wake-word matching ([listen.py], lines 130-163) *)

Module Wake.
Import Py.

(** The punctuation of the class [[,.:;!?\-]]. *)
Definition is_punct (c : ascii) : bool := char_in ",.:;!?-" c.

(** [re.sub(r"[,.:;!?\-]+", " ", s)]: every maximal punctuation run
    becomes one space. *)
Fixpoint punct_to_space (s : text) : text :=
  match s with
  | [] => []
  | c :: s' =>
      if is_punct c then
        match s' with
        | c' :: _ => if is_punct c' then punct_to_space s'
                     else " "%char :: punct_to_space s'
        | [] => [" "%char]
        end
      else c :: punct_to_space s'
  end.

Definition _normalize (t : text) : text :=
  strip (punct_to_space (lower t)).

Definition _normalize_tokens (t : text) : list text :=
  split (_normalize t).

(** [sorted(wake_words, key=len, reverse=True)]: Python's sort is stable
    also with [reverse=True], so a phrase goes in front of the first
    phrase that is not strictly longer than it. *)
Fixpoint insert_by_len (w : text) (ws : list text) : list text :=
  match ws with
  | [] => [w]
  | v :: ws' =>
      if length w <? length v then v :: insert_by_len w ws'
      else w :: ws
  end.

Fixpoint sorted_longest_first (ws : list text) : list text :=
  match ws with
  | [] => []
  | w :: ws' => insert_by_len w (sorted_longest_first ws')
  end.

(** [tokens[: len(wake_tokens)] == wake_tokens] *)
Definition prefix_hit (tokens : list text) (wake : text) : bool :=
  let wake_tokens := split (_normalize wake) in
  bool_decide (take (length wake_tokens) tokens = wake_tokens).

Fixpoint wake_match_loop (tokens : list text) (ws : list text) : bool :=
  match ws with
  | [] => false
  | wake :: ws' =>
      if prefix_hit tokens wake then true else wake_match_loop tokens ws'
  end.

Definition wake_match (t : text) (wake_words : list text) : bool :=
  wake_match_loop (_normalize_tokens t) (sorted_longest_first wake_words).

(** The separator class [[\s,.:;!?\-]]. *)
Definition is_sep (c : ascii) : bool := is_space c || is_punct c.

(** One match of [^[\s,.:;!?\-]*\S+] at the start of [s], giving what is
    left after it.  The separator run is greedy and backtracks: the
    recursive call tries the longer run first, and only when nothing can
    follow it does the run stop before [c], where [\S+] then takes the
    whole run of non-space characters. *)
Fixpoint lead_token_rest (s : text) : option text :=
  match s with
  | [] => None
  | c :: s' =>
      if is_sep c then
        match lead_token_rest s' with
        | Some r => Some r
        | None => if is_space c then None
                  else Some (drop_while (fun d => negb (is_space d)) s)
        end
      else Some (drop_while (fun d => negb (is_space d)) s)
  end.

(** [re.sub(r"^[\s,.:;!?\-]*\S+", "", s, count=1)] *)
Definition drop_lead_token (s : text) : text :=
  match lead_token_rest s with
  | Some r => r
  | None => s
  end.

(** The body of the [if] in [strip_wake]: one [re.sub] per wake token,
    then [remaining.lstrip(" ,.:;!?-") or text]. *)
Definition strip_tokens (wake_tokens : list text) (t : text) : text :=
  let remaining := fold_left (fun r _ => drop_lead_token r) wake_tokens t in
  match lstrip_chars " ,.:;!?-" remaining with
  | [] => t
  | r => r
  end.

Fixpoint strip_wake_loop (t : text) (tokens : list text) (ws : list text)
  : text :=
  match ws with
  | [] => t
  | wake :: ws' =>
      if prefix_hit tokens wake
      then strip_tokens (split (_normalize wake)) t
      else strip_wake_loop t tokens ws'
  end.

Definition strip_wake (t : text) (wake_words : list text) : text :=
  strip_wake_loop t (_normalize_tokens t) (sorted_longest_first wake_words).

(** The phrase both loops stop at: the first one, longest raw string
    first, whose tokens open the transcript's tokens. *)
Definition selected (t : text) (wake_words : list text) : option text :=
  find (prefix_hit (_normalize_tokens t)) (sorted_longest_first wake_words).

End Wake.

(* ================================================================= *)
(** ** Audio capture with VAD ([listen.py], lines 26-124) *)

Module Audio.

(** A frame is the block the input stream hands to the callback; the
    stream is opened with [dtype="int16"], and a frame is modelled by the
    int16 samples [np.frombuffer(frame, dtype=np.int16)] reads from it. *)
Abbreviation Frame := (list Z).

Definition SAMPLE_RATE : Z := 16000.
Definition FRAME_MS : nat := 20.
Definition FRAME_SAMPLES : Z := SAMPLE_RATE * Z.of_nat FRAME_MS / 1000.
Definition SILENCE_MS : nat := 1000.
Definition MIN_SPEECH_MS : nat := 300.
Definition MAX_SEGMENT_S : nat := 10.
Definition ENERGY_THRESHOLD_DBFS : Q := (-35)%Q.

Definition Qlt_bool (x y : Q) : bool := negb (Qle_bool y x).

(** [np.mean(samples.astype(np.float64) ** 2)] *)
Definition mean_square (samples : list Z) : Q :=
  (inject_Z (fold_right (fun x acc => x * x + acc)%Z 0%Z samples)
   / inject_Z (Z.of_nat (length samples)))%Q.

Record state := mk_state {
  speech_buf : list Frame;
  silent_count : nat;
  speech_count : nat;
  recording : bool;
  vad_calls : list Frame  (* ghost: the frames handed to [vad.is_speech] *)
}.

Definition init : state := mk_state [] 0 0 false [].

(** Why [capture_speech] returned. *)
Inductive reason := SilenceTimeout | MaxDuration.

Inductive step_result :=
| Continue (st : state)
| Return (st : state) (why : reason).

Section Capture.

(** numpy's floating point routines and the VAD capability. *)
Variable np_sqrt : Q -> Q.
Variable np_log10 : Q -> Q.
Variable vad_is_speech : Frame -> bool.

(** [energy_threshold], and the three frame counts [capture_speech]
    derives from the module constants. *)
Variable energy_threshold : Q.
Variables silence_frames min_speech_frames max_frames : nat.

Definition energy_dbfs (samples : list Z) : Q :=
  let rms := np_sqrt (mean_square samples) in
  if Qlt_bool rms 1 then (-100)%Q
  else (20 * np_log10 (rms / 32768))%Q.

(** Lines 87-98 and 113-124: a non-speech frame while recording. *)
Definition on_silence (st : state) (frame : Frame) : step_result :=
  let silent := S (silent_count st) in
  let buf := speech_buf st ++ [frame] in
  if silence_frames <=? silent then
    if min_speech_frames <=? speech_count st then
      Return (mk_state buf silent (speech_count st) true (vad_calls st))
             SilenceTimeout
    else
      Continue (mk_state [] 0 0 false (vad_calls st))
  else
    Continue (mk_state buf silent (speech_count st) true (vad_calls st)).

(** The body of [while q:], lines 82-124, for one frame. *)
Definition step (st : state) (frame : Frame) : step_result :=
  if Qlt_bool (energy_dbfs frame) energy_threshold then
    if recording st then on_silence st frame
    else Continue st
  else
    let st := mk_state (speech_buf st) (silent_count st) (speech_count st)
                       (recording st) (vad_calls st ++ [frame]) in
    if vad_is_speech frame then
      let count := S (speech_count st) in
      let st' := mk_state (speech_buf st ++ [frame]) 0 count true
                          (vad_calls st) in
      if max_frames <=? count then Return st' MaxDuration
      else Continue st'
    else if recording st then on_silence st frame
    else Continue st.

(** The loop of one call, over the frames the stream delivers.  With no
    frame left the call is still blocked in [event.wait()]: it has not
    returned, and the state it waits in is given back. *)
Fixpoint capture_loop (st : state) (frames : list Frame)
  : state + (state * reason * list Frame) :=
  match frames with
  | [] => inl st
  | frame :: rest =>
      match step st frame with
      | Continue st' => capture_loop st' rest
      | Return st' why => inr (st', why, rest)
      end
  end.

(** The int16 PCM a returning call hands back:
    [np.frombuffer(b"".join(speech_buf), dtype=np.int16)]. *)
Definition pcm_of (st : state) : list Z := concat (speech_buf st).

Definition capture_speech (frames : list Frame)
  : option (list Z * list Frame) :=
  match capture_loop init frames with
  | inl _ => None
  | inr (st, _, rest) => Some (pcm_of st, rest)
  end.

(** All the segments of a frame stream: each call starts from the fresh
    locals of [capture_speech] and goes on with the frame after the one
    the call before it returned at. *)
Fixpoint segments_from (st : state) (frames : list Frame)
  : list (state * reason) :=
  match frames with
  | [] => []
  | frame :: rest =>
      match step st frame with
      | Continue st' => segments_from st' rest
      | Return st' why => (st', why) :: segments_from init rest
      end
  end.

Definition segments (frames : list Frame) : list (state * reason) :=
  segments_from init frames.

(** The frame is speech for the segmenter: loud enough and VAD positive. *)
Definition is_speech_frame (frame : Frame) : bool :=
  negb (Qlt_bool (energy_dbfs frame) energy_threshold)
  && vad_is_speech frame.

End Capture.

(** The frame counts of [capture_speech] itself. *)
Definition silence_frames_default : nat := SILENCE_MS / FRAME_MS.
Definition min_speech_frames_default : nat := MIN_SPEECH_MS / FRAME_MS.
Definition max_frames_default : nat := MAX_SEGMENT_S * 1000 / FRAME_MS.

End Audio.

(* ================================================================= *)
(** ** What the transcription model gives back *)

Module Stt.
Import Py.

(** [whisper.transcribe] returns a dict, with or without a ["text"]
    entry, or some other object, of which the program takes [str(result)]. *)
Inductive result :=
| Dict (text_entry : option text)
| Other (str_of : text).

(** [result.get("text", "").strip() if isinstance(result, dict)
     else str(result).strip()] *)
Definition text_of (r : result) : text :=
  match r with
  | Dict (Some t) => strip t
  | Dict None => strip []
  | Other s => strip s
  end.

(** [pcm.astype(np.float32) / 32768.0]: an int16 sample and its quotient
    by 2^15 are float32 values, so the rational is the float. *)
Definition to_float32 (pcm : list Z) : list Q :=
  map (fun x => (inject_Z x / 32768)%Q) pcm.

End Stt.

(* ================================================================= *)
(** ** Stop-word listener during playback ([listen.py], lines 374-455) *)

Module BargeIn.
Import Py.

Definition STOP_WORDS : list text :=
  [txt "stop"; txt "shush"; txt "shut up"; txt "quiet"; txt "enough"].

Fixpoint starts_with (p s : text) : bool :=
  match p, s with
  | [], _ => true
  | _ :: _, [] => false
  | a :: p', b :: s' => bool_decide (a = b) && starts_with p' s'
  end.

(** [sub in s] *)
Fixpoint contains (sub s : text) : bool :=
  starts_with sub s
  || match s with
     | [] => false
     | _ :: s' => contains sub s'
     end.

Record state := mk_state {
  speech_frames : list Audio.Frame;
  speech_count : nat;
  silent_count : nat;
  vad_calls : list Audio.Frame  (* ghost: the frames handed to the VAD *)
}.

Definition init : state := mk_state [] 0 0 [].

Inductive step_result :=
| Continue (st : state)
| Stopped (st : state).  (* [self._stopped.set(); return] *)

Section Listen.

Variable vad_is_speech : Audio.Frame -> bool.
(** [None]: the call raises, which [_listen] swallows. *)
Variable whisper_transcribe : list Q -> option Stt.result.

Definition silence_frames : nat := 500 / Audio.FRAME_MS.

(** The body of [while q and self._running:], lines 430-455. *)
Definition step (st : state) (frame : Audio.Frame) : step_result :=
  let calls := vad_calls st ++ [frame] in
  if vad_is_speech frame then
    Continue (mk_state (speech_frames st ++ [frame])
                       (S (speech_count st)) 0 calls)
  else if 0 <? speech_count st then
    let silent := S (silent_count st) in
    let frames := speech_frames st ++ [frame] in
    if (silence_frames <=? silent) && (3 <=? speech_count st) then
      match whisper_transcribe (Stt.to_float32 (concat frames)) with
      | Some result =>
          let heard := lower (Stt.text_of result) in
          if existsb (fun sw => contains sw heard) STOP_WORDS
          then Stopped (mk_state frames (speech_count st) silent calls)
          else Continue (mk_state [] 0 0 calls)
      | None => Continue (mk_state [] 0 0 calls)
      end
    else Continue (mk_state frames (speech_count st) silent calls)
  else Continue (mk_state (speech_frames st) (speech_count st)
                          (silent_count st) calls).

End Listen.

End BargeIn.

(* ================================================================= *)
(** ** Sentence chunking ([listen.py], lines 169-225) *)

Module Chunking.
Import Uni.

Definition is_star : N -> bool := is_char "*".
Definition is_backtick : N -> bool := is_char "`".
Definition is_hash : N -> bool := is_char "#".
Definition is_dash : N -> bool := is_char "-".
(** The bullet, U+2022. *)
Definition is_bullet_char (c : N) : bool := (c =? 8226)%N.
Definition newline : N := 10.

(** [re.sub(r"\*\*", "", s)] *)
Fixpoint drop_double_star (s : utext) : utext :=
  match s with
  | [] => []
  | c :: s' =>
      match s' with
      | c' :: s'' =>
          if is_star c && is_star c' then drop_double_star s''
          else c :: drop_double_star s'
      | [] => [c]
      end
  end.

(** [re.sub(r"\*", "", s)] and [re.sub(r"`", "", s)] *)
Definition drop_char (p : N -> bool) (s : utext) : utext :=
  List.filter (fun c => negb (p c)) s.

(** [re.sub(r"`[^`]*`", "", s)]: a backtick with another one after it
    opens a span that runs to the nearest one; a backtick with none after
    it stays.  [inside] says the scan is within a span. *)
Fixpoint drop_code_spans (inside : bool) (s : utext) : utext :=
  match s with
  | [] => []
  | c :: s' =>
      if inside then
        if is_backtick c then drop_code_spans false s'
        else drop_code_spans true s'
      else if is_backtick c then
        if existsb is_backtick s' then drop_code_spans true s'
        else c :: drop_code_spans false s'
      else c :: drop_code_spans false s'
  end.

(** [https?://\S+] matches at the start of [s]. *)
Definition url_at (s : utext) : bool :=
  let followed (scheme : utext) :=
    starts_with scheme s
    && match drop (length scheme) s with
       | c :: _ => negb (is_space c)
       | [] => false
       end in
  followed (utxt "https://") || followed (utxt "http://").

(** [re.sub(r"https?://\S+", "", s)]: a match is made of non-space
    characters only and runs to the next space, so from its first
    character on the scan drops everything up to that space. *)
Fixpoint drop_urls (in_url : bool) (s : utext) : utext :=
  match s with
  | [] => []
  | c :: s' =>
      if in_url then
        if is_space c then c :: drop_urls false s'
        else drop_urls true s'
      else if url_at s then drop_urls true s'
      else c :: drop_urls false s'
  end.

(** Lines 172-176. *)
Definition strip_markdown (t : utext) : utext :=
  drop_urls false
    (drop_char is_backtick
       (drop_code_spans false
          (drop_char is_star (drop_double_star t)))).

(** [flush()]: the new value of [chunks]; the caller empties [buf]. *)
Definition flush (chunks buf : list utext) : list utext :=
  let t := collapse_ws (strip (join [space] buf)) in
  if 3 <=? length t then chunks ++ [t] else chunks.

(** [re.match(r"^#+\s", s)] *)
Definition is_heading (s : utext) : bool :=
  match take_while is_hash s, drop_while is_hash s with
  | _ :: _, c :: _ => is_space c
  | _, _ => false
  end.

(** [re.match(r"^[-•*]\s", s)] *)
Definition is_bullet (s : utext) : bool :=
  match s with
  | c :: c' :: _ =>
      (is_dash c || is_bullet_char c || is_star c) && is_space c'
  | _ => false
  end.

(** The class [[.)]]. *)
Definition closes_number (c : N) : bool := is_char "." c || is_char ")" c.

(** [chunks.append(x)] under [if len(x) >= 3]. *)
Definition append_if_long (chunks : list utext) (x : utext) : list utext :=
  if 3 <=? length x then chunks ++ [x] else chunks.

Definition is_sentence_end (c : N) : bool :=
  is_char "." c || is_char "!" c || is_char "?" c.

Definition capital_follows (s : utext) : bool :=
  match drop_while is_space s with
  | d :: _ => is_upper_az d
  | [] => false
  end.

Definition cons_head (c : N) (parts : list utext) : list utext :=
  match parts with
  | t :: ts => (c :: t) :: ts
  | [] => [[c]]
  end.

(** [re.split(r"(?<=[.!?])\s+(?=[A-Z])", s)]: a whitespace run that
    follows one of [.!?] and is followed by a capital ends the part; the
    run itself is dropped.  [after_end]: the character before is one of
    [.!?]; [skipping]: the scan is within such a run. *)
Fixpoint re_split_sentences (after_end skipping : bool) (s : utext)
  : list utext :=
  match s with
  | [] => [[]]
  | c :: s' =>
      if is_space c then
        if skipping then re_split_sentences false true s'
        else if after_end && capital_follows s
        then [] :: re_split_sentences false true s'
        else cons_head c (re_split_sentences false false s')
      else cons_head c (re_split_sentences (is_sentence_end c) false s')
  end.

(** Lines 217-223. *)
Definition split_chunk (chunk : utext) : list utext :=
  List.filter (fun p => 3 <=? length p)
              (map strip (re_split_sentences false false chunk)).

Section Lines.

(** The regex class [\d]: the decimal digits (category Nd) of the
    interpreter's Unicode database, [0] to [9] among them. *)
Variable is_decimal : N -> bool.

(** One match of [^\d+[.)]\s+] at the start of [s], giving what is left
    after it.  The digit run is greedy and backtracks: the recursive
    call tries the longer run first, and only when nothing can follow it
    does the run stop before [c].  [seen]: a digit has been read. *)
Fixpoint numbered_rest (seen : bool) (s : utext) : option utext :=
  match s with
  | [] => None
  | c :: s' =>
      match (if is_decimal c then numbered_rest true s' else None) with
      | Some r => Some r
      | None =>
          if seen && closes_number c then
            match s' with
            | d :: _ =>
                if is_space d then Some (drop_while is_space s') else None
            | [] => None
            end
          else None
      end
  end.

(** [re.match(r"^\d+[.)]\s", s)] *)
Definition is_numbered (s : utext) : bool :=
  match numbered_rest false s with
  | Some _ => true
  | None => false
  end.

(** [re.sub(r"^\d+[.)]\s+", "", s)] *)
Definition drop_numbering (s : utext) : utext :=
  match numbered_rest false s with
  | Some r => r
  | None => s
  end.

(** The loop over [lines], lines 189-214, with the [flush()] after it. *)
Fixpoint chunk_lines (lines : list utext) (chunks buf : list utext)
  : list utext :=
  match lines with
  | [] => flush chunks buf
  | line :: rest =>
      let stripped := strip line in
      match stripped with
      | [] => chunk_lines rest (flush chunks buf) []
      | _ =>
          if is_heading stripped then
            let heading :=
              strip (drop_while is_space (drop_while is_hash stripped)) in
            chunk_lines rest (append_if_long (flush chunks buf) heading) []
          else if is_bullet stripped then
            let item := strip (drop_while is_space (tl stripped)) in
            chunk_lines rest (append_if_long (flush chunks buf) item) []
          else if is_numbered stripped then
            let item := strip (drop_numbering stripped) in
            chunk_lines rest (append_if_long (flush chunks buf) item) []
          else chunk_lines rest chunks (buf ++ [stripped])
      end
  end.

Definition split_sentences (t : utext) : list utext :=
  let lines := split_on newline (strip_markdown t) in
  flat_map split_chunk (chunk_lines lines [] []).

End Lines.

End Chunking.

(* ================================================================= *)
(** ** LLM subprocess ([listen.py], lines 231-244) *)

Module Llm.
Import Py.

(** What [subprocess.run(..., capture_output=True, text=True,
    timeout=180)] does: it returns a completed process, with its exit
    status and its standard output, or raises [TimeoutExpired], or raises
    something else (the command cannot be started, the output cannot be
    decoded).  [check=True] is not passed, so no exit status raises. *)
Inductive run_result :=
| Completed (returncode : Z) (stdout : text)
| TimeoutExpired
| OtherException.

Section Run.

Variable subprocess_run : list text -> run_result.

Definition run_llm (llm_cmd : text) (query : text) : text :=
  match subprocess_run (split llm_cmd ++ [query]) with
  | Completed _ stdout => strip stdout
  | TimeoutExpired => []
  | OtherException => []
  end.

End Run.

(** The subprocess has timed out or failed: [subprocess.run] raised, or
    the process ran and ended with a non-zero exit status. *)
Definition failed (r : run_result) : Prop :=
  match r with
  | Completed returncode _ => returncode <> 0%Z
  | TimeoutExpired => True
  | OtherException => True
  end.

(** [subprocess.run] raised. *)
Definition raised (r : run_result) : Prop :=
  match r with
  | Completed _ _ => False
  | TimeoutExpired => True
  | OtherException => True
  end.

End Llm.

(* ================================================================= *)
(** ** One turn of the main loop ([listen.py], lines 641-681) *)

Module Pipeline.
Import Py.

Inductive event :=
| Query (q : text)          (* [print(f"[wp] Q: {text}")] *)
| TypingStart               (* [start_typing(typing_wav)] *)
| CallLlm (q : text)        (* [run_llm(args.llm, text)] *)
| TypingStop                (* [stop_typing(typing_proc)] *)
| NoResponse                (* [print("[wp] (no response)")] *)
| Answer (r : text)         (* [print(f"[wp] A: {response}")] *)
| Speak (r : text).         (* [speak_response(response, ...)] *)

(** Lines 671-681: what follows the LLM call, with the value of [busy]
    the turn ends with. *)
Definition after_llm (response : text) : list event * bool :=
  match response with
  | [] => ([NoResponse], false)
  | _ => ([Answer response; Speak response], false)
  end.

Section Main.

Variable whisper_transcribe : list Q -> Stt.result.
Variable subprocess_run : list text -> Llm.run_result.
Variable wake_words : list text.
Variable llm_cmd : text.

(** Lines 645-681, for the segment [capture_speech] returned. *)
Definition turn (pcm : list Z) : list event * bool :=
  let heard := Stt.text_of (whisper_transcribe (Stt.to_float32 pcm)) in
  match heard with
  | [] => ([], false)
  | _ =>
      if negb (Wake.wake_match heard wake_words) then ([], false)
      else
        match Wake.strip_wake heard wake_words with
        | [] => ([], false)
        | query =>
            let response := Llm.run_llm subprocess_run llm_cmd query in
            let '(events, busy) := after_llm response in
            (Query query :: TypingStart :: CallLlm query :: TypingStop
               :: events, busy)
        end
  end.

End Main.

End Pipeline.

(* ================================================================= *)
(** ** Pipelined TTS playback ([listen.py], lines 505-585) *)

Module Player.
Import Uni.

(** [tts_model.generate_audio(...)]: audio, [None], or an exception. *)
Inductive synth_result (Wav : Type) :=
| Audio (w : Wav)
| NoAudio
| SynthRaises.
Arguments Audio {Wav} w.
Arguments NoAudio {Wav}.
Arguments SynthRaises {Wav}.

(** What the main thread of [speak_response] does, in order. *)
Inductive event :=
| ListenersStart            (* [stop_listener.start(); key_listener.start()] *)
| ListenersStop             (* [key_listener.stop(); stop_listener.stop()] *)
| Synth (i : nat)           (* [generate_audio] called on chunk [i] *)
| Spawn (i : nat)           (* thread started to synthesize chunk [i] *)
| Join (i : nat)            (* [next_thread.join()], the thread of chunk [i] *)
| Play (i : nat)            (* [sd.play] of chunk [i] *)
| Poll (stop : bool)        (* [should_stop()] and what it returned *)
| SdStop                    (* [sd.stop()] *)
| Sleep.                    (* [time.sleep(0.05)] *)

Inductive outcome := Returned | Raised.

Section Speak.

(** The regex class [\d] of the interpreter, which the chunking uses. *)
Variable is_decimal : N -> bool.
Variable Wav : Type.
Variable generate_audio : utext -> synth_result Wav.

(** The two flags are [threading.Event]s that the session only ever
    sets ([clear()] is called in [start()] alone), so each is unset up
    to some read of it and set from then on.  Reads are counted; a flag
    that is never set has no such read. *)
Variables stopped_at pressed_at : option nat.

(** How many times [sd.get_stream().active] is true while chunk [i]
    plays undisturbed. *)
Variable active_polls : nat -> nat.

Definition flag_set (since : option nat) (now : nat) : bool :=
  match since with
  | Some t => t <=? now
  | None => false
  end.

(** [should_stop()] at the read numbered [now]. *)
Definition should_stop (now : nat) : bool :=
  flag_set stopped_at now || flag_set pressed_at now.

(** What a background thread leaves in [container]:
    [container.get("wav")] after the join. *)
Definition background (chunk : utext) : option Wav :=
  match generate_audio chunk with
  | Audio w => Some w
  | NoAudio => None
  | SynthRaises => None
  end.

(** The polling loop, lines 569-575, with the number of the next read
    of the flags when it ends. *)
Fixpoint play_poll (polls : nat) (now : nat) : list event * nat :=
  match polls with
  | 0 => ([], now)
  | S polls' =>
      if should_stop now then ([Poll true; SdStop], S now)
      else
        let '(tr, now') := play_poll polls' (S now) in
        (Poll false :: Sleep :: tr, now')
  end.

(** The [for] loop, lines 533-582, from chunk [i] on. *)
Fixpoint play_loop (i : nat) (chunks : list utext)
         (wav next_wav : option Wav) (next_thread : option nat)
         (now : nat) : list event :=
  match chunks with
  | [] => []
  | chunk :: rest =>
      if should_stop now then [Poll true; SdStop]
      else
        let now := S now in
        let joined :=
          if 0 <? i then
            match next_thread with
            | Some j => [Join j]
            | None => []
            end
          else [] in
        let wav := if 0 <? i then next_wav else wav in
        let next_thread :=
          match rest with
          | _ :: _ => Some (S i)
          | [] => None
          end in
        let spawned :=
          match rest with
          | _ :: _ => [Spawn (S i)]
          | [] => []
          end in
        Poll false :: joined ++ spawned ++
        match wav with
        | None => play_loop (S i) rest wav next_wav next_thread now
        | Some _ =>
            let '(polled, now) := play_poll (active_polls i) now in
            Play i :: polled ++
            if should_stop now then [Poll true]
            else
              Poll false ::
              match rest with
              | next_chunk :: _ =>
                  Join (S i)
                  :: play_loop (S i) rest wav (background next_chunk)
                               next_thread (S now)
              | [] => play_loop (S i) rest wav next_wav next_thread (S now)
              end
        end
  end.

Definition speak_response (response : utext) : list event * outcome :=
  match Chunking.split_sentences is_decimal response with
  | [] => ([], Returned)
  | (first :: _) as chunks =>
      match generate_audio first with
      | SynthRaises => ([ListenersStart; Synth 0; ListenersStop], Raised)
      | Audio w =>
          (ListenersStart :: Synth 0
             :: play_loop 0 chunks (Some w) None None 0 ++ [ListenersStop],
           Returned)
      | NoAudio =>
          (ListenersStart :: Synth 0
             :: play_loop 0 chunks None None None 0 ++ [ListenersStop],
           Returned)
      end
  end.

End Speak.

(** Events that make sound or touch a synthesis result. *)
Definition is_playback (e : event) : bool :=
  match e with
  | Synth _ | Spawn _ | Join _ | Play _ => true
  | _ => false
  end.

End Player.

(* ================================================================= *)
(** ** The STT daemon's endpoint ([server.py], lines 40-51) *)

Module SttServer.
Import Py.

(** One little-endian int16. *)
Definition int16_le (lo hi : Byte.byte) : Z :=
  let u := (Z.of_N (Byte.to_N lo) + 256 * Z.of_N (Byte.to_N hi))%Z in
  if (u <? 32768)%Z then u else (u - 65536)%Z.

(** [np.frombuffer(body, dtype=np.int16)]; [None] is the [ValueError] on
    a buffer whose size is not a multiple of the element size. *)
Fixpoint frombuffer_int16 (body : list Byte.byte) : option (list Z) :=
  match body with
  | [] => Some []
  | [_] => None
  | lo :: hi :: rest =>
      match frombuffer_int16 rest with
      | Some pcm => Some (int16_le lo hi :: pcm)
      | None => None
      end
  end.

Record reply := mk_reply { text_field : text; duration_ms : Z }.

(** The handler returns its dict, or an exception leaves it. *)
Inductive response := Ok (r : reply) | Failed.

Section Endpoint.

(** [_whisper.transcribe]; [None]: the call raises. *)
Variable whisper_transcribe : list Q -> option Stt.result.
(** [int((time.monotonic() - t0) * 1000)] *)
Variable elapsed_ms : Z.

(** The handler, with the arguments of the calls it made to the model. *)
Definition transcribe (body : list Byte.byte) : response * list (list Q) :=
  match body with
  | [] => (Ok (mk_reply [] 0), [])
  | _ =>
      match frombuffer_int16 body with
      | None => (Failed, [])
      | Some pcm16 =>
          let samples := Stt.to_float32 pcm16 in
          match whisper_transcribe samples with
          | Some result =>
              (Ok (mk_reply (Stt.text_of result) elapsed_ms), [samples])
          | None => (Failed, [samples])
          end
      end
  end.

End Endpoint.

End SttServer.

(* ================================================================= *)
(** ** The stop-word listener's loop ([listen.py], lines 425-455) *)

Module BargeInLoop.

Section Loop.

Variable vad_is_speech : Audio.Frame -> bool.
Variable whisper_transcribe : list Q -> option Stt.result.

(** [while q and self._running:] over the frames the stream delivers
    while the listener is left running: frame after frame, until a step
    sets the flag and returns. *)
Fixpoint listen_loop (st : BargeIn.state) (frames : list Audio.Frame)
  : BargeIn.step_result :=
  match frames with
  | [] => BargeIn.Continue st
  | frame :: rest =>
      match BargeIn.step vad_is_speech whisper_transcribe st frame with
      | BargeIn.Continue st' => listen_loop st' rest
      | BargeIn.Stopped st' => BargeIn.Stopped st'
      end
  end.

End Loop.

End BargeInLoop.

(* ================================================================= *)
(** ** Keystroke extraction ([listen.py], lines 250-294) *)

Module Typing.

(** What [_extract_keystrokes] ends with once the file is read: an
    exception that leaves it, [None], or the list of the keys, each the
    slice [samples[start:end]] given by its two bounds. *)
Inductive outcome :=
| Raises
| NoKeys
| Keys (bounds : list (nat * nat)).

Section Extract.

(** [win = int(sr * 0.005)], [key_max = int(sr * 0.15)] and
    [min_gap = int(0.08 * sr / win)]. *)
Variables win key_max min_gap : nat.
(** [len(samples)] *)
Variable n : nat.
(** [(env > threshold)[i]]: the peak of window [i] is above 15% of the
    highest peak. *)
Variable exceeds : nat -> bool.

(** [len(range(0, len(samples) - win, win))], for a step that is not 0. *)
Definition n_windows : nat := (n - win + (win - 1)) / win.

(** The loop over [enumerate(env > threshold)], lines 266-274, from
    index [i] on; [i - onsets[-1]] is computed on integers. *)
Fixpoint onsets_loop (i : nat) (above : list bool) (onsets : list nat)
         (was_below : bool) : list nat :=
  match above with
  | [] => onsets
  | v :: rest =>
      if v && was_below then
        let onsets' :=
          match list.last onsets with
          | None => onsets ++ [i]
          | Some o =>
              if (Z.of_nat min_gap <=? Z.of_nat i - Z.of_nat o)%Z
              then onsets ++ [i]
              else onsets
          end in
        onsets_loop (S i) rest onsets' false
      else if negb v then onsets_loop (S i) rest onsets true
      else onsets_loop (S i) rest onsets was_below
  end.

Definition detect_onsets : list nat :=
  onsets_loop 0 (map exceeds (seq 0 n_windows)) [] true.

(** Lines 282-287: [start] and [end] of each key. *)
Fixpoint key_bounds (onsets : list nat) : list (nat * nat) :=
  match onsets with
  | [] => []
  | onset :: rest =>
      let start := onset * win in
      let stop :=
        match rest with
        | next :: _ => Nat.min (start + key_max) (next * win)
        | [] => Nat.min (start + key_max) n
        end in
      (start, stop) :: key_bounds rest
  end.

(** Lines 261-294.  [range] raises on a step of 0 and [np.max] on an
    empty envelope; neither is inside the [try]. *)
Definition _extract_keystrokes : outcome :=
  if win =? 0 then Raises
  else if n_windows =? 0 then Raises
  else
    match detect_onsets with
    | [] => NoKeys
    | onsets => Keys (key_bounds onsets)
    end.

End Extract.

End Typing.

(* ================================================================= *)
(** ** Concrete inputs used by the examples below *)

Module Samples.
Import Py.

(** A silent frame and a loud one, 320 samples each. *)
Definition quiet_frame : Audio.Frame := replicate 320 0%Z.
Definition loud_frame : Audio.Frame := replicate 320 16384%Z.

(** Stand-ins for the floating point routines, exact where the examples
    use them: the square root of a rational that is the quotient of two
    squares, and the base-10 logarithm from the bit lengths
    (log10 q ~ 0.301 log2 q). *)
Definition sqrt_sample (q : Q) : Q :=
  let r := Qred q in
  Qmake (Z.sqrt (Qnum r)) (Z.to_pos (Z.sqrt (Zpos (Qden r)))).
Definition log10_sample (q : Q) : Q :=
  (inject_Z (Z.log2 (Qnum q) - Z.log2 (Zpos (Qden q))) * (301 # 1000))%Q.

(** A VAD that hears speech in every frame whose first sample is not 0. *)
Definition vad_sample (frame : Audio.Frame) : bool :=
  match frame with
  | x :: _ => negb (x =? 0)%Z
  | [] => false
  end.

(** A VAD that hears speech everywhere. *)
Definition vad_always (frame : Audio.Frame) : bool := true.

(** The stream of the segmenter scenario: 20 quiet frames, 20 loud
    ones, 55 quiet ones. *)
Definition scenario_stream : list Audio.Frame :=
  replicate 20 quiet_frame ++ replicate 20 loud_frame
  ++ replicate 55 quiet_frame.

(** Wake phrases and transcripts. *)
Definition hey_pal : text := txt "hey pal".
Definition pal : text := txt "pal".
Definition weather : text := txt "Hey Pal, what's the weather".

(** The segmenter on the sample capabilities, with the threshold and the
    frame counts of [capture_speech]. *)
Abbreviation energy :=
  (Audio.energy_dbfs sqrt_sample log10_sample).
Abbreviation capture_loop :=
  (Audio.capture_loop sqrt_sample log10_sample vad_sample
     Audio.ENERGY_THRESHOLD_DBFS Audio.silence_frames_default
     Audio.min_speech_frames_default Audio.max_frames_default).
Abbreviation segments :=
  (Audio.segments sqrt_sample log10_sample vad_sample
     Audio.ENERGY_THRESHOLD_DBFS Audio.silence_frames_default
     Audio.min_speech_frames_default Audio.max_frames_default).
Abbreviation is_speech_frame :=
  (Audio.is_speech_frame sqrt_sample log10_sample vad_sample
     Audio.ENERGY_THRESHOLD_DBFS).

(** A transcription model that hears nothing. *)
Definition whisper_silent (audio : list Q) : option Stt.result :=
  Some (Stt.Dict (Some [])).

(** The segment of [scenario_stream]: frames 21 to 90, 20 of them speech,
    the VAD having been asked about the loud frames only. *)
Definition scenario_segment : Audio.state :=
  Audio.mk_state (replicate 20 loud_frame ++ replicate 50 quiet_frame)
                 50 20 true (replicate 20 loud_frame).

(** An LLM command that prints an error and exits with status 1, one
    that never answers, and a transcription model that always hears the
    same question. *)
Definition llm_exits_1 (argv : list text) : Llm.run_result :=
  Llm.Completed 1 (txt "Error: no API key").
Definition llm_times_out (argv : list text) : Llm.run_result :=
  Llm.TimeoutExpired.
Definition whisper_weather (audio : list Q) : Stt.result :=
  Stt.Dict (Some weather).
Definition llm_cmd : text := txt "openclaw agent --agent main --message".

(** Request bodies: one byte, and two int16 samples (1 and -2). *)
Definition body_one_byte : list Byte.byte := [Byte.x01].
Definition body_two_samples : list Byte.byte :=
  [Byte.x01; Byte.x00; Byte.xfe; Byte.xff].

(** A response of three sentences, a TTS model whose audio is the text
    itself, and chunks that each play for three polls. *)
Definition three_sentences : Uni.utext :=
  Uni.utxt "One two three. Four five six. Seven eight nine.".
Definition tts_echo (chunk : Uni.utext) : Player.synth_result Uni.utext :=
  Player.Audio chunk.

(** A digit test that knows the digits [0] to [9] only. *)
Definition decimal_sample (c : N) : bool := Uni.in_range 48 57 c.
Definition three_polls (i : nat) : nat := 3.


(** A transcription model that always hears "Unstoppable!", and one that
    always raises. *)
Definition whisper_unstoppable (audio : list Q) : option Stt.result :=
  Some (Stt.Dict (Some (txt " Unstoppable!"))).
Definition whisper_raises (audio : list Q) : option Stt.result := None.

(** Three loud frames and the 25 quiet ones that end a stop word. *)
Definition stop_stream : list Audio.Frame :=
  replicate 3 loud_frame ++ replicate 25 quiet_frame.


(** A recording of 2000 samples at 16 kHz (windows of 80 samples) in
    which the windows 2, 3, 4 and 10 and the windows 20 and 21 are above
    the threshold. *)
Definition taps (i : nat) : bool :=
  ((2 <=? i) && (i <=? 4)) || (i =? 10) || ((20 <=? i) && (i <=? 21)).

End Samples.

(* ================================================================= *)
(** ** Notions the properties are stated with *)

Module Notions.
Import Py.




Abbreviation nonspace := (fun d : ascii => negb (is_space d)).



(** The state a step of the segmenter ends in. *)
Definition capture_state (r : Audio.step_result) : Audio.state :=
  match r with
  | Audio.Continue st => st
  | Audio.Return st _ => st
  end.

(** The state a step of the stop-word listener ends in. *)
Definition listen_state (r : BargeIn.step_result) : BargeIn.state :=
  match r with
  | BargeIn.Continue st => st
  | BargeIn.Stopped st => st
  end.

(** The segmenter's state with another log of VAD calls. *)
Definition with_calls (st : Audio.state) (calls : list Audio.Frame)
  : Audio.state :=
  Audio.mk_state (Audio.speech_buf st) (Audio.silent_count st)
                 (Audio.speech_count st) (Audio.recording st) calls.

(** While recording, at least one speech frame has been counted. *)
Definition recording_has_speech (st : Audio.state) : Prop :=
  Audio.recording st = true -> 1 <= Audio.speech_count st.

(** The characters of a text that are not whitespace, in order. *)
Definition visible (s : Uni.utext) : Uni.utext :=
  List.filter (fun d => negb (Uni.is_space d)) s.

(** What the playback loop may still do after a read of the flags that
    returned true: stop the audio, and read the flags once more. *)
Definition loop_tail (post : list Player.event) : Prop :=
  post = [Player.SdStop]
  \/ post = [Player.SdStop; Player.Poll true]
  \/ post = [].

(** Every read that returns true is followed by such a tail. *)
Definition cancel_ok (tr : list Player.event) : Prop :=
  forall pre post, tr = pre ++ Player.Poll true :: post -> loop_tail post.

Definition no_true_poll (tr : list Player.event) : Prop :=
  Forall (fun e => e <> Player.Poll true) tr.

(** What [speak_response] may still do after such a read: the tail of
    the loop, and the [finally] that stops the two listeners. *)
Definition after_cancel (post : list Player.event) : Prop :=
  post = [Player.SdStop; Player.ListenersStop]
  \/ post = [Player.SdStop; Player.Poll true; Player.ListenersStop]
  \/ post = [Player.ListenersStop].


(** A character as [_normalize] leaves it in a token: not a space, not
    wake-word punctuation, not a capital. *)
Definition clean_char (c : ascii) : Prop :=
  is_space c = false /\ Wake.is_punct c = false /\ lower_char c = c.


(** What the segmenter's counters say about its buffer, for [speechy] the
    test "loud enough and VAD positive": the speech count is the number
    of speech frames buffered; the buffer is empty exactly when idle, and
    otherwise opens with a speech frame; it ends with [silent_count]
    frames that are not speech; and both counters are below their
    limits while the call goes on. *)
Definition buffer_shape (speechy : Audio.Frame -> bool)
           (silence_frames max_frames : nat) (st : Audio.state) : Prop :=
  Audio.speech_count st
  = length (List.filter speechy (Audio.speech_buf st))
  /\ match Audio.speech_buf st with
     | [] => Audio.recording st = false /\ Audio.silent_count st = 0
     | first :: _ => Audio.recording st = true /\ speechy first = true
     end
  /\ (exists body tail,
        Audio.speech_buf st = body ++ tail
        /\ length tail = Audio.silent_count st
        /\ Forall (fun f => speechy f = false) tail)
  /\ Audio.silent_count st < Nat.max silence_frames 1
  /\ Audio.speech_count st < Nat.max max_frames 1.


(** What holds of the state after the frames [taken]: the shape of the
    buffer, the buffer being the end of the frames taken, and the VAD
    having been asked about the loud frames, in order, and no other. *)
Definition capture_inv (speechy loud : Audio.Frame -> bool)
           (silence_frames max_frames : nat)
           (taken : list Audio.Frame) (st : Audio.state) : Prop :=
  buffer_shape speechy silence_frames max_frames st
  /\ (exists pre, taken = pre ++ Audio.speech_buf st)
  /\ Audio.vad_calls st = List.filter loud taken.


(** A character that is no markdown star, no backtick and no newline. *)
Definition plain_char (c : N) : Prop :=
  Chunking.is_star c = false
  /\ Chunking.is_backtick c = false
  /\ c <> Chunking.newline.

(** A sentence boundary opens the text: one of [.!?], then whitespace,
    then, where the whitespace ends, a capital. *)
Definition boundary_at (s : Uni.utext) : bool :=
  match s with
  | c :: ((d :: _) as rest) =>
      Chunking.is_sentence_end c && Uni.is_space d
      && Chunking.capital_follows rest
  | _ => false
  end.

(** A sentence boundary somewhere in the text. *)
Fixpoint has_boundary (s : Uni.utext) : bool :=
  boundary_at s
  || match s with
     | [] => false
     | _ :: s' => has_boundary s'
     end.

(** The chunks [speak_response] plays, by the events of its trace. *)
Definition is_play (e : Player.event) : bool :=
  match e with
  | Player.Play _ => true
  | _ => false
  end.

(** The synthesis of a chunk gives audio. *)
Definition has_audio {Wav : Type}
           (generate_audio : Uni.utext -> Player.synth_result Wav)
           (chunk : Uni.utext) : Prop :=
  exists w, generate_audio chunk = Player.Audio w.


(** Window [i] opens a keystroke: it is above the threshold and the
    window before it, if there is one, is not. *)
Definition rising_edge (above : list bool) (i : nat) : Prop :=
  above !! i = Some true
  /\ (i = 0 \/ above !! Nat.pred i = Some false).

(** Onset [b] comes after onset [a], [min_gap] windows later or more. *)
Definition spaced (min_gap : nat) (a b : nat) : Prop :=
  a < b /\ a + min_gap <= b.

End Notions.

(* ================================================================= *)
(** * Properties *)

(** ** Facts about the string operations *)

Module PyFacts.
Import Py.

Lemma drop_while_suffix p (s : text) : drop_while p s `suffix_of` s.
Proof.
  induction s as [|c s IH]; simpl; [done|].
  destruct (p c); [by apply suffix_cons_r | done].
Qed.

Lemma drop_while_head p (s : text) c r :
  drop_while p s = c :: r -> p c = false.
Proof.
  induction s as [|d s IH]; simpl; [done|].
  destruct (p d) eqn:E; [done|]. intros [= -> _]. done.
Qed.

Lemma take_drop_while p (s : text) : take_while p s ++ drop_while p s = s.
Proof.
  induction s as [|c s IH]; simpl; [done|].
  destruct (p c); simpl; [by rewrite IH | done].
Qed.

Lemma drop_while_snoc p (s : text) c :
  p c = false -> drop_while p (s ++ [c]) = drop_while p s ++ [c].
Proof.
  intros Hc. induction s as [|d s IH]; simpl.
  - by rewrite Hc.
  - destruct (p d); [done | done].
Qed.

Lemma drop_while_all p (s : text) :
  forallb p s = true -> drop_while p s = [].
Proof.
  induction s as [|c s IH]; simpl; [done|].
  destruct (p c); simpl; [done | discriminate].
Qed.




Lemma rstrip_head (a : ascii) (r : text) :
  is_space a = false -> rstrip (a :: r) = a :: rstrip r.
Proof.
  intros Ha. unfold rstrip. cbn [rev].
  rewrite drop_while_snoc by done. by rewrite rev_app_distr.
Qed.

Lemma rstrip_shape (r : text) :
  rstrip r = [] \/ exists y b, rstrip r = y ++ [b] /\ is_space b = false.
Proof.
  unfold rstrip.
  destruct (drop_while is_space (rev r)) as [|b w] eqn:E; [by left|].
  right. exists (rev w), b. split; [done|].
  by apply (drop_while_head _ _ _ _ E).
Qed.

(** A stripped text is empty, or starts and ends with a character that
    is not a space. *)
Lemma strip_shape (s : text) :
  strip s = []
  \/ exists a, is_space a = false
       /\ (strip s = [a]
           \/ exists y b, strip s = a :: y ++ [b] /\ is_space b = false).
Proof.
  unfold strip, lstrip.
  destruct (drop_while is_space s) as [|a r] eqn:E; [by left|].
  right. exists a.
  assert (Ha : is_space a = false) by apply (drop_while_head _ _ _ _ E).
  split; [done|]. rewrite rstrip_head by done.
  destruct (rstrip_shape r) as [->|(y & b & -> & Hb)]; [by left|].
  right. by exists y, b.
Qed.

Lemma drop_while_sublist p (s : text) : drop_while p s `sublist_of` s.
Proof.
  induction s as [|c s IH]; simpl; [done|].
  destruct (p c); [by constructor | done].
Qed.

Lemma sublist_rev {A} (l1 l2 : list A) :
  l1 `sublist_of` l2 -> rev l1 `sublist_of` rev l2.
Proof.
  induction 1 as [|x l1 l2 _ IH|x l1 l2 _ IH]; simpl; [done| |].
  - by apply sublist_app.
  - by apply sublist_inserts_r.
Qed.

Lemma strip_sublist (s : text) : strip s `sublist_of` s.
Proof.
  unfold strip, rstrip, lstrip.
  etrans; [|apply drop_while_sublist].
  rewrite <- (rev_involutive (drop_while is_space s)) at 2.
  apply sublist_rev, drop_while_sublist.
Qed.

End PyFacts.

(* ----------------------------------------------------------------- *)
(** ** Wake-word matching *)

Module WakeFacts.
Import Py Wake Notions PyFacts.

Lemma insert_by_len_perm w ws : insert_by_len w ws ≡ₚ w :: ws.
Proof.
  induction ws as [|v ws IH]; simpl; [done|].
  destruct (length w <? length v); [|done].
  rewrite IH. apply Permutation_swap.
Qed.

Lemma sorted_longest_first_perm ws : sorted_longest_first ws ≡ₚ ws.
Proof.
  induction ws as [|w ws IH]; simpl; [done|].
  by rewrite insert_by_len_perm, IH.
Qed.




Lemma wake_match_loop_find tokens ws :
  wake_match_loop tokens ws = true <->
  is_Some (find (prefix_hit tokens) ws).
Proof.
  induction ws as [|w ws IH]; simpl.
  - split; [discriminate | by intros [? ?]].
  - destruct (prefix_hit tokens w); [|done]. split; eauto.
Qed.

Lemma strip_wake_loop_find t tokens ws :
  strip_wake_loop t tokens ws =
  match find (prefix_hit tokens) ws with
  | Some w => strip_tokens (split (_normalize w)) t
  | None => t
  end.
Proof.
  induction ws as [|w ws IH]; simpl; [done|].
  by destruct (prefix_hit tokens w).
Qed.

Lemma wake_match_loop_hit tokens ws w :
  w ∈ ws -> prefix_hit tokens w = true -> wake_match_loop tokens ws = true.
Proof.
  induction ws as [|v ws IH]; intros Hin Hw.
  - by apply elem_of_nil in Hin.
  - simpl. destruct (prefix_hit tokens v) eqn:Ev; [done|].
    apply elem_of_cons in Hin as [->|Hin]; [congruence|]. by apply IH.
Qed.

(** [strip_wake] works on the phrase [selected] names. *)
Lemma strip_wake_selected t ww :
  strip_wake t ww =
  match selected t ww with
  | Some w => strip_tokens (_normalize_tokens w) t
  | None => t
  end.
Proof. unfold strip_wake, selected. apply strip_wake_loop_find. Qed.

Lemma wake_match_selected t ww :
  wake_match t ww = true <-> is_Some (selected t ww).
Proof. unfold wake_match, selected. apply wake_match_loop_find. Qed.

Lemma selected_hit t ww w :
  selected t ww = Some w ->
  w ∈ ww /\ prefix_hit (_normalize_tokens t) w = true.
Proof.
  unfold selected. intros H. apply find_some in H as [Hin Hp].
  split; [|done].
  rewrite <- (sorted_longest_first_perm ww). by apply list_elem_of_In.
Qed.

(** C10. A wake-word list that holds the empty string matches every
    transcript, the empty one too: the empty phrase has no tokens, and
    no tokens open every token list. *)
Theorem wake_match_empty_phrase (t : text) (wake_words : list text) :
  In (txt "") wake_words -> wake_match t wake_words = true.
Proof.
  intros Hin. unfold wake_match.
  apply (wake_match_loop_hit _ _ (txt "")).
  - rewrite sorted_longest_first_perm. by apply list_elem_of_In.
  - reflexivity.
Qed.

Lemma wake_match_empty_phrase_witness :
  In (txt "") [txt "hey pal"; txt ""]
  /\ wake_match (txt "What time is it?") [txt "hey pal"; txt ""] = true
  /\ wake_match (txt "") [txt "hey pal"; txt ""] = true.
Proof.
  split; [simpl; auto|].
  split; apply wake_match_empty_phrase; simpl; auto.
Defined.

(** *** The phrase that wins *)


(** *** What [strip_wake] leaves *)

Lemma lead_token_rest_suffix (s r : text) :
  lead_token_rest s = Some r -> r `suffix_of` s.
Proof.
  revert r. induction s as [|c s IH]; intros r; cbn [lead_token_rest].
  - done.
  - destruct (is_sep c).
    + destruct (lead_token_rest s) as [r'|].
      * intros [= <-]. apply suffix_cons_r. by apply IH.
      * destruct (is_space c); [done|].
        intros [= <-]. apply (drop_while_suffix nonspace (c :: s)).
    + intros [= <-]. apply (drop_while_suffix nonspace (c :: s)).
Qed.

Lemma drop_lead_token_suffix (s : text) : drop_lead_token s `suffix_of` s.
Proof.
  unfold drop_lead_token.
  destruct (lead_token_rest s) eqn:E; [by apply lead_token_rest_suffix|done].
Qed.

Lemma fold_drop_suffix (wake_tokens : list text) (s : text) :
  fold_left (fun r _ => drop_lead_token r) wake_tokens s `suffix_of` s.
Proof.
  revert s. induction wake_tokens as [|w ws IH]; intros s; simpl; [done|].
  etrans; [apply IH | apply drop_lead_token_suffix].
Qed.












End WakeFacts.

(* ----------------------------------------------------------------- *)
(** ** The speech segmenter *)

Module AudioFacts.
Import Audio Notions.

Section CaptureFacts.

Variables (np_sqrt np_log10 : Q -> Q) (vad_is_speech : Frame -> bool).
Variable energy_threshold : Q.
Variables silence_frames min_speech_frames max_frames : nat.

Local Abbreviation step :=
  (Audio.step np_sqrt np_log10 vad_is_speech energy_threshold
             silence_frames min_speech_frames max_frames).
Local Abbreviation on_silence :=
  (Audio.on_silence silence_frames min_speech_frames).
Local Abbreviation capture_loop :=
  (Audio.capture_loop np_sqrt np_log10 vad_is_speech energy_threshold
                     silence_frames min_speech_frames max_frames).
Local Abbreviation segments_from :=
  (Audio.segments_from np_sqrt np_log10 vad_is_speech energy_threshold
                      silence_frames min_speech_frames max_frames).
Local Abbreviation is_speech_frame :=
  (Audio.is_speech_frame np_sqrt np_log10 vad_is_speech energy_threshold).

Lemma on_silence_keeps st frame st' :
  recording st = true -> recording_has_speech st ->
  on_silence st frame = Continue st' -> recording_has_speech st'.
Proof.
  unfold Audio.on_silence, recording_has_speech.
  intros Hrec Hinv.
  destruct (silence_frames <=? S (silent_count st));
    [destruct (min_speech_frames <=? speech_count st)|];
    intros [= <-]; simpl; [done|]; auto.
Qed.

Lemma on_silence_return st frame st' why :
  recording st = true -> recording_has_speech st ->
  on_silence st frame = Return st' why ->
  why = SilenceTimeout
  /\ min_speech_frames <= speech_count st'
  /\ 1 <= speech_count st'.
Proof.
  unfold Audio.on_silence, recording_has_speech.
  intros Hrec Hinv.
  destruct (silence_frames <=? S (silent_count st)); [|done].
  destruct (min_speech_frames <=? speech_count st) eqn:Emin; [|done].
  intros [= <- <-]. simpl. apply Nat.leb_le in Emin. auto.
Qed.

Lemma step_keeps st frame st' :
  recording_has_speech st ->
  step st frame = Continue st' -> recording_has_speech st'.
Proof.
  unfold Audio.step. intros Hinv.
  destruct (Qlt_bool _ _).
  - destruct (recording st) eqn:Er.
    + by apply on_silence_keeps.
    + by intros [= <-].
  - cbn [speech_buf silent_count speech_count recording vad_calls].
    destruct (vad_is_speech frame).
    + destruct (max_frames <=? S (speech_count st)); [done|].
      intros [= <-]. unfold recording_has_speech. simpl. lia.
    + destruct (recording st) eqn:Er.
      * apply on_silence_keeps; [done|].
        unfold recording_has_speech. simpl. auto.
      * intros [= <-]. unfold recording_has_speech. simpl. done.
Qed.

Lemma step_return st frame st' why :
  recording_has_speech st ->
  step st frame = Return st' why ->
  1 <= speech_count st'
  /\ (why = SilenceTimeout -> min_speech_frames <= speech_count st')
  /\ (why = MaxDuration -> max_frames <= speech_count st').
Proof.
  unfold Audio.step. intros Hinv.
  destruct (Qlt_bool _ _).
  - destruct (recording st) eqn:Er; [|done].
    intros H. apply on_silence_return in H as (-> & ? & ?); done.
  - cbn [speech_buf silent_count speech_count recording vad_calls].
    destruct (vad_is_speech frame).
    + destruct (max_frames <=? S (speech_count st)) eqn:Emax; [|done].
      intros [= <- <-]. simpl. apply Nat.leb_le in Emax.
      split; [lia|]. split; [done|]. auto.
    + destruct (recording st) eqn:Er; [|done].
      intros H. apply on_silence_return in H as (-> & ? & ?);
        [done|done|].
      unfold recording_has_speech. simpl. auto.
Qed.

Lemma segments_from_speech st frames seg why :
  recording_has_speech st ->
  In (seg, why) (segments_from st frames) ->
  1 <= speech_count seg
  /\ (why = SilenceTimeout -> min_speech_frames <= speech_count seg)
  /\ (why = MaxDuration -> max_frames <= speech_count seg).
Proof.
  revert st. induction frames as [|frame rest IH]; intros st Hinv.
  - intros [].
  - cbn [Audio.segments_from].
   
    destruct (step st frame) as [st'|st' why'] eqn:Es.
    + apply IH. by apply (step_keeps st frame).
    + intros [[= <- <-]|Hin].
      * by apply (step_return st frame).
      * apply (IH init); [|done]. intros [=].
Qed.

(** The first segment of a stream is the one [capture_loop] returns
    with, and the rest are those of the frames after it. *)
Lemma segments_from_capture st frames :
  segments_from st frames =
  match capture_loop st frames with
  | inl _ => []
  | inr (seg, why, rest) => (seg, why) :: segments_from init rest
  end.
Proof.
  revert st. induction frames as [|frame rest IH]; intros st; [done|].
  cbn [Audio.segments_from Audio.capture_loop].
 
  destruct (step st frame) as [st'|st' why']; [apply IH | done].
Qed.

Lemma capture_loop_app st frames more :
  capture_loop st (frames ++ more) =
  match capture_loop st frames with
  | inl st' => capture_loop st' more
  | inr (seg, why, rest) => inr (seg, why, rest ++ more)
  end.
Proof.
  revert st. induction frames as [|frame rest IH]; intros st; [done|].
  cbn [app Audio.capture_loop].
 
  destruct (step st frame) as [st'|st' why']; [apply IH | done].
Qed.

(** *** One frame *)

Lemma step_speech st frame :
  is_speech_frame frame = true ->
  step st frame =
  let st' := mk_state (speech_buf st ++ [frame]) 0 (S (speech_count st))
                      true (vad_calls st ++ [frame]) in
  if max_frames <=? S (speech_count st) then Return st' MaxDuration
  else Continue st'.
Proof.
  unfold Audio.is_speech_frame.
  intros [Hloud Hvad]%andb_true_iff. apply negb_true_iff in Hloud.
  unfold Audio.step. rewrite Hloud, Hvad. done.
Qed.

Lemma step_nonspeech st frame :
  is_speech_frame frame = false ->
  exists calls,
    step st frame =
    if recording st then on_silence (with_calls st calls) frame
    else Continue (with_calls st calls).
Proof.
  unfold Audio.is_speech_frame, Audio.step.
  intros H. destruct st as [buf silent count rec calls].
  destruct (Qlt_bool _ _).
  - exists calls. done.
  - simpl in H. rewrite H. exists (calls ++ [frame]). done.
Qed.

(** *** Runs of frames of one kind *)

Lemma capture_idle st frames :
  recording st = false ->
  Forall (fun f => is_speech_frame f = false) frames ->
  exists calls, capture_loop st frames = inl (with_calls st calls).
Proof.
  revert st. induction frames as [|frame rest IH]; intros st Hrec Hall.
  - exists (vad_calls st). by destruct st.
  - apply Forall_cons in Hall as [Hf Hrest].
    destruct (step_nonspeech st frame Hf) as [calls Hs].
    rewrite Hrec in Hs.
    destruct (IH (with_calls st calls) Hrec Hrest) as [calls' Hloop].
    exists calls'. cbn [Audio.capture_loop].
    rewrite Hs. exact Hloop.
Qed.

Lemma capture_speech_run st frames :
  recording st = true -> silent_count st = 0 ->
  Forall (fun f => is_speech_frame f = true) frames ->
  speech_count st + length frames < max_frames ->
  capture_loop st frames =
  inl (mk_state (speech_buf st ++ frames) 0
                (speech_count st + length frames) true
                (vad_calls st ++ frames)).
Proof.
  revert st. induction frames as [|frame rest IH];
    intros st Hrec Hsil Hall Hmax.
  - destruct st as [buf silent count rec calls]. simpl in *.
    subst. by rewrite !app_nil_r, Nat.add_0_r.
  - apply Forall_cons in Hall as [Hf Hrest]. cbn [length] in Hmax.
    cbn [Audio.capture_loop].
    rewrite (step_speech st frame Hf).
    cbv zeta.
    destruct (max_frames <=? S (speech_count st)) eqn:E;
      [apply Nat.leb_le in E; lia|].
    rewrite IH; cbn [speech_buf silent_count speech_count recording
                     vad_calls]; [|done|done|done|lia].
    rewrite <- !app_assoc. cbn [app length].
    by rewrite Nat.add_succ_r.
Qed.

Lemma capture_silence_run st frames :
  recording st = true ->
  Forall (fun f => is_speech_frame f = false) frames ->
  silent_count st + length frames < silence_frames ->
  exists calls,
    capture_loop st frames =
    inl (mk_state (speech_buf st ++ frames)
                  (silent_count st + length frames)
                  (speech_count st) true calls).
Proof.
  revert st. induction frames as [|frame rest IH];
    intros st Hrec Hall Hsil.
  - exists (vad_calls st).
    destruct st as [buf silent count rec calls]. simpl in *.
    subst. by rewrite app_nil_r, Nat.add_0_r.
  - apply Forall_cons in Hall as [Hf Hrest]. cbn [length] in Hsil.
    destruct (step_nonspeech st frame Hf) as [calls Hs].
    rewrite Hrec in Hs.
    unfold Audio.on_silence in Hs.
    cbn [with_calls speech_buf silent_count speech_count recording
                    vad_calls] in Hs.
    destruct (silence_frames <=? S (silent_count st)) eqn:E;
      [apply Nat.leb_le in E; lia|].
    edestruct (IH (mk_state (speech_buf st ++ [frame])
                            (S (silent_count st)) (speech_count st)
                            true calls)) as [calls' Hloop];
      [done|done|simpl; lia|].
    exists calls'. cbn [Audio.capture_loop].
    rewrite Hs, Hloop.
    cbn [speech_buf silent_count speech_count recording vad_calls].
    rewrite <- app_assoc. cbn [app length].
    by rewrite Nat.add_succ_r.
Qed.

(** The frame that completes the silence. *)
Lemma step_timeout st frame :
  recording st = true ->
  is_speech_frame frame = false ->
  silence_frames <= S (silent_count st) ->
  min_speech_frames <= speech_count st ->
  exists calls,
    step st frame =
    Return (mk_state (speech_buf st ++ [frame]) (S (silent_count st))
                     (speech_count st) true calls)
           SilenceTimeout.
Proof.
  intros Hrec Hf Hsil Hmin.
  destruct (step_nonspeech st frame Hf) as [calls Hs].
  exists calls. rewrite Hs, Hrec.
  unfold Audio.on_silence.
  cbn [with_calls speech_buf silent_count speech_count recording
                  vad_calls].
  apply Nat.leb_le in Hsil, Hmin. by rewrite Hsil, Hmin.
Qed.

Lemma capture_loop_cons st frame rest :
  capture_loop st (frame :: rest) =
  match step st frame with
  | Continue st' => capture_loop st' rest
  | Return st' why => inr (st', why, rest)
  end.
Proof. reflexivity. Qed.

(** *** An utterance: silence, speech, then the silence that ends it *)

Lemma capture_utterance quiet1 first speech quiet2 last rest :
  Forall (fun f => is_speech_frame f = false) quiet1 ->
  Forall (fun f => is_speech_frame f = true) (first :: speech) ->
  Forall (fun f => is_speech_frame f = false) (quiet2 ++ [last]) ->
  S (length speech) < max_frames ->
  min_speech_frames <= S (length speech) ->
  S (length quiet2) = silence_frames ->
  exists calls,
    capture_loop init
      (quiet1 ++ (first :: speech) ++ quiet2 ++ last :: rest)
    = inr (mk_state ((first :: speech) ++ quiet2 ++ [last])
                    silence_frames (S (length speech)) true calls,
           SilenceTimeout, rest).
Proof.
  intros Hq1 Hsp Hq2 Hmax Hmin Hsil.
  apply Forall_cons in Hsp as [Hfirst Hspeech].
  apply Forall_app in Hq2 as [Hquiet2 Hlast].
  rewrite Forall_singleton in Hlast.
  destruct (capture_idle init quiet1 eq_refl Hq1) as [c1 H1].
  rewrite capture_loop_app, H1. cbn [app].
  rewrite capture_loop_cons, (step_speech _ first Hfirst). cbv zeta.
  cbn [with_calls init speech_buf silent_count speech_count recording
                  vad_calls app].
  destruct (max_frames <=? 1) eqn:E; [apply Nat.leb_le in E; lia|].
  rewrite capture_loop_app, capture_speech_run;
    cbn [speech_buf silent_count speech_count recording vad_calls];
    [|done|done|done|lia].
  edestruct (capture_silence_run
               (mk_state ([first] ++ speech) 0 (1 + length speech) true
                         ((c1 ++ [first]) ++ speech)) quiet2)
    as [c2 H2]; [done|done|simpl; lia|].
  rewrite capture_loop_app, H2.
  cbn [speech_buf silent_count speech_count recording vad_calls].
  edestruct (step_timeout
               (mk_state (([first] ++ speech) ++ quiet2)
                         (0 + length quiet2) (1 + length speech) true c2)
               last) as [c3 H3]; [done|done|simpl; lia|simpl; lia|].
  rewrite capture_loop_cons, H3.
  cbn [speech_buf silent_count speech_count recording vad_calls].
  exists c3. repeat f_equal.
  - cbn [app]. by rewrite <- app_assoc.
  - simpl. lia.
Qed.

End CaptureFacts.

(** C2. Whatever frames the segmenter is fed, a segment it returns on
    the silence timeout has at least [min_speech_frames] speech frames,
    and no segment is returned with none; below the minimum, the segment
    was cut by the maximum duration. *)
Theorem segments_meet_minimum
        (np_sqrt np_log10 : Q -> Q) (vad_is_speech : Frame -> bool)
        (energy_threshold : Q)
        (silence_frames min_speech_frames max_frames : nat)
        (frames : list Frame) (seg : state) (why : reason) :
  In (seg, why)
     (segments np_sqrt np_log10 vad_is_speech energy_threshold
               silence_frames min_speech_frames max_frames frames) ->
  (why = SilenceTimeout -> min_speech_frames <= speech_count seg)
  /\ 1 <= speech_count seg
  /\ (speech_count seg < min_speech_frames -> why = MaxDuration).
Proof.
  intros Hin.
  apply segments_from_speech in Hin as (H1 & Hmin & Hmax); [|intros [=]].
  split; [done|]. split; [done|].
  destruct why; [|done]. intros Hlt. specialize (Hmin eq_refl). lia.
Qed.

Lemma window {A} (before inner after : list A) n m :
  length before = n -> length inner = m ->
  take m (drop n (before ++ inner ++ after)) = inner
  /\ drop (n + m) (before ++ inner ++ after) = after.
Proof.
  intros Hn Hm. split.
  - rewrite drop_app_length' by done. by rewrite take_app_length'.
  - rewrite <- drop_drop, drop_app_length' by done.
    by rewrite drop_app_length'.
Qed.

(** C4. Twenty non-speech frames, twenty speech frames and fifty-five
    non-speech frames, with a silence timeout of 50 frames and a speech
    minimum of 10: the segmenter returns once, at frame 90, with frames
    21 to 90 in order, and the call that follows on the frames after it
    stays idle. *)
Theorem scenario_one_segment
        (np_sqrt np_log10 : Q -> Q) (vad_is_speech : Frame -> bool)
        (energy_threshold : Q) (max_frames : nat)
        (quiet1 speech quiet2 : list Frame) :
  length quiet1 = 20 -> length speech = 20 -> length quiet2 = 55 ->
  Forall (fun f => is_speech_frame np_sqrt np_log10 vad_is_speech
                                   energy_threshold f = false) quiet1 ->
  Forall (fun f => is_speech_frame np_sqrt np_log10 vad_is_speech
                                   energy_threshold f = true) speech ->
  Forall (fun f => is_speech_frame np_sqrt np_log10 vad_is_speech
                                   energy_threshold f = false) quiet2 ->
  20 < max_frames ->
  exists seg idle,
    capture_loop np_sqrt np_log10 vad_is_speech energy_threshold
                 50 10 max_frames init (quiet1 ++ speech ++ quiet2)
    = inr (seg, SilenceTimeout, drop 90 (quiet1 ++ speech ++ quiet2))
    /\ speech_buf seg = take 70 (drop 20 (quiet1 ++ speech ++ quiet2))
    /\ pcm_of seg = concat (take 70 (drop 20 (quiet1 ++ speech ++ quiet2)))
    /\ speech_count seg = 20
    /\ segments np_sqrt np_log10 vad_is_speech energy_threshold
                50 10 max_frames (quiet1 ++ speech ++ quiet2)
       = [(seg, SilenceTimeout)]
    /\ capture_loop np_sqrt np_log10 vad_is_speech energy_threshold
                    50 10 max_frames init
                    (drop 90 (quiet1 ++ speech ++ quiet2))
       = inl idle
    /\ recording idle = false
    /\ speech_buf idle = []
    /\ speech_count idle = 0
    /\ silent_count idle = 0.
Proof.
  intros Hl1 Hl2 Hl3 Hq1 Hsp Hq2 Hmax.
  destruct speech as [|first sp]; [discriminate|].
  injection Hl2 as Hl2.
  assert (Hsplit : quiet2 = take 49 quiet2 ++ drop 49 quiet2)
    by (by rewrite take_drop).
  assert (Hla : length (take 49 quiet2) = 49)
    by (rewrite length_take; lia).
  assert (Hlb : length (drop 49 quiet2) = 6)
    by (rewrite length_drop; lia).
  destruct (drop 49 quiet2) as [|last rest]; [discriminate|].
  injection Hlb as Hlb.
  set (qa := take 49 quiet2) in *. clearbody qa. subst quiet2.
  apply Forall_app in Hq2 as [Hqa Hlast].
  apply Forall_cons in Hlast as [Hlast Hrest].
  destruct (capture_utterance np_sqrt np_log10 vad_is_speech
              energy_threshold 50 10 max_frames
              quiet1 first sp qa last rest) as [calls Hcap];
    [done|done| |lia|lia|lia|].
  { apply Forall_app. split; [done|]. by apply Forall_singleton. }
  destruct (capture_idle np_sqrt np_log10 vad_is_speech energy_threshold
              50 10 max_frames init rest eq_refl Hrest) as [calls' Hidle].
  destruct (window quiet1 ((first :: sp) ++ qa ++ [last]) rest 20 70)
    as [Htake Hdrop]; [done| |].
  { rewrite !length_app. simpl. lia. }
  assert (Hframes :
            quiet1 ++ (first :: sp) ++ qa ++ last :: rest
            = quiet1 ++ ((first :: sp) ++ qa ++ [last]) ++ rest).
  { rewrite <- !app_assoc. done. }
  exists (mk_state ((first :: sp) ++ qa ++ [last]) 50 (S (length sp)) true
                   calls), (with_calls init calls').
  rewrite Hframes. change 90 with (20 + 70). rewrite Hdrop, Htake.
  rewrite <- Hframes.
  split; [exact Hcap|]. split; [done|]. split; [done|].
  split; [simpl; lia|]. split; [|done].
  unfold segments.
  rewrite segments_from_capture, Hcap, segments_from_capture, Hidle.
  done.
Qed.

Lemma scenario_one_segment_witness :
  exists seg idle,
    capture_loop Samples.sqrt_sample Samples.log10_sample Samples.vad_sample
                 ENERGY_THRESHOLD_DBFS 50 10 500 init Samples.scenario_stream
    = inr (seg, SilenceTimeout, drop 90 Samples.scenario_stream)
    /\ speech_buf seg = take 70 (drop 20 Samples.scenario_stream)
    /\ pcm_of seg = concat (take 70 (drop 20 Samples.scenario_stream))
    /\ speech_count seg = 20
    /\ segments Samples.sqrt_sample Samples.log10_sample Samples.vad_sample
                ENERGY_THRESHOLD_DBFS 50 10 500 Samples.scenario_stream
       = [(seg, SilenceTimeout)]
    /\ capture_loop Samples.sqrt_sample Samples.log10_sample
                    Samples.vad_sample ENERGY_THRESHOLD_DBFS 50 10 500 init
                    (drop 90 Samples.scenario_stream)
       = inl idle
    /\ recording idle = false
    /\ speech_buf idle = []
    /\ speech_count idle = 0
    /\ silent_count idle = 0.
Proof.
  apply (scenario_one_segment
           Samples.sqrt_sample Samples.log10_sample Samples.vad_sample
           ENERGY_THRESHOLD_DBFS 500
           (replicate 20 Samples.quiet_frame)
           (replicate 20 Samples.loud_frame)
           (replicate 55 Samples.quiet_frame)).
  - reflexivity.
  - reflexivity.
  - reflexivity.
  - apply Forall_replicate. vm_compute. reflexivity.
  - apply Forall_replicate. vm_compute. reflexivity.
  - apply Forall_replicate. vm_compute. reflexivity.
  - lia.
Defined.

(** The same stream under the frame counts of [capture_speech] itself
    (a speech minimum of 15 frames) gives the same segment. *)
Example scenario_default_counts :
  silence_frames_default = 50 /\ min_speech_frames_default = 15
  /\ max_frames_default = 500
  /\ Samples.segments Samples.scenario_stream
     = [(Samples.scenario_segment, SilenceTimeout)]
  /\ Samples.capture_loop init Samples.scenario_stream
     = inr (Samples.scenario_segment, SilenceTimeout,
            replicate 5 Samples.quiet_frame).
Proof. vm_compute. repeat split. Qed.

Lemma segments_meet_minimum_witness :
  In (Samples.scenario_segment, SilenceTimeout)
     (Samples.segments Samples.scenario_stream)
  /\ (SilenceTimeout = SilenceTimeout ->
      min_speech_frames_default <= speech_count Samples.scenario_segment)
  /\ 1 <= speech_count Samples.scenario_segment
  /\ (speech_count Samples.scenario_segment < min_speech_frames_default ->
      SilenceTimeout = MaxDuration).
Proof.
  assert (H : In (Samples.scenario_segment, SilenceTimeout)
                 (Samples.segments Samples.scenario_stream)).
  { destruct scenario_default_counts as (_ & _ & _ & Hs & _).
    rewrite Hs. left. reflexivity. }
  split; [exact H|].
  exact (segments_meet_minimum
           Samples.sqrt_sample Samples.log10_sample Samples.vad_sample
           ENERGY_THRESHOLD_DBFS silence_frames_default
           min_speech_frames_default max_frames_default
           Samples.scenario_stream Samples.scenario_segment SilenceTimeout
           H).
Defined.

End AudioFacts.

(* ----------------------------------------------------------------- *)
(** ** The energy gate and the stop-word listener *)

Module BargeInFacts.
Import Notions.

(** The listener hands every frame to the VAD. *)
Lemma listen_step_consults_vad vad_is_speech whisper_transcribe st frame :
  BargeIn.vad_calls
    (listen_state (BargeIn.step vad_is_speech whisper_transcribe st frame))
  = BargeIn.vad_calls st ++ [frame].
Proof.
  unfold BargeIn.step.
  destruct (vad_is_speech frame); [done|].
  destruct (0 <? BargeIn.speech_count st); [|done].
  destruct (_ && _); [|done].
  destruct (whisper_transcribe _) as [result|]; [|done].
  by destruct (existsb _ _).
Qed.

(** A frame the VAD calls speech is counted as speech. *)
Lemma listen_step_speech vad_is_speech whisper_transcribe st frame :
  vad_is_speech frame = true ->
  BargeIn.step vad_is_speech whisper_transcribe st frame
  = BargeIn.Continue
      (BargeIn.mk_state (BargeIn.speech_frames st ++ [frame])
                        (S (BargeIn.speech_count st)) 0
                        (BargeIn.vad_calls st ++ [frame])).
Proof. intros H. unfold BargeIn.step. by rewrite H. Qed.

(** A frame the VAD does not call speech is not counted. *)
Lemma listen_step_nonspeech vad_is_speech whisper_transcribe st frame :
  vad_is_speech frame = false ->
  BargeIn.speech_count
    (listen_state (BargeIn.step vad_is_speech whisper_transcribe st frame))
  <= BargeIn.speech_count st.
Proof.
  intros H. unfold BargeIn.step. rewrite H.
  destruct (0 <? BargeIn.speech_count st); [|done].
  destruct (_ && _); [|done].
  destruct (whisper_transcribe _) as [result|]; [|simpl; lia].
  destruct (existsb _ _); simpl; lia.
Qed.

(** In the segmenter a frame below the threshold goes the non-speech
    way, and the VAD is not asked. *)
Lemma capture_step_gated np_sqrt np_log10 vad_is_speech energy_threshold
      silence_frames min_speech_frames max_frames st frame :
  Audio.Qlt_bool (Audio.energy_dbfs np_sqrt np_log10 frame) energy_threshold
  = true ->
  Audio.step np_sqrt np_log10 vad_is_speech energy_threshold
             silence_frames min_speech_frames max_frames st frame
  = (if Audio.recording st
     then Audio.on_silence silence_frames min_speech_frames st frame
     else Audio.Continue st)
  /\ Audio.vad_calls
       (capture_state
          (Audio.step np_sqrt np_log10 vad_is_speech energy_threshold
                      silence_frames min_speech_frames max_frames st frame))
     = Audio.vad_calls st.
Proof.
  intros H. unfold Audio.step. rewrite H. split; [done|].
  destruct (Audio.recording st); [|done].
  unfold Audio.on_silence.
  destruct (silence_frames <=? _); [|done].
  by destruct (min_speech_frames <=? _).
Qed.

(** C5, as stated, fails.  A silent frame is far below the threshold,
    and the listener still hands it to the VAD; with a VAD that answers
    yes it is counted as speech.  The segmenter, on the same frame, leaves
    the VAD alone. *)
Lemma listen_step_not_gated :
  Audio.Qlt_bool (Samples.energy Samples.quiet_frame)
                 Audio.ENERGY_THRESHOLD_DBFS = true
  /\ BargeIn.vad_calls
       (listen_state (BargeIn.step Samples.vad_sample Samples.whisper_silent
                                   BargeIn.init Samples.quiet_frame))
     = [Samples.quiet_frame]
  /\ BargeIn.step Samples.vad_always Samples.whisper_silent
                  BargeIn.init Samples.quiet_frame
     = BargeIn.Continue
         (BargeIn.mk_state [Samples.quiet_frame] 1 0 [Samples.quiet_frame])
  /\ Audio.step Samples.sqrt_sample Samples.log10_sample Samples.vad_always
                Audio.ENERGY_THRESHOLD_DBFS Audio.silence_frames_default
                Audio.min_speech_frames_default Audio.max_frames_default
                Audio.init Samples.quiet_frame
     = Audio.Continue Audio.init.
Proof. vm_compute. repeat split. Qed.

(** C5, amended.  The energy gate is in the segmenter alone: there a
    frame whose energy is below the threshold is handled as non-speech
    and the VAD is not consulted.  The stop-word listener has no gate: it
    consults the VAD on every frame, whatever its energy, and counts the
    frame as speech exactly when the VAD says so. *)
Theorem energy_gate_in_segmenter_only
        (np_sqrt np_log10 : Q -> Q) (vad_is_speech : Audio.Frame -> bool)
        (whisper_transcribe : list Q -> option Stt.result)
        (energy_threshold : Q)
        (silence_frames min_speech_frames max_frames : nat)
        (st : Audio.state) (listening : BargeIn.state)
        (frame : Audio.Frame) :
  Audio.Qlt_bool (Audio.energy_dbfs np_sqrt np_log10 frame) energy_threshold
  = true ->
  (Audio.step np_sqrt np_log10 vad_is_speech energy_threshold
              silence_frames min_speech_frames max_frames st frame
   = (if Audio.recording st
      then Audio.on_silence silence_frames min_speech_frames st frame
      else Audio.Continue st)
   /\ Audio.vad_calls
        (capture_state
           (Audio.step np_sqrt np_log10 vad_is_speech energy_threshold
                       silence_frames min_speech_frames max_frames st frame))
      = Audio.vad_calls st)
  /\ BargeIn.vad_calls
       (listen_state
          (BargeIn.step vad_is_speech whisper_transcribe listening frame))
     = BargeIn.vad_calls listening ++ [frame]
  /\ (if vad_is_speech frame
      then BargeIn.step vad_is_speech whisper_transcribe listening frame
           = BargeIn.Continue
               (BargeIn.mk_state
                  (BargeIn.speech_frames listening ++ [frame])
                  (S (BargeIn.speech_count listening)) 0
                  (BargeIn.vad_calls listening ++ [frame]))
      else BargeIn.speech_count
             (listen_state
                (BargeIn.step vad_is_speech whisper_transcribe listening
                              frame))
           <= BargeIn.speech_count listening).
Proof.
  intros Hquiet. split; [by apply capture_step_gated|].
  split; [apply listen_step_consults_vad|].
  destruct (vad_is_speech frame) eqn:Ev.
  - by apply listen_step_speech.
  - by apply listen_step_nonspeech.
Qed.

Lemma energy_gate_in_segmenter_only_witness :
  (Audio.step Samples.sqrt_sample Samples.log10_sample Samples.vad_always
              Audio.ENERGY_THRESHOLD_DBFS 50 15 500
              Samples.scenario_segment Samples.quiet_frame
   = (if Audio.recording Samples.scenario_segment
      then Audio.on_silence 50 15 Samples.scenario_segment
                            Samples.quiet_frame
      else Audio.Continue Samples.scenario_segment)
   /\ Audio.vad_calls
        (capture_state
           (Audio.step Samples.sqrt_sample Samples.log10_sample
                       Samples.vad_always Audio.ENERGY_THRESHOLD_DBFS
                       50 15 500 Samples.scenario_segment
                       Samples.quiet_frame))
      = Audio.vad_calls Samples.scenario_segment)
  /\ BargeIn.vad_calls
       (listen_state
          (BargeIn.step Samples.vad_always Samples.whisper_silent
                        BargeIn.init Samples.quiet_frame))
     = BargeIn.vad_calls BargeIn.init ++ [Samples.quiet_frame]
  /\ (if Samples.vad_always Samples.quiet_frame
      then BargeIn.step Samples.vad_always Samples.whisper_silent
                        BargeIn.init Samples.quiet_frame
           = BargeIn.Continue
               (BargeIn.mk_state
                  (BargeIn.speech_frames BargeIn.init
                   ++ [Samples.quiet_frame])
                  (S (BargeIn.speech_count BargeIn.init)) 0
                  (BargeIn.vad_calls BargeIn.init ++ [Samples.quiet_frame]))
      else BargeIn.speech_count
             (listen_state
                (BargeIn.step Samples.vad_always Samples.whisper_silent
                              BargeIn.init Samples.quiet_frame))
           <= BargeIn.speech_count BargeIn.init).
Proof.
  apply (energy_gate_in_segmenter_only
           Samples.sqrt_sample Samples.log10_sample Samples.vad_always
           Samples.whisper_silent Audio.ENERGY_THRESHOLD_DBFS 50 15 500
           Samples.scenario_segment BargeIn.init Samples.quiet_frame).
  vm_compute. reflexivity.
Defined.

End BargeInFacts.

(* ----------------------------------------------------------------- *)
(** ** The LLM call and the turn around it *)

Module LlmFacts.
Import Py.

(** C8, as stated, fails.  A command that prints on its standard output
    and exits with status 1 has failed, and [run_llm] returns what it
    printed; the turn goes on to speak it. *)
Lemma run_llm_failed_exit_is_spoken :
  Llm.failed (Samples.llm_exits_1
                (split Samples.llm_cmd ++ [txt "what's the weather"]))
  /\ Llm.run_llm Samples.llm_exits_1 Samples.llm_cmd
                 (txt "what's the weather")
     = txt "Error: no API key"
  /\ Pipeline.turn Samples.whisper_weather Samples.llm_exits_1
                   [Samples.hey_pal] Samples.llm_cmd []
     = ([Pipeline.Query (txt "what's the weather");
         Pipeline.TypingStart;
         Pipeline.CallLlm (txt "what's the weather");
         Pipeline.TypingStop;
         Pipeline.Answer (txt "Error: no API key");
         Pipeline.Speak (txt "Error: no API key")], false).
Proof. split; [discriminate|]. vm_compute. repeat split. Qed.

Lemma turn_calls_llm whisper_transcribe subprocess_run wake_words llm_cmd
      pcm query :
  In (Pipeline.CallLlm query)
     (fst (Pipeline.turn whisper_transcribe subprocess_run wake_words
                         llm_cmd pcm)) ->
  Pipeline.turn whisper_transcribe subprocess_run wake_words llm_cmd pcm
  = (Pipeline.Query query :: Pipeline.TypingStart
       :: Pipeline.CallLlm query :: Pipeline.TypingStop
       :: fst (Pipeline.after_llm
                 (Llm.run_llm subprocess_run llm_cmd query)),
     false).
Proof.
  unfold Pipeline.turn.
  destruct (Stt.text_of _) as [|c heard]; [intros []|].
  destruct (negb _); [intros []|].
  destruct (Wake.strip_wake _ _) as [|d q]; [intros []|].
  unfold Pipeline.after_llm.
  destruct (Llm.run_llm subprocess_run llm_cmd (d :: q))
    as [|e response] eqn:Er; simpl.
  - intros [H|[H|[H|[H|[H|[]]]]]]; try discriminate H.
    injection H as <-. by rewrite Er.
  - intros [H|[H|[H|[H|[H|[H|[]]]]]]]; try discriminate H.
    injection H as <-. by rewrite Er.
Qed.

(** C8, amended.  [run_llm] returns the empty string whenever
    [subprocess.run] raises: the timeout expires, or the command cannot
    be run.  A process that runs to its end gives its stripped standard
    output whatever its exit status.  An empty response makes the turn
    report no response, speak nothing and end with [busy] false, which
    is the listening state. *)
Theorem run_llm_empty_when_raised
        (whisper_transcribe : list Q -> Stt.result)
        (subprocess_run : list text -> Llm.run_result)
        (wake_words : list text) (llm_cmd : text)
        (pcm : list Z) (query : text) :
  In (Pipeline.CallLlm query)
     (fst (Pipeline.turn whisper_transcribe subprocess_run wake_words
                         llm_cmd pcm)) ->
  Llm.raised (subprocess_run (split llm_cmd ++ [query])) ->
  Llm.run_llm subprocess_run llm_cmd query = []
  /\ Pipeline.turn whisper_transcribe subprocess_run wake_words llm_cmd pcm
     = ([Pipeline.Query query; Pipeline.TypingStart;
         Pipeline.CallLlm query; Pipeline.TypingStop;
         Pipeline.NoResponse], false)
  /\ Pipeline.after_llm [] = ([Pipeline.NoResponse], false)
  /\ (forall returncode stdout,
        Llm.run_llm (fun _ => Llm.Completed returncode stdout) llm_cmd query
        = strip stdout).
Proof.
  intros Hcall Hraised.
  assert (Hempty : Llm.run_llm subprocess_run llm_cmd query = []).
  { unfold Llm.run_llm.
    by destruct (subprocess_run _) as [rc out| |]. }
  split; [done|]. split; [|done].
  rewrite (turn_calls_llm _ _ _ _ _ _ Hcall), Hempty. done.
Qed.

Lemma run_llm_empty_when_raised_witness :
  Llm.run_llm Samples.llm_times_out Samples.llm_cmd
              (txt "what's the weather") = []
  /\ Pipeline.turn Samples.whisper_weather Samples.llm_times_out
                   [Samples.hey_pal] Samples.llm_cmd []
     = ([Pipeline.Query (txt "what's the weather"); Pipeline.TypingStart;
         Pipeline.CallLlm (txt "what's the weather"); Pipeline.TypingStop;
         Pipeline.NoResponse], false)
  /\ Pipeline.after_llm [] = ([Pipeline.NoResponse], false)
  /\ (forall returncode stdout,
        Llm.run_llm (fun _ => Llm.Completed returncode stdout)
                    Samples.llm_cmd (txt "what's the weather")
        = strip stdout).
Proof.
  apply (run_llm_empty_when_raised
           Samples.whisper_weather Samples.llm_times_out
           [Samples.hey_pal] Samples.llm_cmd [] (txt "what's the weather")).
  - vm_compute. auto.
  - vm_compute. exact I.
Defined.

End LlmFacts.

(* ----------------------------------------------------------------- *)
(** ** The [/transcribe] endpoint *)

Module SttServerFacts.
Import SttServer.

(** A buffer of [n] whole samples decodes to [n] samples. *)
Lemma frombuffer_whole (n : nat) (body : list Byte.byte) :
  length body = 2 * n ->
  exists pcm16, frombuffer_int16 body = Some pcm16 /\ length pcm16 = n.
Proof.
  revert body. induction n as [|n IH]; intros body Hlen.
  - destruct body; [|discriminate]. by exists [].
  - destruct body as [|lo [|hi rest]]; [discriminate|simpl in Hlen; lia|].
    destruct (IH rest) as (pcm & Hpcm & Hn); [simpl in Hlen; lia|].
    exists (int16_le lo hi :: pcm). cbn [frombuffer_int16].
    rewrite Hpcm. split; [done|]. simpl. by rewrite Hn.
Qed.

(** A buffer with a byte left over does not decode. *)
Lemma frombuffer_odd (n : nat) (body : list Byte.byte) :
  length body = S (2 * n) -> frombuffer_int16 body = None.
Proof.
  revert body. induction n as [|n IH]; intros body Hlen.
  - destruct body as [|b [|]]; try discriminate. done.
  - destruct body as [|lo [|hi rest]]; [discriminate|simpl in Hlen; lia|].
    cbn [frombuffer_int16]. rewrite (IH rest); [done|].
    simpl in Hlen. lia.
Qed.

(** C9, as stated, fails.  A body of one byte is not empty, and the
    handler does not reach the model: [np.frombuffer] raises on it. *)
Lemma transcribe_one_byte :
  Samples.body_one_byte <> []
  /\ forall whisper_transcribe elapsed_ms,
      transcribe whisper_transcribe elapsed_ms Samples.body_one_byte
      = (Failed, []).
Proof. split; [discriminate|]. reflexivity. Qed.

(** C9, amended.  On an empty body the handler returns an empty text and
    a duration of 0 without invoking the model.  On a non-empty body of
    whole 16-bit samples (an even number of bytes) it invokes the model
    exactly once, on the little-endian int16 samples scaled by 1/32768,
    and returns the stripped text of its answer. *)
Theorem transcribe_invokes_model_once
        (whisper_transcribe : list Q -> option Stt.result)
        (elapsed_ms : Z) (body : list Byte.byte) (n : nat) :
  body <> [] -> length body = 2 * n ->
  transcribe whisper_transcribe elapsed_ms []
  = (Ok (mk_reply [] 0), [])
  /\ exists pcm16,
      frombuffer_int16 body = Some pcm16
      /\ length pcm16 = n
      /\ snd (transcribe whisper_transcribe elapsed_ms body)
         = [Stt.to_float32 pcm16]
      /\ forall result,
          whisper_transcribe (Stt.to_float32 pcm16) = Some result ->
          fst (transcribe whisper_transcribe elapsed_ms body)
          = Ok (mk_reply (Stt.text_of result) elapsed_ms).
Proof.
  intros Hne Hlen. split; [done|].
  destruct (frombuffer_whole n body Hlen) as (pcm16 & Hpcm & Hn).
  exists pcm16. split; [done|]. split; [done|].
  unfold transcribe. destruct body as [|b body']; [done|].
  rewrite Hpcm.
  destruct (whisper_transcribe (Stt.to_float32 pcm16)) as [result|].
  - split; [done|]. by intros ? [= <-].
  - split; [done|]. intros ? [=].
Qed.

Lemma transcribe_invokes_model_once_witness :
  frombuffer_int16 Samples.body_two_samples = Some [1%Z; (-2)%Z]
  /\ transcribe Samples.whisper_silent 7 []
     = (Ok (mk_reply [] 0), [])
  /\ exists pcm16,
      frombuffer_int16 Samples.body_two_samples = Some pcm16
      /\ length pcm16 = 2
      /\ snd (transcribe Samples.whisper_silent 7 Samples.body_two_samples)
         = [Stt.to_float32 pcm16]
      /\ forall result,
          Samples.whisper_silent (Stt.to_float32 pcm16) = Some result ->
          fst (transcribe Samples.whisper_silent 7 Samples.body_two_samples)
          = Ok (mk_reply (Stt.text_of result) 7).
Proof.
  split; [reflexivity|].
  apply (transcribe_invokes_model_once
           Samples.whisper_silent 7 Samples.body_two_samples 2).
  - discriminate.
  - reflexivity.
Defined.

End SttServerFacts.

(* ----------------------------------------------------------------- *)
(** ** Facts about the string operations on code points *)

Module UniFacts.
Import Uni.

Lemma uni_drop_while_suffix p (s : utext) : drop_while p s `suffix_of` s.
Proof.
  induction s as [|c s IH]; simpl; [done|].
  destruct (p c); [by apply suffix_cons_r | done].
Qed.

Lemma uni_drop_while_head p (s : utext) c r :
  drop_while p s = c :: r -> p c = false.
Proof.
  induction s as [|d s IH]; simpl; [done|].
  destruct (p d) eqn:E; [done|]. intros [= -> _]. done.
Qed.

Lemma uni_take_drop_while p (s : utext) :
  take_while p s ++ drop_while p s = s.
Proof.
  induction s as [|c s IH]; simpl; [done|].
  destruct (p c); simpl; [by rewrite IH | done].
Qed.

Lemma uni_drop_while_snoc p (s : utext) c :
  p c = false -> drop_while p (s ++ [c]) = drop_while p s ++ [c].
Proof.
  intros Hc. induction s as [|d s IH]; simpl.
  - by rewrite Hc.
  - destruct (p d); [done | done].
Qed.

Lemma uni_drop_while_sublist p (s : utext) : drop_while p s `sublist_of` s.
Proof.
  induction s as [|c s IH]; simpl; [done|].
  destruct (p c); [by constructor | done].
Qed.

Lemma uni_rstrip_head (a : N) (r : utext) :
  is_space a = false -> rstrip (a :: r) = a :: rstrip r.
Proof.
  intros Ha. unfold rstrip. cbn [rev].
  rewrite uni_drop_while_snoc by done. by rewrite rev_app_distr.
Qed.

Lemma uni_rstrip_shape (r : utext) :
  rstrip r = [] \/ exists y b, rstrip r = y ++ [b] /\ is_space b = false.
Proof.
  unfold rstrip.
  destruct (drop_while is_space (rev r)) as [|b w] eqn:E; [by left|].
  right. exists (rev w), b. split; [done|].
  by apply (uni_drop_while_head _ _ _ _ E).
Qed.

(** A stripped text is empty, or starts and ends with a character that
    is not a space. *)
Lemma uni_strip_shape (s : utext) :
  strip s = []
  \/ exists a, is_space a = false
       /\ (strip s = [a]
           \/ exists y b, strip s = a :: y ++ [b] /\ is_space b = false).
Proof.
  unfold strip, lstrip.
  destruct (drop_while is_space s) as [|a r] eqn:E; [by left|].
  right. exists a.
  assert (Ha : is_space a = false) by apply (uni_drop_while_head _ _ _ _ E).
  split; [done|]. rewrite uni_rstrip_head by done.
  destruct (uni_rstrip_shape r) as [->|(y & b & -> & Hb)]; [by left|].
  right. by exists y, b.
Qed.

Lemma uni_strip_sublist (s : utext) : strip s `sublist_of` s.
Proof.
  unfold strip, rstrip, lstrip.
  etrans; [|apply uni_drop_while_sublist].
  rewrite <- (rev_involutive (drop_while is_space s)) at 2.
  apply PyFacts.sublist_rev, uni_drop_while_sublist.
Qed.

Lemma uni_lstrip_fixed (a : N) (r : utext) :
  is_space a = false -> lstrip (a :: r) = a :: r.
Proof. intros Ha. unfold lstrip. simpl. by rewrite Ha. Qed.

Lemma uni_rstrip_snoc (y : utext) (b : N) :
  is_space b = false -> rstrip (y ++ [b]) = y ++ [b].
Proof.
  intros Hb. unfold rstrip. rewrite rev_app_distr. simpl.
  rewrite Hb. simpl. by rewrite rev_involutive.
Qed.

Lemma uni_strip_idem (s : utext) : strip (strip s) = strip s.
Proof.
  destruct (uni_strip_shape s)
    as [->|(a & Ha & [->|(y & b & -> & Hb)])]; [done| |].
  - unfold strip. rewrite uni_lstrip_fixed by done.
    exact (uni_rstrip_snoc [] a Ha).
  - unfold strip. rewrite uni_lstrip_fixed by done.
    exact (uni_rstrip_snoc (a :: y) b Hb).
Qed.

Lemma Forall_of_sublist {A} (P : A -> Prop) (s1 s2 : list A) :
  s1 `sublist_of` s2 -> Forall P s2 -> Forall P s1.
Proof.
  induction 1 as [|x l1 l2 _ IH|x l1 l2 _ IH]; [done| |].
  - intros [? ?]%Forall_cons. constructor; auto.
  - intros [? ?]%Forall_cons. auto.
Qed.

Lemma uni_strip_sub (P : N -> Prop) (s : utext) :
  Forall P s -> Forall P (strip s).
Proof. apply Forall_of_sublist, uni_strip_sublist. Qed.

End UniFacts.

(* ----------------------------------------------------------------- *)
(** ** Sentence chunking *)

Module ChunkingFacts.
Import Uni Chunking Notions UniFacts.

(** *** Every chunk is long enough *)

Lemma collapse_ws_snoc (y : utext) (b : N) :
  is_space b = false ->
  1 <= length (collapse_ws (y ++ [b]))
  /\ (y <> [] -> 2 <= length (collapse_ws (y ++ [b]))).
Proof.
  intros Hb. induction y as [|c y [IH1 IH2]].
  - simpl. rewrite Hb. simpl. split; [lia|done].
  - split; [|intros _]; cbn [app collapse_ws];
      destruct (is_space c);
      destruct (y ++ [b]) as [|d rest] eqn:E;
      try (destruct y; discriminate);
      try (cbn [length]; lia).
    + destruct (is_space d); cbn [length]; lia.
    + destruct (is_space d) eqn:Ed; [|cbn [length]; lia].
      apply IH2. intros ->. simpl in E. injection E as -> _. congruence.
Qed.

Lemma collapse_ws_stripped (s : utext) :
  3 <= length (strip s) -> 3 <= length (collapse_ws (strip s)).
Proof.
  destruct (uni_strip_shape s) as [->|(a & Ha & [->|(y & b & -> & Hb)])];
    [simpl; lia | simpl; lia |].
  intros Hlen. cbn [collapse_ws]. rewrite Ha.
  assert (y <> []).
  { intros ->. simpl in Hlen. lia. }
  destruct (collapse_ws_snoc y b Hb) as [_ H2].
  cbn [length]. specialize (H2 H). lia.
Qed.

Lemma split_chunk_long (chunk c : utext) :
  In c (split_chunk chunk) -> 3 <= length (collapse_ws c).
Proof.
  unfold split_chunk. intros [Hin Hlen]%filter_In.
  apply in_map_iff in Hin as (p & <- & _).
  apply Nat.leb_le in Hlen. by apply collapse_ws_stripped.
Qed.

(** *** The chunks come in the order of the source *)

Lemma filter_sublist (p : N -> bool) (s : utext) :
  List.filter p s `sublist_of` s.
Proof.
  induction s as [|c s IH]; simpl; [done|].
  destruct (p c); by constructor.
Qed.

Lemma visible_sublist (s1 s2 : utext) :
  s1 `sublist_of` s2 -> visible s1 `sublist_of` visible s2.
Proof.
  unfold visible.
  induction 1 as [|x l1 l2 _ IH|x l1 l2 _ IH]; simpl; [done| |].
  - destruct (negb (is_space x)); [by constructor | done].
  - destruct (negb (is_space x)); [by constructor | done].
Qed.

Lemma visible_app (s1 s2 : utext) :
  visible (s1 ++ s2) = visible s1 ++ visible s2.
Proof. apply List.filter_app. Qed.

Lemma visible_collapse_ws (s : utext) : visible (collapse_ws s) = visible s.
Proof.
  unfold visible. induction s as [|c s IH]; [done|].
  cbn [collapse_ws List.filter].
  destruct (is_space c) eqn:Ec; cbn [negb].
  - destruct s as [|d s']; [done|].
    destruct (is_space d); [exact IH|].
    cbn [List.filter]. exact IH.
  - cbn [List.filter]. rewrite Ec. cbn [negb]. by rewrite IH.
Qed.

Lemma visible_join (parts : list utext) :
  visible (join [space] parts) = visible (concat parts).
Proof.
  induction parts as [|p ps IH]; [done|].
  destruct ps as [|q ps].
  - simpl. by rewrite app_nil_r.
  - change (join [space] (p :: q :: ps))
      with (p ++ [space] ++ join [space] (q :: ps)).
    cbn [concat]. rewrite !visible_app, IH.
    cbn [concat]. by rewrite visible_app.
Qed.

Lemma drop_double_star_two (c c' : N) (s : utext) :
  drop_double_star (c :: c' :: s) =
  if is_star c && is_star c' then drop_double_star s
  else c :: drop_double_star (c' :: s).
Proof. reflexivity. Qed.

Lemma drop_double_star_sublist (s : utext) :
  drop_double_star s `sublist_of` s.
Proof.
  assert (H : forall n (u : utext),
             length u <= n -> drop_double_star u `sublist_of` u).
  { induction n as [|n IH]; intros u Hlen.
    - destruct u; [done | simpl in Hlen; lia].
    - destruct u as [|c [|c' u']]; [done|done|].
      rewrite drop_double_star_two.
      destruct (is_star c && is_star c').
      + do 2 apply sublist_cons. apply IH. simpl in *. lia.
      + apply sublist_skip. apply IH. simpl in *. lia. }
  by apply (H (length s)).
Qed.

Lemma drop_code_spans_sublist (inside : bool) (s : utext) :
  drop_code_spans inside s `sublist_of` s.
Proof.
  revert inside. induction s as [|c s IH]; intros inside; [done|].
  cbn [drop_code_spans].
  destruct inside; [destruct (is_backtick c); by constructor|].
  destruct (is_backtick c); [|by constructor].
  destruct (existsb is_backtick s); by constructor.
Qed.

Lemma drop_urls_sublist (in_url : bool) (s : utext) :
  drop_urls in_url s `sublist_of` s.
Proof.
  revert in_url. induction s as [|c s IH]; intros in_url; [done|].
  cbn [drop_urls].
  destruct in_url; [destruct (is_space c); by constructor|].
  destruct (url_at (c :: s)); by constructor.
Qed.

Lemma strip_markdown_sublist (t : utext) : strip_markdown t `sublist_of` t.
Proof.
  unfold strip_markdown, drop_char.
  etrans; [apply drop_urls_sublist|].
  etrans; [apply filter_sublist|].
  etrans; [apply drop_code_spans_sublist|].
  etrans; [apply filter_sublist|].
  apply drop_double_star_sublist.
Qed.

Lemma split_on_sublist (sep : N) (s : utext) :
  concat (split_on sep s) `sublist_of` s.
Proof.
  induction s as [|c s IH]; [done|].
  cbn [split_on].
  destruct (c =? sep)%N; [cbn [concat app]; by constructor|].
  destruct (split_on sep s) as [|t ts]; [by constructor|].
  cbn [concat app] in *. by constructor.
Qed.

Lemma concat_cons_head (c : N) (parts : list utext) :
  concat (cons_head c parts) = c :: concat parts.
Proof. by destruct parts. Qed.

Lemma re_split_sentences_sublist (after_end skipping : bool) (s : utext) :
  concat (re_split_sentences after_end skipping s) `sublist_of` s.
Proof.
  revert after_end skipping.
  induction s as [|c s IH]; intros after_end skipping; [done|].
  cbn [re_split_sentences].
  destruct (is_space c).
  - destruct skipping; [by constructor|].
    destruct (after_end && capital_follows (c :: s));
      [cbn [concat app]; by constructor|].
    rewrite concat_cons_head. by constructor.
  - rewrite concat_cons_head. by constructor.
Qed.

Lemma concat_map_strip_sublist (parts : list utext) :
  concat (map strip parts) `sublist_of` concat parts.
Proof.
  induction parts as [|p ps IH]; [done|].
  simpl. apply sublist_app; [apply uni_strip_sublist | done].
Qed.

Lemma concat_filter_sublist (p : utext -> bool) (parts : list utext) :
  concat (List.filter p parts) `sublist_of` concat parts.
Proof.
  induction parts as [|q qs IH]; [done|].
  simpl. destruct (p q); simpl.
  - by apply sublist_app.
  - by apply sublist_inserts_l.
Qed.

Lemma split_chunk_sublist (chunk : utext) :
  concat (split_chunk chunk) `sublist_of` chunk.
Proof.
  unfold split_chunk.
  etrans; [apply concat_filter_sublist|].
  etrans; [apply concat_map_strip_sublist|].
  apply re_split_sentences_sublist.
Qed.

Lemma flat_map_split_chunk_sublist (chunks : list utext) :
  concat (flat_map split_chunk chunks) `sublist_of` concat chunks.
Proof.
  induction chunks as [|chunk chunks IH]; [done|].
  cbn [flat_map concat]. rewrite concat_app.
  apply sublist_app; [apply split_chunk_sublist | done].
Qed.

Lemma flush_visible (chunks buf : list utext) :
  visible (concat (flush chunks buf))
  `sublist_of` visible (concat chunks) ++ visible (concat buf).
Proof.
  unfold flush. destruct (3 <=? _).
  - rewrite concat_app, visible_app. cbn [concat]. rewrite app_nil_r.
    apply sublist_app; [done|].
    rewrite visible_collapse_ws, <- visible_join.
    apply visible_sublist, uni_strip_sublist.
  - by apply sublist_inserts_r.
Qed.

Lemma append_if_long_visible (chunks : list utext) (x line : utext) :
  x `sublist_of` line ->
  visible (concat (append_if_long chunks x))
  `sublist_of` visible (concat chunks) ++ visible line.
Proof.
  intros Hx. unfold append_if_long. destruct (3 <=? _).
  - rewrite concat_app, visible_app. cbn [concat]. rewrite app_nil_r.
    apply sublist_app; [done|]. by apply visible_sublist.
  - by apply sublist_inserts_r.
Qed.

Lemma tl_sublist (s : utext) : tl s `sublist_of` s.
Proof. destruct s; [done | by constructor]. Qed.

(** A heading, bullet or numbered line: the buffer is flushed and the
    item, which is a part of the line, may follow it. *)
Lemma flush_item_visible (chunks buf : list utext) (item line : utext) :
  item `sublist_of` line ->
  visible (concat (append_if_long (flush chunks buf) item))
  ++ visible (concat [])
  `sublist_of`
  visible (concat chunks) ++ visible (concat buf) ++ visible line.
Proof.
  intros Hitem. cbn [concat]. rewrite app_nil_r.
  etrans; [by apply (append_if_long_visible _ item line)|].
  rewrite (assoc_L (++)).
  apply sublist_app; [apply flush_visible | done].
Qed.

Lemma numbered_rest_suffix (is_decimal : N -> bool) (seen : bool)
      (s r : utext) :
  numbered_rest is_decimal seen s = Some r -> r `suffix_of` s.
Proof.
  revert seen r. induction s as [|c s IH]; intros seen r; [done|].
  cbn [numbered_rest].
  destruct (if is_decimal c then numbered_rest is_decimal true s else None)
    as [r'|] eqn:E.
  - intros [= <-]. apply suffix_cons_r.
    destruct (is_decimal c); [by apply (IH true) | done].
  - destruct (seen && closes_number c); [|done].
    destruct s as [|d s']; [done|].
    destruct (is_space d); [|done].
    intros [= <-]. apply suffix_cons_r.
    apply (uni_drop_while_suffix is_space (d :: s')).
Qed.

Lemma drop_numbering_sublist (is_decimal : N -> bool) (s : utext) :
  drop_numbering is_decimal s `sublist_of` s.
Proof.
  unfold drop_numbering.
  destruct (numbered_rest is_decimal false s) as [r|] eqn:E; [|done].
  destruct (numbered_rest_suffix is_decimal false s r E) as [k ->].
  by apply sublist_inserts_l.
Qed.

Lemma chunk_lines_visible (is_decimal : N -> bool)
      (lines chunks buf : list utext) :
  visible (concat (chunk_lines is_decimal lines chunks buf))
  `sublist_of`
  visible (concat chunks) ++ visible (concat buf)
  ++ visible (concat lines).
Proof.
  revert chunks buf. induction lines as [|line rest IH]; intros chunks buf.
  - cbn [chunk_lines concat]. rewrite app_nil_r. apply flush_visible.
  - assert (Hstep : forall chunks' buf',
               visible (concat chunks') ++ visible (concat buf')
               `sublist_of`
               visible (concat chunks) ++ visible (concat buf)
               ++ visible line ->
               visible (concat (chunk_lines is_decimal rest chunks' buf'))
               `sublist_of`
               visible (concat chunks) ++ visible (concat buf)
               ++ visible (concat (line :: rest))).
    { intros chunks' buf' H. etrans; [apply IH|].
      cbn [concat]. rewrite visible_app, !(assoc_L (++)).
      apply sublist_app; [|done]. by rewrite <- (assoc_L (++)). }
    cbn [chunk_lines].
    pose proof (uni_strip_sublist line) as Hstrip.
    destruct (strip line) as [|a stripped] eqn:E.
    + apply Hstep. cbn [concat]. rewrite app_nil_r.
      etrans; [apply flush_visible|].
      apply sublist_app; [done|]. by apply sublist_inserts_r.
    + destruct (is_heading (a :: stripped)).
      { apply Hstep, flush_item_visible.
        etrans; [apply uni_strip_sublist|].
        etrans; [apply uni_drop_while_sublist|].
        etrans; [apply uni_drop_while_sublist | done]. }
      destruct (is_bullet (a :: stripped)).
      { apply Hstep, flush_item_visible.
        etrans; [apply uni_strip_sublist|].
        etrans; [apply uni_drop_while_sublist|].
        etrans; [apply tl_sublist | done]. }
      destruct (is_numbered is_decimal (a :: stripped)).
      { apply Hstep, flush_item_visible.
        etrans; [apply uni_strip_sublist|].
        etrans; [apply drop_numbering_sublist | done]. }
      apply Hstep. rewrite concat_app, visible_app. cbn [concat].
      rewrite app_nil_r.
      apply sublist_app; [done|].
      apply sublist_app; [done|]. by apply visible_sublist.
Qed.

(** C7. Every chunk [split_sentences] gives has at least 3 characters
    once its whitespace runs are collapsed, and the chunks come in the
    order of the source: their visible characters, chunk after chunk,
    are characters of the input in the order the input has them. *)
Theorem split_sentences_chunks (is_decimal : N -> bool) (t : utext) :
  Forall (fun chunk => 3 <= length (collapse_ws chunk))
         (split_sentences is_decimal t)
  /\ visible (concat (split_sentences is_decimal t)) `sublist_of` t.
Proof.
  split.
  - apply List.Forall_forall. intros c Hin.
    unfold split_sentences in Hin.
    apply in_flat_map in Hin as (chunk & _ & Hc).
    by apply (split_chunk_long chunk).
  - unfold split_sentences.
    etrans; [apply visible_sublist, flat_map_split_chunk_sublist|].
    etrans; [apply chunk_lines_visible|].
    cbn [concat visible List.filter app].
    etrans; [apply filter_sublist|].
    etrans; [apply split_on_sublist|].
    apply strip_markdown_sublist.
Qed.

End ChunkingFacts.

(* ----------------------------------------------------------------- *)
(** ** Pipelined playback and its cancellation *)

Module PlayerFacts.
Import Uni Player Notions.

Lemma cancel_ok_nil : cancel_ok [].
Proof. intros [|e pre] post H; discriminate H. Qed.

Lemma cancel_ok_cons (e : event) (tr : list event) :
  e <> Poll true -> cancel_ok tr -> cancel_ok (e :: tr).
Proof.
  intros Hne Hok [|e' pre] post H.
  - injection H as -> _. congruence.
  - injection H as _ ->. by apply (Hok pre).
Qed.

Lemma cancel_ok_app (l tr : list event) :
  no_true_poll l -> cancel_ok tr -> cancel_ok (l ++ tr).
Proof.
  induction 1 as [|e l He _ IH]; intros Hok; [done|].
  apply cancel_ok_cons; auto.
Qed.

Lemma cancel_ok_stop : cancel_ok [Poll true; SdStop].
Proof.
  intros [|e [|e' [|e'' pre]]] post H; simplify_eq/=;
    unfold loop_tail; auto.
Qed.

Lemma cancel_ok_last : cancel_ok [Poll true].
Proof.
  intros [|e [|e' pre]] post H; simplify_eq/=;
    unfold loop_tail; auto.
Qed.

Lemma cancel_ok_cut : cancel_ok [Poll true; SdStop; Poll true].
Proof.
  intros [|e [|e' [|e'' [|e3 pre]]]] post H; simplify_eq/=;
    unfold loop_tail; auto.
Qed.

Section Speak.

Variable Wav : Type.
Variable generate_audio : utext -> synth_result Wav.
Variables stopped_at pressed_at : option nat.
Variable active_polls : nat -> nat.

Local Abbreviation should_stop :=
  (Player.should_stop stopped_at pressed_at).
Local Abbreviation play_poll :=
  (Player.play_poll stopped_at pressed_at).
Local Abbreviation play_loop :=
  (Player.play_loop Wav generate_audio stopped_at pressed_at active_polls).

(** A flag that is set stays set. *)
Lemma flag_set_mono (since : option nat) (now later : nat) :
  now <= later -> flag_set since now = true -> flag_set since later = true.
Proof.
  destruct since as [t|]; simpl; [|done].
  intros Hle H%Nat.leb_le. apply Nat.leb_le. lia.
Qed.

Lemma should_stop_mono (now later : nat) :
  now <= later -> should_stop now = true -> should_stop later = true.
Proof.
  unfold Player.should_stop.
  intros Hle [H|H]%orb_true_iff; apply orb_true_iff;
    eauto using flag_set_mono.
Qed.

(** The polling loop either never sees the flag, or ends on the read
    that sees it, after which the flag is still set. *)
Lemma play_poll_trace (polls now : nat) :
  no_true_poll (fst (play_poll polls now))
  \/ exists quiet,
      fst (play_poll polls now) = quiet ++ [Poll true; SdStop]
      /\ no_true_poll quiet
      /\ should_stop (snd (play_poll polls now)) = true.
Proof.
  revert now. induction polls as [|polls IH]; intros now.
  - left. constructor.
  - cbn [Player.play_poll].
   
    destruct (should_stop now) eqn:Es.
    + right. exists []. split; [done|]. split; [constructor|].
      cbn [snd]. apply (should_stop_mono now); [lia | done].
    + specialize (IH (S now)).
      destruct (play_poll polls (S now)) as [tr now'].
      cbn [fst snd] in *.
      destruct IH as [Hq|(quiet & -> & Hq & Hs)].
      * left. by repeat constructor.
      * right. exists (Poll false :: Sleep :: quiet).
        split; [done|]. split; [|done]. by repeat constructor.
Qed.

Lemma play_loop_cancel_ok (chunks : list utext) (i : nat)
      (wav next_wav : option Wav) (next_thread : option nat) (now : nat) :
  cancel_ok (play_loop i chunks wav next_wav next_thread now).
Proof.
  revert i wav next_wav next_thread now.
  induction chunks as [|chunk rest IH];
    intros i wav next_wav next_thread now; [apply cancel_ok_nil|].
  cbn [Player.play_loop].
 
  destruct (should_stop now); [apply cancel_ok_stop|].
  apply cancel_ok_cons; [done|].
  apply cancel_ok_app.
  { destruct (0 <? i); [|constructor].
    destruct next_thread; by repeat constructor. }
  apply cancel_ok_app.
  { destruct rest; by repeat constructor. }
  destruct (if 0 <? i then next_wav else wav) as [w|]; [|apply IH].
  pose proof (play_poll_trace (active_polls i) (S now)) as Hpoll.
  destruct (play_poll (active_polls i) (S now)) as [polled now'].
  cbn [fst snd] in Hpoll.
  apply cancel_ok_cons; [done|].
  destruct Hpoll as [Hq|(quiet & -> & Hq & Hs)].
  - apply cancel_ok_app; [done|].
    destruct (should_stop now'); [apply cancel_ok_last|].
    apply cancel_ok_cons; [done|].
    destruct rest as [|next_chunk rest']; [apply IH|].
    apply cancel_ok_cons; [done | apply IH].
  - rewrite Hs, <- app_assoc. apply cancel_ok_app; [done|].
    apply cancel_ok_cut.
Qed.

End Speak.

Lemma split_at_end (tr pre post : list event) (e x : event) :
  e <> x -> tr ++ [e] = pre ++ x :: post ->
  exists post', post = post' ++ [e] /\ tr = pre ++ x :: post'.
Proof.
  intros Hne. destruct post as [|p post _] using rev_ind; intros H.
  - apply app_inj_tail in H as [_ ->]. done.
  - change (pre ++ x :: post ++ [p]) with (pre ++ (x :: post) ++ [p]) in H.
    rewrite app_assoc in H.
    apply app_inj_tail in H as [-> ->]. by exists post.
Qed.

(** C6. Once a read of the cancellation flags (the stop-word flag or
    the Escape flag) has returned true, [speak_response] plays nothing
    more: the audio is stopped when the read is made at the top of the
    loop or while the chunk plays, no chunk is played, no thread is
    started or joined, so the synthesis in flight is never read, and the
    function returns, stopping the two listeners, without raising. *)
Theorem speak_response_cancelled
        (is_decimal : N -> bool)
        (Wav : Type) (generate_audio : utext -> synth_result Wav)
        (stopped_at pressed_at : option nat) (active_polls : nat -> nat)
        (response : utext) (pre post : list event) :
  fst (speak_response is_decimal Wav generate_audio stopped_at
                          pressed_at active_polls response)
  = pre ++ Poll true :: post ->
  after_cancel post
  /\ Forall (fun e => is_playback e = false) post
  /\ snd (speak_response is_decimal Wav generate_audio stopped_at
                          pressed_at active_polls response)
     = Returned.
Proof.
  unfold speak_response.
  destruct (Chunking.split_sentences is_decimal response) as [|first chunks].
  { destruct pre; discriminate. }
  assert (Hloop : forall wav,
             ListenersStart :: Synth 0
               :: play_loop Wav generate_audio stopped_at pressed_at
                    active_polls 0 (first :: chunks) wav None None 0
               ++ [ListenersStop]
             = pre ++ Poll true :: post ->
             after_cancel post
             /\ Forall (fun e => is_playback e = false) post).
  { intros wav.
    pose proof (play_loop_cancel_ok Wav generate_audio stopped_at pressed_at
                  active_polls (first :: chunks) 0 wav None None 0) as Hok.
    set (tr := play_loop Wav generate_audio stopped_at pressed_at
                 active_polls 0 (first :: chunks) wav None None 0) in *.
    clearbody tr. intros H.
    destruct pre as [|e [|e' pre]]; try discriminate H.
    injection H as _ _ H.
    apply split_at_end in H as (post' & -> & H); [|done].
    apply Hok in H.
    destruct H as [-> | [-> | ->]]; unfold after_cancel;
      (split; [auto | by repeat constructor]). }
  destruct (generate_audio first) as [w| |]; cbn [fst snd]; intros H.
  - apply Hloop in H as [? ?]. done.
  - apply Hloop in H as [? ?]. done.
  - destruct pre as [|e [|e' [|e'' [|e3 pre]]]]; discriminate H.
Qed.

Lemma speak_response_cancelled_witness :
  fst (speak_response Samples.decimal_sample utext Samples.tts_echo
                      (Some 2) None Samples.three_polls
                      Samples.three_sentences)
  = [ListenersStart; Synth 0; Poll false; Spawn 1; Play 0; Poll false;
     Sleep]
    ++ Poll true :: [SdStop; Poll true; ListenersStop]
  /\ after_cancel [SdStop; Poll true; ListenersStop]
  /\ Forall (fun e => is_playback e = false)
            [SdStop; Poll true; ListenersStop]
  /\ snd (speak_response Samples.decimal_sample utext Samples.tts_echo
                         (Some 2) None Samples.three_polls
                         Samples.three_sentences)
     = Returned.
Proof.
  split; [reflexivity|].
  apply (speak_response_cancelled
           Samples.decimal_sample utext Samples.tts_echo (Some 2) None
           Samples.three_polls Samples.three_sentences
           [ListenersStart; Synth 0; Poll false; Spawn 1; Play 0;
            Poll false; Sleep]
           [SdStop; Poll true; ListenersStop]).
  reflexivity.
Defined.

(** Without cancellation the three chunks are played in order, each
    synthesized while the one before it plays. *)
Example speak_response_uncancelled :
  speak_response Samples.decimal_sample utext Samples.tts_echo None None
                 (fun _ => 1) Samples.three_sentences
  = ([ListenersStart; Synth 0;
      Poll false; Spawn 1; Play 0; Poll false; Sleep; Poll false; Join 1;
      Poll false; Join 1; Spawn 2; Play 1; Poll false; Sleep; Poll false;
      Join 2;
      Poll false; Join 2; Play 2; Poll false; Sleep; Poll false;
      ListenersStop], Returned).
Proof. reflexivity. Qed.

End PlayerFacts.

(* ================================================================= *)
(** * Further properties of the code *)

(* ----------------------------------------------------------------- *)
(** ** Wake-word matching: what a match is, and what stripping keeps *)

Module WakeMore.
Import Py Wake Notions PyFacts WakeFacts.

Lemma prefix_hit_prefix (tokens : list text) (w : text) :
  prefix_hit tokens w = true <-> _normalize_tokens w `prefix_of` tokens.
Proof.
  unfold prefix_hit, _normalize_tokens. rewrite bool_decide_eq_true. split.
  - intros H. exists (drop (length (split (_normalize w))) tokens).
    rewrite <- H at 1. by rewrite take_drop.
  - intros [k ->]. by rewrite take_app_length.
Qed.

(** [wake_match] says whether the tokens of some wake phrase open the
    tokens of the transcript; the order of the list and the order the
    phrases are tried in play no part in the answer. *)
Theorem wake_match_some_phrase (t : text) (wake_words : list text) :
  wake_match t wake_words = true
  <-> exists w, In w wake_words
        /\ _normalize_tokens w `prefix_of` _normalize_tokens t.
Proof.
  rewrite wake_match_selected. split.
  - intros [w Hw]. apply selected_hit in Hw as [Hin Hhit].
    exists w. split; [by apply list_elem_of_In|].
    by apply prefix_hit_prefix.
  - intros (w & Hin & Hpre).
    apply wake_match_selected. unfold wake_match.
    apply (wake_match_loop_hit _ _ w).
    + rewrite sorted_longest_first_perm. by apply list_elem_of_In.
    + by apply prefix_hit_prefix.
Qed.

(** Where [wake_match] says no, [strip_wake] gives the text back. *)
Theorem strip_wake_no_match (t : text) (wake_words : list text) :
  wake_match t wake_words = false -> strip_wake t wake_words = t.
Proof.
  intros Hno. rewrite strip_wake_selected.
  destruct (selected t wake_words) as [w|] eqn:E; [|done].
  assert (wake_match t wake_words = true)
    by (apply wake_match_selected; eauto).
  congruence.
Qed.

Lemma strip_wake_no_match_witness :
  wake_match (txt "what's the weather") [Samples.hey_pal; Samples.pal]
  = false
  /\ strip_wake (txt "what's the weather") [Samples.hey_pal; Samples.pal]
     = txt "what's the weather".
Proof.
  split; [reflexivity|].
  apply (strip_wake_no_match (txt "what's the weather")
           [Samples.hey_pal; Samples.pal]).
  reflexivity.
Defined.

Lemma strip_tokens_suffix (wake_tokens : list text) (t : text) :
  strip_tokens wake_tokens t `suffix_of` t.
Proof.
  unfold strip_tokens.
  destruct (lstrip_chars _ _) as [|c r] eqn:E; [done|].
  rewrite <- E. etrans; [apply drop_while_suffix | apply fold_drop_suffix].
Qed.

Lemma strip_tokens_nonempty (wake_tokens : list text) (t : text) :
  t <> [] -> strip_tokens wake_tokens t <> [].
Proof.
  intros Ht. unfold strip_tokens.
  by destruct (lstrip_chars _ _).
Qed.

(** [strip_wake] always gives a suffix of the text, and never the empty
    string for a text that is not empty: the test [if not text] that
    follows it in [main] cannot fire after a match. *)
Theorem strip_wake_never_empty (t : text) (wake_words : list text) :
  t <> [] ->
  strip_wake t wake_words <> []
  /\ strip_wake t wake_words `suffix_of` t.
Proof.
  intros Ht. rewrite strip_wake_selected.
  destruct (selected t wake_words) as [w|]; [|done].
  split; [by apply strip_tokens_nonempty | apply strip_tokens_suffix].
Qed.

Lemma strip_wake_never_empty_witness :
  strip_wake Samples.hey_pal [Samples.hey_pal; Samples.pal] <> []
  /\ strip_wake Samples.hey_pal [Samples.hey_pal; Samples.pal]
     `suffix_of` Samples.hey_pal.
Proof.
  apply (strip_wake_never_empty Samples.hey_pal
           [Samples.hey_pal; Samples.pal]).
  discriminate.
Defined.


(** *** Normalizing twice *)

Lemma lower_char_idem (c : ascii) : lower_char (lower_char c) = lower_char c.
Proof. destruct c as [[] [] [] [] [] [] [] []]; reflexivity. Qed.

Lemma lower_char_punct (c : ascii) : is_punct (lower_char c) = is_punct c.
Proof. destruct c as [[] [] [] [] [] [] [] []]; reflexivity. Qed.

Lemma lower_idem (s : text) : lower (lower s) = lower s.
Proof.
  unfold lower. rewrite map_map. apply map_ext. apply lower_char_idem.
Qed.

Lemma lower_fixed (s : text) :
  Forall (fun c => lower_char c = c) s -> lower s = s.
Proof.
  induction 1 as [|c s Hc _ IH]; [done|]. simpl. by rewrite Hc, IH.
Qed.

Lemma punct_to_space_no_punct (s : text) :
  Forall (fun c => is_punct c = false) (punct_to_space s).
Proof.
  induction s as [|c s IH]; [constructor|].
  cbn [punct_to_space]. destruct (is_punct c) eqn:Ec.
  - destruct s as [|d s']; [by repeat constructor|].
    destruct (is_punct d); [done | by constructor].
  - by constructor.
Qed.

Lemma punct_to_space_fixed (s : text) :
  Forall (fun c => is_punct c = false) s -> punct_to_space s = s.
Proof.
  induction 1 as [|c s Hc _ IH]; [done|].
  cbn [punct_to_space]. by rewrite Hc, IH.
Qed.

Lemma punct_to_space_lower (s : text) :
  Forall (fun c => lower_char c = c) s ->
  Forall (fun c => lower_char c = c) (punct_to_space s).
Proof.
  induction 1 as [|c s Hc Hs IH]; [constructor|].
  cbn [punct_to_space]. destruct (is_punct c).
  - destruct s as [|d s']; [by repeat constructor|].
    destruct (is_punct d); [done | by constructor].
  - by constructor.
Qed.

Lemma lower_is_lower (s : text) :
  Forall (fun c => lower_char c = c) (lower s).
Proof.
  induction s as [|c s IH]; [constructor|].
  constructor; [apply lower_char_idem | done].
Qed.

Lemma Forall_sublist_text (P : ascii -> Prop) (s1 s2 : text) :
  s1 `sublist_of` s2 -> Forall P s2 -> Forall P s1.
Proof.
  induction 1 as [|x l1 l2 _ IH|x l1 l2 _ IH]; [done| |].
  - intros [? ?]%Forall_cons. constructor; auto.
  - intros [? ?]%Forall_cons. auto.
Qed.

Lemma lstrip_fixed (a : ascii) (r : text) :
  is_space a = false -> lstrip (a :: r) = a :: r.
Proof. intros Ha. unfold lstrip. simpl. by rewrite Ha. Qed.

Lemma rstrip_snoc (y : text) (b : ascii) :
  is_space b = false -> rstrip (y ++ [b]) = y ++ [b].
Proof.
  intros Hb. unfold rstrip. rewrite rev_app_distr. simpl.
  rewrite Hb. simpl. by rewrite rev_involutive.
Qed.

Lemma strip_idem (s : text) : strip (strip s) = strip s.
Proof.
  destruct (strip_shape s)
    as [->|(a & Ha & [->|(y & b & -> & Hb)])]; [done| |].
  - unfold strip. rewrite lstrip_fixed by done.
    exact (rstrip_snoc [] a Ha).
  - unfold strip. rewrite lstrip_fixed by done.
    exact (rstrip_snoc (a :: y) b Hb).
Qed.

Lemma strip_sub (P : ascii -> Prop) (s : text) :
  Forall P s -> Forall P (strip s).
Proof. apply Forall_sublist_text, strip_sublist. Qed.

(** Normalizing normalized text changes nothing, so matching a transcript
    and matching its normalized form give the same answer. *)
Theorem normalize_idempotent (t : text) (wake_words : list text) :
  _normalize (_normalize t) = _normalize t
  /\ _normalize_tokens (_normalize t) = _normalize_tokens t
  /\ wake_match (_normalize t) wake_words = wake_match t wake_words.
Proof.
  assert (H : _normalize (_normalize t) = _normalize t).
  { unfold _normalize.
    rewrite lower_fixed.
    - rewrite punct_to_space_fixed; [apply strip_idem|].
      apply strip_sub, punct_to_space_no_punct.
    - apply strip_sub, punct_to_space_lower, lower_is_lower. }
  split; [done|].
  unfold wake_match, _normalize_tokens. by rewrite H.
Qed.

Lemma split_tokens (P : ascii -> Prop) (s : text) :
  Forall P s ->
  Forall (fun token => token <> []
                       /\ Forall (fun c => is_space c = false /\ P c) token)
         (split s).
Proof.
  induction 1 as [|c s Hc Hs IH]; [constructor|].
  cbn [split]. destruct (is_space c) eqn:Ec; [done|].
  destruct s as [|d s'].
  - constructor; [|constructor]. split; [done|]. by repeat constructor.
  - destruct (is_space d) eqn:Ed.
    + constructor; [|done]. split; [done|]. by repeat constructor.
    + destruct (split (d :: s')) as [|token tokens].
      * constructor; [|constructor]. split; [done|]. by repeat constructor.
      * apply Forall_cons in IH as [[_ Htoken] Htokens].
        constructor; [|done]. split; [done|]. by constructor.
Qed.

(** The tokens [_normalize_tokens] gives are not empty and hold no
    space, no wake-word punctuation and no capital letter. *)
Theorem normalize_tokens_clean (t : text) :
  Forall (fun token => token <> [] /\ Forall clean_char token)
         (_normalize_tokens t).
Proof.
  unfold _normalize_tokens, _normalize.
  eapply Forall_impl.
  - apply (split_tokens (fun c => is_punct c = false /\ lower_char c = c)).
    apply strip_sub, Forall_and. split.
    + apply punct_to_space_no_punct.
    + apply punct_to_space_lower, lower_is_lower.
  - intros token [Hne Hall]. split; [done|].
    eapply Forall_impl; [exact Hall|].
    intros c (? & ? & ?). by repeat split.
Qed.

End WakeMore.

(* ----------------------------------------------------------------- *)
(** ** The speech segmenter: what a returned segment is made of *)

Module AudioMore.
Import Audio Notions.

Section CaptureMore.

Variables (np_sqrt np_log10 : Q -> Q) (vad_is_speech : Frame -> bool).
Variable energy_threshold : Q.
Variables silence_frames min_speech_frames max_frames : nat.

Local Abbreviation step :=
  (Audio.step np_sqrt np_log10 vad_is_speech energy_threshold
              silence_frames min_speech_frames max_frames).
Local Abbreviation capture_loop :=
  (Audio.capture_loop np_sqrt np_log10 vad_is_speech energy_threshold
                      silence_frames min_speech_frames max_frames).
Local Abbreviation is_speech_frame :=
  (Audio.is_speech_frame np_sqrt np_log10 vad_is_speech energy_threshold).
Local Abbreviation quiet :=
  (fun frame : Frame =>
     Qlt_bool (energy_dbfs np_sqrt np_log10 frame) energy_threshold).

(** A call that returns did so on some frame, having gone on over the
    frames before it. *)
Lemma capture_loop_return st frames seg why rest :
  capture_loop st frames = inr (seg, why, rest) ->
  exists before last prior,
    frames = before ++ last :: rest
    /\ capture_loop st before = inl prior
    /\ step prior last = Return seg why.
Proof.
  revert st. induction frames as [|frame frames IH]; intros st; [done|].
  cbn [Audio.capture_loop].
  destruct (step st frame) as [st'|st' why'] eqn:Es.
  - intros H. destruct (IH st' H) as (before & last & prior & -> & Hb & Hl).
    exists (frame :: before), last, prior. split; [done|]. split; [|done].
    cbn [Audio.capture_loop]. by rewrite Es.
  - intros [= <- <- <-]. exists [], frame, st. done.
Qed.

(** A property of the frames taken so far and the state, kept by every
    step that goes on, holds where the loop stands. *)
Lemma capture_loop_keeps (I : list Frame -> state -> Prop) :
  (forall taken st frame st',
      I taken st -> step st frame = Continue st' ->
      I (taken ++ [frame]) st') ->
  forall frames taken st st',
    I taken st -> capture_loop st frames = inl st' ->
    I (taken ++ frames) st'.
Proof.
  intros Hstep. induction frames as [|frame frames IH];
    intros taken st st' HI.
  - intros [= <-]. by rewrite app_nil_r.
  - cbn [Audio.capture_loop].
    destruct (step st frame) as [st1|st1 why] eqn:Es; [|done].
    intros H. rewrite (cons_middle frame taken frames), app_assoc.
    apply (IH _ st1); [|done]. by apply (Hstep taken st).
Qed.


Local Abbreviation loud := (fun frame : Frame => negb (quiet frame)).
Local Abbreviation inv :=
  (capture_inv is_speech_frame loud silence_frames max_frames).

(** The three ways a step can go, with the log of VAD calls it leaves. *)
Lemma step_shape st frame :
  exists calls,
    calls = vad_calls st ++ (if loud frame then [frame] else [])
    /\ ((is_speech_frame frame = true
         /\ loud frame = true
         /\ step st frame =
            (if max_frames <=? S (speech_count st)
             then Return (mk_state (speech_buf st ++ [frame]) 0
                                   (S (speech_count st)) true calls)
                         MaxDuration
             else Continue (mk_state (speech_buf st ++ [frame]) 0
                                     (S (speech_count st)) true calls)))
        \/ (is_speech_frame frame = false
            /\ recording st = false
            /\ step st frame = Continue (with_calls st calls))
        \/ (is_speech_frame frame = false
            /\ recording st = true
            /\ step st frame =
               (if silence_frames <=? S (silent_count st)
                then if min_speech_frames <=? speech_count st
                     then Return (mk_state (speech_buf st ++ [frame])
                                           (S (silent_count st))
                                           (speech_count st) true calls)
                                 SilenceTimeout
                     else Continue (mk_state [] 0 0 false calls)
                else Continue (mk_state (speech_buf st ++ [frame])
                                        (S (silent_count st))
                                        (speech_count st) true calls)))).
Proof.
  eexists. split; [reflexivity|].
  unfold Audio.step, Audio.is_speech_frame, Audio.on_silence.
  destruct st as [buf silent count rec calls]. cbn [speech_buf silent_count
    speech_count recording vad_calls with_calls].
  destruct (Qlt_bool _ _); cbn [negb andb].
  - rewrite app_nil_r. destruct rec; [right; right | right; left]; done.
  - destruct (vad_is_speech frame); [left; done|].
    destruct rec; [right; right | right; left]; done.
Qed.

Lemma filter_snoc {A} (p : A -> bool) (l : list A) (x : A) :
  List.filter p (l ++ [x]) = List.filter p l ++ (if p x then [x] else []).
Proof. rewrite List.filter_app. simpl. by destruct (p x). Qed.

Lemma inv_init : inv [] init.
Proof.
  repeat split; simpl; try lia.
  - exists [], []. by repeat split.
  - by exists [].
Qed.

Lemma inv_step taken st frame st' :
  inv taken st -> step st frame = Continue st' -> inv (taken ++ [frame]) st'.
Proof.
  intros ((Hcount & Hhead & (body & tail & Hbuf & Htail & Hq) & Hsil & Hmax)
          & (pre & Hpre) & Hlog).
  destruct (step_shape st frame) as (calls & Hcalls & Hcase).
  assert (Hlog' : calls = List.filter loud (taken ++ [frame])).
  { by rewrite filter_snoc, <- Hlog. }
  destruct Hcase as [(Hsp & _ & ->)|[(Hsp & Hrec & ->)|(Hsp & Hrec & ->)]].
  - (* a speech frame *)
    destruct (max_frames <=? S (speech_count st)) eqn:E; [done|].
    apply Nat.leb_gt in E. intros [= <-].
    split; [|split; [|done]].
    + unfold buffer_shape. cbn [speech_buf silent_count speech_count
                                 recording vad_calls].
      split; [by rewrite filter_snoc, Hsp, length_app, <- Hcount; simpl; lia|].
      split.
      { destruct (speech_buf st) as [|first more]; simpl; [done|].
        by destruct Hhead. }
      split; [exists (speech_buf st ++ [frame]), [];
              by rewrite app_nil_r|].
      lia.
    + exists pre. cbn [speech_buf]. by rewrite Hpre, <- app_assoc.
  - (* not speech, idle *)
    intros [= <-].
    split; [|split; [|done]].
    + unfold buffer_shape. cbn [with_calls speech_buf silent_count
                                 speech_count recording vad_calls].
      split; [done|]. split; [done|]. split; [|done].
      by exists body, tail.
    + cbn [with_calls speech_buf].
      destruct (speech_buf st) as [|first more] eqn:Eb;
        [|destruct Hhead; congruence].
      exists (taken ++ [frame]). by rewrite app_nil_r.
  - (* not speech, recording *)
    assert (Hfirst : exists first more,
               speech_buf st = first :: more
               /\ is_speech_frame first = true).
    { destruct (speech_buf st) as [|first more];
        destruct Hhead; [congruence | eauto]. }
    destruct Hfirst as (first & more & Eb & Hfirst).
    destruct (silence_frames <=? S (silent_count st)) eqn:E.
    + destruct (min_speech_frames <=? speech_count st); [done|].
      intros [= <-]. split; [|split; [|done]].
      * unfold buffer_shape. simpl. repeat split; try lia.
        exists [], []. by repeat split.
      * exists (taken ++ [frame]). simpl. by rewrite app_nil_r.
    + apply Nat.leb_gt in E. intros [= <-].
      split; [|split; [|done]].
      * unfold buffer_shape. cbn [speech_buf silent_count speech_count
                                   recording vad_calls].
        split; [by rewrite filter_snoc, Hsp, app_nil_r|].
        split; [by rewrite Eb|].
        split; [|lia].
        exists body, (tail ++ [frame]).
        rewrite Hbuf, <- app_assoc, length_app, Htail.
        split; [done|]. split; [simpl; lia|].
        apply Forall_app. split; [done|]. by constructor.
      * exists pre. cbn [speech_buf]. by rewrite Hpre, <- app_assoc.
Qed.

(** Where a call returns, the invariant held before its last frame. *)
Lemma capture_return_inv frames seg why rest :
  capture_loop init frames = inr (seg, why, rest) ->
  exists before last prior,
    frames = before ++ last :: rest
    /\ inv before prior
    /\ step prior last = Return seg why.
Proof.
  intros H.
  destruct (capture_loop_return init frames seg why rest H)
    as (before & last & prior & Hf & Hb & Hl).
  exists before, last, prior. split; [done|]. split; [|done].
  apply (capture_loop_keeps inv inv_step before [] init prior);
    [apply inv_init | done].
Qed.


(** How a call returns: on a speech frame that fills the maximum, or on
    a frame that is not speech and completes the silence. *)
Lemma return_cases frames seg why rest :
  capture_loop init frames = inr (seg, why, rest) ->
  exists before last prior calls,
    frames = before ++ last :: rest
    /\ inv before prior
    /\ calls = vad_calls prior ++ (if loud last then [last] else [])
    /\ ((why = MaxDuration
         /\ is_speech_frame last = true
         /\ max_frames <= S (speech_count prior)
         /\ seg = mk_state (speech_buf prior ++ [last]) 0
                           (S (speech_count prior)) true calls)
        \/ (why = SilenceTimeout
            /\ is_speech_frame last = false
            /\ recording prior = true
            /\ silence_frames <= S (silent_count prior)
            /\ seg = mk_state (speech_buf prior ++ [last])
                              (S (silent_count prior))
                              (speech_count prior) true calls)).
Proof.
  intros H.
  destruct (capture_return_inv frames seg why rest H)
    as (before & last & prior & Hf & Hinv & Hlast).
  destruct (step_shape prior last) as (calls & Hcalls & Hcase).
  exists before, last, prior, calls. do 3 (split; [done|]).
  destruct Hcase as [(Hsp & _ & Hs)|[(Hsp & Hrec & Hs)|(Hsp & Hrec & Hs)]];
    rewrite Hs in Hlast.
  - destruct (max_frames <=? S (speech_count prior)) eqn:E; [|done].
    apply Nat.leb_le in E. injection Hlast as <- <-. by left.
  - done.
  - destruct (silence_frames <=? S (silent_count prior)) eqn:E; [|done].
    destruct (min_speech_frames <=? speech_count prior); [|done].
    apply Nat.leb_le in E. injection Hlast as <- <-. by right.
Qed.

End CaptureMore.


(** A returned segment is a run of consecutive frames of the stream: the
    frames from some point on up to the frame the call returned at, none
    left out, none added, none out of order. *)
Theorem segment_is_contiguous
        (np_sqrt np_log10 : Q -> Q) (vad_is_speech : Frame -> bool)
        (energy_threshold : Q)
        (silence_frames min_speech_frames max_frames : nat)
        (frames : list Frame) (seg : state) (why : reason)
        (rest : list Frame) :
  capture_loop np_sqrt np_log10 vad_is_speech energy_threshold
               silence_frames min_speech_frames max_frames init frames
  = inr (seg, why, rest) ->
  exists skipped, frames = skipped ++ speech_buf seg ++ rest.
Proof.
  intros H.
  destruct (return_cases _ _ _ _ _ _ _ _ _ _ _ H)
    as (before & last & prior & calls & -> & (_ & (pre & ->) & _) & _ & Hc).
  exists pre.
  destruct Hc as [(_ & _ & _ & ->)|(_ & _ & _ & _ & ->)];
    cbn [speech_buf]; by rewrite <- !app_assoc.
Qed.

Lemma segment_is_contiguous_witness :
  exists skipped,
    Samples.scenario_stream
    = skipped ++ speech_buf Samples.scenario_segment
      ++ replicate 5 Samples.quiet_frame.
Proof.
  apply (segment_is_contiguous
           Samples.sqrt_sample Samples.log10_sample Samples.vad_sample
           ENERGY_THRESHOLD_DBFS silence_frames_default
           min_speech_frames_default max_frames_default
           Samples.scenario_stream Samples.scenario_segment SilenceTimeout
           (replicate 5 Samples.quiet_frame)).
  exact (proj2 (proj2 (proj2 (proj2 AudioFacts.scenario_default_counts)))).
Defined.

(** Over a whole call the VAD is asked about the frames at or above the
    energy threshold, each once and in order, and about no frame below
    it. *)
Theorem vad_asked_about_loud_frames
        (np_sqrt np_log10 : Q -> Q) (vad_is_speech : Frame -> bool)
        (energy_threshold : Q)
        (silence_frames min_speech_frames max_frames : nat)
        (frames : list Frame) (seg : state) (why : reason)
        (rest : list Frame) :
  capture_loop np_sqrt np_log10 vad_is_speech energy_threshold
               silence_frames min_speech_frames max_frames init frames
  = inr (seg, why, rest) ->
  exists taken,
    frames = taken ++ rest
    /\ vad_calls seg
       = List.filter
           (fun frame =>
              negb (Qlt_bool (energy_dbfs np_sqrt np_log10 frame)
                             energy_threshold))
           taken.
Proof.
  intros H.
  destruct (return_cases _ _ _ _ _ _ _ _ _ _ _ H)
    as (before & last & prior & calls & -> & (_ & _ & Hlog) & Hcalls & Hc).
  exists (before ++ [last]). split; [by rewrite <- app_assoc|].
  rewrite filter_snoc, <- Hlog, <- Hcalls.
  by destruct Hc as [(_ & _ & _ & ->)|(_ & _ & _ & _ & ->)].
Qed.

Lemma vad_asked_about_loud_frames_witness :
  exists taken,
    Samples.scenario_stream = taken ++ replicate 5 Samples.quiet_frame
    /\ vad_calls Samples.scenario_segment
       = List.filter
           (fun frame =>
              negb (Qlt_bool (Samples.energy frame) ENERGY_THRESHOLD_DBFS))
           taken.
Proof.
  apply (vad_asked_about_loud_frames
           Samples.sqrt_sample Samples.log10_sample Samples.vad_sample
           ENERGY_THRESHOLD_DBFS silence_frames_default
           min_speech_frames_default max_frames_default
           Samples.scenario_stream Samples.scenario_segment SilenceTimeout
           (replicate 5 Samples.quiet_frame)).
  exact (proj2 (proj2 (proj2 (proj2 AudioFacts.scenario_default_counts)))).
Defined.

(** A returned segment opens with a speech frame: nothing heard before
    the VAD first answered yes is kept.  Its speech count is the number
    of speech frames it holds. *)
Theorem segment_opens_with_speech
        (np_sqrt np_log10 : Q -> Q) (vad_is_speech : Frame -> bool)
        (energy_threshold : Q)
        (silence_frames min_speech_frames max_frames : nat)
        (frames : list Frame) (seg : state) (why : reason)
        (rest : list Frame) :
  capture_loop np_sqrt np_log10 vad_is_speech energy_threshold
               silence_frames min_speech_frames max_frames init frames
  = inr (seg, why, rest) ->
  (exists first more,
      speech_buf seg = first :: more
      /\ is_speech_frame np_sqrt np_log10 vad_is_speech energy_threshold
                         first = true)
  /\ speech_count seg
     = length (List.filter
                 (is_speech_frame np_sqrt np_log10 vad_is_speech
                                  energy_threshold)
                 (speech_buf seg)).
Proof.
  intros H.
  destruct (return_cases _ _ _ _ _ _ _ _ _ _ _ H)
    as (before & last & prior & calls & _
        & ((Hcount & Hhead & _) & _ & _) & _ & Hc).
  destruct Hc as [(_ & Hsp & _ & ->)|(_ & Hsp & Hrec & _ & ->)];
    cbn [speech_buf speech_count]; rewrite filter_snoc, Hsp.
  - split; [|rewrite length_app, <- Hcount; simpl; lia].
    destruct (speech_buf prior) as [|first more]; [by exists last, []|].
    exists first, (more ++ [last]). by destruct Hhead.
  - split; [|by rewrite app_nil_r].
    destruct (speech_buf prior) as [|first more];
      [destruct Hhead; congruence|].
    exists first, (more ++ [last]). by destruct Hhead.
Qed.

Lemma segment_opens_with_speech_witness :
  (exists first more,
      speech_buf Samples.scenario_segment = first :: more
      /\ Samples.is_speech_frame first = true)
  /\ speech_count Samples.scenario_segment
     = length (List.filter Samples.is_speech_frame
                           (speech_buf Samples.scenario_segment)).
Proof.
  apply (segment_opens_with_speech
           Samples.sqrt_sample Samples.log10_sample Samples.vad_sample
           ENERGY_THRESHOLD_DBFS silence_frames_default
           min_speech_frames_default max_frames_default
           Samples.scenario_stream Samples.scenario_segment SilenceTimeout
           (replicate 5 Samples.quiet_frame)).
  exact (proj2 (proj2 (proj2 (proj2 AudioFacts.scenario_default_counts)))).
Defined.

(** A segment returned on the silence timeout ends with the frames of
    that silence: [silence_frames] of them (one when the timeout is 0),
    none of them speech. *)
Theorem silence_timeout_tail
        (np_sqrt np_log10 : Q -> Q) (vad_is_speech : Frame -> bool)
        (energy_threshold : Q)
        (silence_frames min_speech_frames max_frames : nat)
        (frames : list Frame) (seg : state) (rest : list Frame) :
  capture_loop np_sqrt np_log10 vad_is_speech energy_threshold
               silence_frames min_speech_frames max_frames init frames
  = inr (seg, SilenceTimeout, rest) ->
  silent_count seg = Nat.max silence_frames 1
  /\ exists body tail,
      speech_buf seg = body ++ tail
      /\ length tail = Nat.max silence_frames 1
      /\ Forall (fun f => is_speech_frame np_sqrt np_log10 vad_is_speech
                            energy_threshold f = false) tail.
Proof.
  intros H.
  destruct (return_cases _ _ _ _ _ _ _ _ _ _ _ H)
    as (before & last & prior & calls & _
        & ((_ & _ & (body & tail & Hbuf & Htail & Hq) & Hsil & _) & _ & _)
        & _ & Hc).
  destruct Hc as [(? & _)|(_ & Hsp & _ & Hreach & ->)]; [done|].
  cbn [speech_buf silent_count].
  split; [lia|].
  exists body, (tail ++ [last]).
  rewrite Hbuf, <- app_assoc, length_app, Htail.
  split; [done|]. split; [simpl; lia|].
  apply Forall_app. split; [done|]. by constructor.
Qed.

Lemma silence_timeout_tail_witness :
  silent_count Samples.scenario_segment
  = Nat.max silence_frames_default 1
  /\ exists body tail,
      speech_buf Samples.scenario_segment = body ++ tail
      /\ length tail = Nat.max silence_frames_default 1
      /\ Forall (fun f => Samples.is_speech_frame f = false) tail.
Proof.
  apply (silence_timeout_tail
           Samples.sqrt_sample Samples.log10_sample Samples.vad_sample
           ENERGY_THRESHOLD_DBFS silence_frames_default
           min_speech_frames_default max_frames_default
           Samples.scenario_stream Samples.scenario_segment
           (replicate 5 Samples.quiet_frame)).
  exact (proj2 (proj2 (proj2 (proj2 AudioFacts.scenario_default_counts)))).
Defined.

(** A segment cut by the maximum duration holds exactly [max_frames]
    speech frames (one when the maximum is 0) and ends with a speech
    frame, no silence after it. *)
Theorem max_duration_exact
        (np_sqrt np_log10 : Q -> Q) (vad_is_speech : Frame -> bool)
        (energy_threshold : Q)
        (silence_frames min_speech_frames max_frames : nat)
        (frames : list Frame) (seg : state) (rest : list Frame) :
  capture_loop np_sqrt np_log10 vad_is_speech energy_threshold
               silence_frames min_speech_frames max_frames init frames
  = inr (seg, MaxDuration, rest) ->
  speech_count seg = Nat.max max_frames 1
  /\ silent_count seg = 0
  /\ exists body last,
      speech_buf seg = body ++ [last]
      /\ is_speech_frame np_sqrt np_log10 vad_is_speech energy_threshold
                         last = true.
Proof.
  intros H.
  destruct (return_cases _ _ _ _ _ _ _ _ _ _ _ H)
    as (before & last & prior & calls & _
        & ((_ & _ & _ & _ & Hmax) & _ & _) & _ & Hc).
  destruct Hc as [(_ & Hsp & Hreach & ->)|(? & _)]; [|done].
  cbn [speech_buf silent_count speech_count].
  split; [lia|]. split; [done|]. by exists (speech_buf prior), last.
Qed.

Lemma max_duration_exact_witness :
  speech_count
    (mk_state (replicate 3 Samples.loud_frame) 0 3 true
              (replicate 3 Samples.loud_frame))
  = Nat.max 3 1
  /\ silent_count
       (mk_state (replicate 3 Samples.loud_frame) 0 3 true
                 (replicate 3 Samples.loud_frame))
     = 0
  /\ exists body last,
      speech_buf
        (mk_state (replicate 3 Samples.loud_frame) 0 3 true
                  (replicate 3 Samples.loud_frame))
      = body ++ [last]
      /\ is_speech_frame Samples.sqrt_sample Samples.log10_sample
                         Samples.vad_sample ENERGY_THRESHOLD_DBFS last
         = true.
Proof.
  apply (max_duration_exact
           Samples.sqrt_sample Samples.log10_sample Samples.vad_sample
           ENERGY_THRESHOLD_DBFS 50 15 3
           (replicate 4 Samples.loud_frame) _ [Samples.loud_frame]).
  vm_compute. reflexivity.
Defined.


(** A stream with no speech frame in it never makes the call return,
    however long it is: no segment comes out of silence or of noise the
    VAD rejects. *)
Theorem no_speech_no_segment
        (np_sqrt np_log10 : Q -> Q) (vad_is_speech : Frame -> bool)
        (energy_threshold : Q)
        (silence_frames min_speech_frames max_frames : nat)
        (frames : list Frame) :
  Forall (fun f => is_speech_frame np_sqrt np_log10 vad_is_speech
                     energy_threshold f = false) frames ->
  capture_speech np_sqrt np_log10 vad_is_speech energy_threshold
                 silence_frames min_speech_frames max_frames frames
  = None
  /\ segments np_sqrt np_log10 vad_is_speech energy_threshold
              silence_frames min_speech_frames max_frames frames
     = [].
Proof.
  intros Hall.
  destruct (AudioFacts.capture_idle
              np_sqrt np_log10 vad_is_speech energy_threshold
              silence_frames min_speech_frames max_frames
              init frames eq_refl Hall) as [calls Hidle].
  split.
  - unfold capture_speech. by rewrite Hidle.
  - unfold segments. by rewrite AudioFacts.segments_from_capture, Hidle.
Qed.

Lemma no_speech_no_segment_witness :
  capture_speech Samples.sqrt_sample Samples.log10_sample Samples.vad_sample
                 ENERGY_THRESHOLD_DBFS 50 15 500
                 (replicate 200 Samples.quiet_frame)
  = None
  /\ segments Samples.sqrt_sample Samples.log10_sample Samples.vad_sample
              ENERGY_THRESHOLD_DBFS 50 15 500
              (replicate 200 Samples.quiet_frame)
     = [].
Proof.
  apply (no_speech_no_segment
           Samples.sqrt_sample Samples.log10_sample Samples.vad_sample
           ENERGY_THRESHOLD_DBFS 50 15 500
           (replicate 200 Samples.quiet_frame)).
  apply Forall_replicate. vm_compute. reflexivity.
Defined.

(** A false trigger is dropped: speech shorter than the minimum, then a
    full silence, and the call is idle again with an empty buffer and
    its counters at 0, going on with the frames that follow as a fresh
    call would. *)
Theorem false_trigger_discarded
        (np_sqrt np_log10 : Q -> Q) (vad_is_speech : Frame -> bool)
        (energy_threshold : Q)
        (silence_frames min_speech_frames max_frames : nat)
        (speech quiet more : list Frame) :
  Forall (fun f => is_speech_frame np_sqrt np_log10 vad_is_speech
                     energy_threshold f = true) speech ->
  Forall (fun f => is_speech_frame np_sqrt np_log10 vad_is_speech
                     energy_threshold f = false) quiet ->
  0 < length speech -> length speech < min_speech_frames ->
  length speech < max_frames ->
  0 < silence_frames -> length quiet = silence_frames ->
  exists calls,
    capture_loop np_sqrt np_log10 vad_is_speech energy_threshold
                 silence_frames min_speech_frames max_frames init
                 (speech ++ quiet ++ more)
    = capture_loop np_sqrt np_log10 vad_is_speech energy_threshold
                   silence_frames min_speech_frames max_frames
                   (mk_state [] 0 0 false calls) more.
Proof.
  intros Hsp Hq Hpos Hmin Hmax Hsil Hlen.
  destruct speech as [|first sp]; [simpl in Hpos; lia|].
  apply Forall_cons in Hsp as [Hfirst Hsp]. cbn [length] in *.
  destruct quiet as [|q0 qs] using rev_ind; [simpl in Hlen; lia|].
  clear IHqs. rewrite length_app in Hlen. cbn [length] in Hlen.
  apply Forall_app in Hq as [Hqs Hlast]. rewrite Forall_singleton in Hlast.
  cbn [app].
  rewrite AudioFacts.capture_loop_cons,
    (AudioFacts.step_speech _ _ _ _ _ _ _ init first Hfirst).
  cbv zeta. cbn [init speech_buf silent_count speech_count recording
                      vad_calls app].
  destruct (max_frames <=? 1) eqn:E; [apply Nat.leb_le in E; lia|].
  rewrite AudioFacts.capture_loop_app, AudioFacts.capture_speech_run;
    cbn [speech_buf silent_count speech_count recording vad_calls];
    [|done|done|done|lia].
  rewrite <- app_assoc.
  edestruct (AudioFacts.capture_silence_run
               np_sqrt np_log10 vad_is_speech energy_threshold
               silence_frames min_speech_frames max_frames
               (mk_state ([first] ++ sp) 0 (1 + length sp) true
                         ([first] ++ sp)) qs) as [c2 H2];
    [done|done|simpl; lia|].
  rewrite AudioFacts.capture_loop_app, H2.
  cbn [speech_buf silent_count speech_count recording vad_calls app].
  rewrite AudioFacts.capture_loop_cons.
  match goal with
  | |- context [step _ _ _ _ _ _ _ ?st q0] =>
      destruct (AudioFacts.step_nonspeech
                  np_sqrt np_log10 vad_is_speech energy_threshold
                  silence_frames min_speech_frames max_frames
                  st q0 Hlast) as [c3 H3]
  end.
  rewrite H3. cbn [recording]. unfold on_silence.
  cbn [with_calls speech_buf silent_count speech_count recording vad_calls].
  destruct (silence_frames <=? S (0 + length qs)) eqn:E1;
    [|apply Nat.leb_gt in E1; lia].
  destruct (min_speech_frames <=? 1 + length sp) eqn:E2;
    [apply Nat.leb_le in E2; lia|].
  by exists c3.
Qed.

Lemma false_trigger_discarded_witness :
  exists calls,
    capture_loop Samples.sqrt_sample Samples.log10_sample Samples.vad_sample
                 ENERGY_THRESHOLD_DBFS 50 15 500 init
                 (replicate 5 Samples.loud_frame
                  ++ replicate 50 Samples.quiet_frame
                  ++ [Samples.loud_frame])
    = capture_loop Samples.sqrt_sample Samples.log10_sample
                   Samples.vad_sample ENERGY_THRESHOLD_DBFS 50 15 500
                   (mk_state [] 0 0 false calls) [Samples.loud_frame].
Proof.
  apply (false_trigger_discarded
           Samples.sqrt_sample Samples.log10_sample Samples.vad_sample
           ENERGY_THRESHOLD_DBFS 50 15 500
           (replicate 5 Samples.loud_frame)
           (replicate 50 Samples.quiet_frame) [Samples.loud_frame]).
  - apply Forall_replicate. vm_compute. reflexivity.
  - apply Forall_replicate. vm_compute. reflexivity.
  - simpl. lia.
  - simpl. lia.
  - simpl. lia.
  - lia.
  - reflexivity.
Defined.

End AudioMore.

(* ----------------------------------------------------------------- *)
(** ** The stop-word listener over a stream *)

Module BargeInMore.
Import Py BargeIn BargeInLoop Notions.

(** [sub in s] holds exactly when [sub] occurs somewhere in [s]. *)
Lemma starts_with_prefix (p s : text) :
  starts_with p s = true <-> exists b, s = p ++ b.
Proof.
  revert s. induction p as [|a p IH]; intros s.
  - split; [by exists s | by destruct s].
  - destruct s as [|c s]; simpl.
    + split; [done | by intros [b H]].
    + rewrite andb_true_iff, bool_decide_eq_true, IH. split.
      * intros [-> [b ->]]. by exists b.
      * intros [b [= -> ->]]. split; [done | by exists b].
Qed.

Lemma contains_infix (sub s : text) :
  contains sub s = true <-> exists a b, s = a ++ sub ++ b.
Proof.
  induction s as [|c s IH].
  - simpl. rewrite orb_false_r, starts_with_prefix. split.
    + intros [b H]. by exists [], b.
    + intros (a & b & H). symmetry in H.
      apply app_eq_nil in H as [-> H]. apply app_eq_nil in H as [-> ->].
      by exists [].
  - cbn [contains]. rewrite orb_true_iff, starts_with_prefix, IH. split.
    + intros [[b H]|(a & b & ->)]; [by exists [], b|].
      by exists (c :: a), b.
    + intros ([|c' a] & b & H).
      * left. by exists b.
      * right. injection H as -> ->. by exists a, b.
Qed.

Section LoopMore.

Variable vad_is_speech : Audio.Frame -> bool.
Variable whisper_transcribe : list Q -> option Stt.result.

Local Abbreviation step := (BargeIn.step vad_is_speech whisper_transcribe).
Local Abbreviation listen_loop :=
  (BargeInLoop.listen_loop vad_is_speech whisper_transcribe).

(** What a step that stops has seen. *)
Lemma step_stopped st frame st' :
  step st frame = Stopped st' ->
  vad_is_speech frame = false
  /\ 3 <= speech_count st
  /\ silence_frames <= S (silent_count st)
  /\ st' = mk_state (speech_frames st ++ [frame]) (speech_count st)
                    (S (silent_count st)) (vad_calls st ++ [frame])
  /\ exists result sw,
      whisper_transcribe
        (Stt.to_float32 (concat (speech_frames st ++ [frame])))
      = Some result
      /\ In sw STOP_WORDS
      /\ contains sw (lower (Stt.text_of result)) = true.
Proof.
  unfold BargeIn.step.
  destruct (vad_is_speech frame); [done|].
  destruct (0 <? speech_count st); [|done].
  destruct (silence_frames <=? S (silent_count st)) eqn:Es; [|done].
  destruct (3 <=? speech_count st) eqn:E3; [|done]. cbn [andb].
  destruct (whisper_transcribe _) as [result|] eqn:Ew; [|done].
  destruct (existsb _ _) eqn:Ex; [|done].
  intros [= <-]. apply Nat.leb_le in Es, E3.
  apply existsb_exists in Ex as (sw & Hin & Hsw).
  do 4 (split; [done|]). by exists result, sw.
Qed.

Lemma listen_loop_stopped st frames st' :
  listen_loop st frames = Stopped st' ->
  exists before last prior more,
    frames = before ++ last :: more
    /\ listen_loop st before = Continue prior
    /\ step prior last = Stopped st'.
Proof.
  revert st. induction frames as [|frame frames IH]; intros st; [done|].
  cbn [BargeInLoop.listen_loop].
  destruct (step st frame) as [st1|st1] eqn:Es.
  - intros H.
    destruct (IH st1 H) as (before & last & prior & more & -> & Hb & Hl).
    exists (frame :: before), last, prior, more.
    split; [done|]. split; [|done].
    cbn [BargeInLoop.listen_loop]. by rewrite Es.
  - intros [= <-]. exists [], frame, st, frames. done.
Qed.

(** The speech count never exceeds the number of frames the VAD has
    called speech. *)
Lemma listen_loop_count st frames st' :
  listen_loop st frames = Continue st' ->
  speech_count st'
  <= speech_count st + length (List.filter vad_is_speech frames).
Proof.
  revert st. induction frames as [|frame frames IH]; intros st.
  - intros [= <-]. simpl. lia.
  - cbn [BargeInLoop.listen_loop List.filter].
    destruct (step st frame) as [st1|st1] eqn:Es; [|done].
    intros H. apply IH in H.
    destruct (vad_is_speech frame) eqn:Ev.
    + rewrite (BargeInFacts.listen_step_speech _ _ _ _ Ev) in Es.
      injection Es as <-. simpl in *. lia.
    + pose proof (BargeInFacts.listen_step_nonspeech
                    vad_is_speech whisper_transcribe st frame Ev) as Hle.
      rewrite Es in Hle. simpl in Hle. lia.
Qed.


Lemma listen_loop_app st frames more :
  listen_loop st (frames ++ more) =
  match listen_loop st frames with
  | Continue st' => listen_loop st' more
  | Stopped st' => Stopped st'
  end.
Proof.
  revert st. induction frames as [|frame frames IH]; intros st; [done|].
  cbn [app BargeInLoop.listen_loop].
  destruct (step st frame); [apply IH | done].
Qed.

(** Frames the VAD rejects, after some speech, pile up in the buffer
    for as long as no transcription is due. *)
Lemma listen_silence_run st frames :
  0 < speech_count st ->
  Forall (fun f => vad_is_speech f = false) frames ->
  speech_count st < 3
  \/ silent_count st + length frames < silence_frames ->
  listen_loop st frames =
  Continue (mk_state (speech_frames st ++ frames) (speech_count st)
                     (silent_count st + length frames)
                     (vad_calls st ++ frames)).
Proof.
  revert st. induction frames as [|frame frames IH];
    intros st Hpos Hall Hdue.
  - destruct st. simpl. by rewrite !app_nil_r, Nat.add_0_r.
  - apply Forall_cons in Hall as [Hf Hall]. cbn [length] in Hdue.
    cbn [BargeInLoop.listen_loop]. unfold BargeIn.step. rewrite Hf.
    apply Nat.ltb_lt in Hpos as Hpos'. rewrite Hpos'.
    assert (E : (silence_frames <=? S (silent_count st))
                && (3 <=? speech_count st) = false).
    { apply andb_false_iff. destruct Hdue as [H|H].
      - right. apply Nat.leb_gt. lia.
      - left. apply Nat.leb_gt. lia. }
    rewrite E, IH; cbn [speech_frames speech_count silent_count vad_calls];
      [|done|done|lia].
    rewrite <- !app_assoc. cbn [app length].
    by rewrite Nat.add_succ_r.
Qed.

Lemma listen_speech_run st frames :
  frames <> [] ->
  Forall (fun f => vad_is_speech f = true) frames ->
  listen_loop st frames =
  Continue (mk_state (speech_frames st ++ frames)
                     (speech_count st + length frames) 0
                     (vad_calls st ++ frames)).
Proof.
  revert st. induction frames as [|frame frames IH]; intros st Hne Hall;
    [done|].
  apply Forall_cons in Hall as [Hf Hall].
  cbn [BargeInLoop.listen_loop].
  rewrite (BargeInFacts.listen_step_speech _ _ _ _ Hf).
  destruct frames as [|frame' frames'].
  - simpl. by rewrite Nat.add_1_r.
  - rewrite IH; [|done|done].
    cbn [speech_frames speech_count silent_count vad_calls].
    rewrite <- !app_assoc. cbn [app length].
    by rewrite !Nat.add_succ_r.
Qed.

End LoopMore.

(** The listener stops playback only on a stop word: when it stops, the
    transcription model has just returned, for the audio of the buffered
    utterance (at least 3 speech frames, then 25 frames of silence), a
    text that holds one of the stop words somewhere in it, in any case.
    The frames the VAD called speech are at least 3. *)
Theorem stopped_only_on_stop_word
        (vad_is_speech : Audio.Frame -> bool)
        (whisper_transcribe : list Q -> option Stt.result)
        (frames : list Audio.Frame) (st' : state) :
  listen_loop vad_is_speech whisper_transcribe init frames = Stopped st' ->
  3 <= speech_count st'
  /\ silence_frames <= silent_count st'
  /\ 3 <= length (List.filter vad_is_speech frames)
  /\ exists result sw a b,
      whisper_transcribe (Stt.to_float32 (concat (speech_frames st')))
      = Some result
      /\ In sw STOP_WORDS
      /\ lower (Stt.text_of result) = a ++ sw ++ b.
Proof.
  intros H.
  destruct (listen_loop_stopped _ _ _ _ _ H)
    as (before & last & prior & more & -> & Hb & Hl).
  apply step_stopped in Hl
    as (Hv & H3 & Hs & -> & result & sw & Hw & Hin & Hc).
  cbn [speech_count silent_count speech_frames].
  split; [done|]. split; [done|]. split.
  - apply listen_loop_count in Hb. simpl in Hb.
    rewrite List.filter_app, length_app. lia.
  - apply contains_infix in Hc as (a & b & Hc). by exists result, sw, a, b.
Qed.

Lemma stopped_only_on_stop_word_witness :
  listen_loop Samples.vad_sample Samples.whisper_unstoppable init
              Samples.stop_stream
  = Stopped (mk_state Samples.stop_stream 3 25
                      Samples.stop_stream)
  /\ 3 <= speech_count (mk_state Samples.stop_stream 3 25
                                 Samples.stop_stream)
  /\ silence_frames
     <= silent_count (mk_state Samples.stop_stream 3 25 Samples.stop_stream)
  /\ 3 <= length (List.filter Samples.vad_sample Samples.stop_stream)
  /\ exists result sw a b,
      Samples.whisper_unstoppable
        (Stt.to_float32
           (concat (speech_frames (mk_state Samples.stop_stream 3 25
                                            Samples.stop_stream))))
      = Some result
      /\ In sw STOP_WORDS
      /\ lower (Stt.text_of result) = a ++ sw ++ b.
Proof.
  assert (H : listen_loop Samples.vad_sample Samples.whisper_unstoppable
                          init Samples.stop_stream
              = Stopped (mk_state Samples.stop_stream 3 25
                                  Samples.stop_stream))
    by (vm_compute; reflexivity).
  split; [exact H|].
  exact (stopped_only_on_stop_word Samples.vad_sample
           Samples.whisper_unstoppable Samples.stop_stream _ H).
Defined.


(** The buffer of a short utterance is never dropped: with one or two
    speech frames counted, every frame the VAD rejects is appended, no
    transcription is made and nothing is reset, however many frames
    follow. *)
Theorem short_utterance_accumulates
        (vad_is_speech : Audio.Frame -> bool)
        (whisper_transcribe : list Q -> option Stt.result)
        (st : state) (frames : list Audio.Frame) :
  0 < speech_count st -> speech_count st < 3 ->
  Forall (fun f => vad_is_speech f = false) frames ->
  listen_loop vad_is_speech whisper_transcribe st frames
  = Continue (mk_state (speech_frames st ++ frames) (speech_count st)
                       (silent_count st + length frames)
                       (vad_calls st ++ frames)).
Proof. intros Hpos Hlt Hall. apply listen_silence_run; auto. Qed.

Lemma short_utterance_accumulates_witness :
  listen_loop Samples.vad_sample Samples.whisper_unstoppable
              (mk_state [Samples.loud_frame] 1 0 [Samples.loud_frame])
              (replicate 1000 Samples.quiet_frame)
  = Continue
      (mk_state ([Samples.loud_frame] ++ replicate 1000 Samples.quiet_frame)
                1 (0 + length (replicate 1000 Samples.quiet_frame))
                ([Samples.loud_frame]
                 ++ replicate 1000 Samples.quiet_frame)).
Proof.
  apply (short_utterance_accumulates
           Samples.vad_sample Samples.whisper_unstoppable
           (mk_state [Samples.loud_frame] 1 0 [Samples.loud_frame])
           (replicate 1000 Samples.quiet_frame)).
  - simpl. lia.
  - simpl. lia.
  - apply Forall_replicate. reflexivity.
Defined.

(** An utterance of at least 3 speech frames followed by 25 frames the
    VAD rejects is transcribed, and the listener stops on the 25th of
    them when the text, in lower case, holds a stop word anywhere, within
    a longer word too. *)
Theorem stop_word_stops_listener
        (vad_is_speech : Audio.Frame -> bool)
        (whisper_transcribe : list Q -> option Stt.result)
        (speech quiet more : list Audio.Frame)
        (result : Stt.result) (sw a b : text) :
  Forall (fun f => vad_is_speech f = true) speech ->
  3 <= length speech ->
  Forall (fun f => vad_is_speech f = false) quiet ->
  length quiet = silence_frames ->
  whisper_transcribe (Stt.to_float32 (concat (speech ++ quiet)))
  = Some result ->
  In sw STOP_WORDS ->
  lower (Stt.text_of result) = a ++ sw ++ b ->
  listen_loop vad_is_speech whisper_transcribe init
              (speech ++ quiet ++ more)
  = Stopped (mk_state (speech ++ quiet) (length speech) silence_frames
                      (speech ++ quiet)).
Proof.
  intros Hsp H3 Hq Hlen Hw Hin Htext.
  destruct quiet as [|q0 qs _] using rev_ind; [discriminate|].
  rewrite length_app in Hlen. cbn [length] in Hlen.
  apply Forall_app in Hq as [Hqs Hlast]. rewrite Forall_singleton in Hlast.
  rewrite listen_loop_app, listen_speech_run;
    [|intros ->; simpl in H3; lia|done].
  cbn [init speech_frames speech_count silent_count vad_calls app].
  rewrite <- app_assoc, listen_loop_app, listen_silence_run;
    cbn [speech_frames speech_count silent_count vad_calls];
    [|lia|done|right; lia].
  cbn [app BargeInLoop.listen_loop]. unfold step. rewrite Hlast.
  cbn [speech_frames speech_count silent_count vad_calls].
  rewrite !Nat.add_0_l.
  assert (E0 : (0 <? length speech) = true) by (apply Nat.ltb_lt; lia).
  assert (E1 : (silence_frames <=? S (length qs)) = true)
    by (apply Nat.leb_le; lia).
  assert (E3 : (3 <=? length speech) = true) by (by apply Nat.leb_le).
  rewrite E0, E1, E3. cbn [andb].
  rewrite <- app_assoc, Hw.
  assert (Ex : existsb (fun sw => contains sw (lower (Stt.text_of result)))
                       STOP_WORDS = true).
  { apply existsb_exists. exists sw. split; [done|].
    apply contains_infix. by exists a, b. }
  rewrite Ex. f_equal. f_equal; try done; lia.
Qed.

Lemma stop_word_stops_listener_witness :
  listen_loop Samples.vad_sample Samples.whisper_unstoppable init
              (replicate 3 Samples.loud_frame
               ++ replicate 25 Samples.quiet_frame
               ++ [Samples.loud_frame])
  = Stopped (mk_state (replicate 3 Samples.loud_frame
                       ++ replicate 25 Samples.quiet_frame)
                      (length (replicate 3 Samples.loud_frame))
                      silence_frames
                      (replicate 3 Samples.loud_frame
                       ++ replicate 25 Samples.quiet_frame)).
Proof.
  apply (stop_word_stops_listener
           Samples.vad_sample Samples.whisper_unstoppable
           (replicate 3 Samples.loud_frame)
           (replicate 25 Samples.quiet_frame) [Samples.loud_frame]
           (Stt.Dict (Some (txt " Unstoppable!")))
           (txt "stop") (txt "un") (txt "pable!")).
  - apply Forall_replicate. reflexivity.
  - simpl. lia.
  - apply Forall_replicate. reflexivity.
  - reflexivity.
  - reflexivity.
  - simpl. auto.
  - reflexivity.
Defined.

End BargeInMore.

(* ----------------------------------------------------------------- *)
(** ** One turn: when the LLM is called and what is spoken *)

Module PipelineMore.
Import Py Notions.

Section Turn.

Variable whisper_transcribe : list Q -> Stt.result.
Variable subprocess_run : list text -> Llm.run_result.
Variable wake_words : list text.
Variable llm_cmd : text.

Local Abbreviation turn :=
  (Pipeline.turn whisper_transcribe subprocess_run wake_words llm_cmd).

(** After a match the query is never empty, so the turn always goes on
    to the LLM. *)
Lemma turn_matched (pcm : list Z) :
  let heard := Stt.text_of (whisper_transcribe (Stt.to_float32 pcm)) in
  let query := Wake.strip_wake heard wake_words in
  heard <> [] -> Wake.wake_match heard wake_words = true ->
  query <> []
  /\ turn pcm
     = (Pipeline.Query query :: Pipeline.TypingStart
          :: Pipeline.CallLlm query :: Pipeline.TypingStop
          :: fst (Pipeline.after_llm
                    (Llm.run_llm subprocess_run llm_cmd query)),
        false).
Proof.
  intros heard query Hne Hm.
  assert (Hq : query <> []).
  { unfold query. rewrite WakeFacts.strip_wake_selected.
    destruct (Wake.selected heard wake_words); [|done].
    by apply WakeMore.strip_tokens_nonempty. }
  split; [done|].
  unfold Pipeline.turn. fold heard.
  destruct heard as [|c h] eqn:Eh; [done|].
  rewrite Hm. cbn [negb]. fold query.
  destruct query as [|d q] eqn:Eq; [done|].
  unfold Pipeline.after_llm.
  by destruct (Llm.run_llm subprocess_run llm_cmd (d :: q)).
Qed.

(** Without a transcript or without a match the turn does nothing. *)
Lemma turn_unmatched (pcm : list Z) :
  let heard := Stt.text_of (whisper_transcribe (Stt.to_float32 pcm)) in
  heard = [] \/ Wake.wake_match heard wake_words = false ->
  turn pcm = ([], false).
Proof.
  intros heard H. unfold Pipeline.turn. fold heard.
  destruct heard as [|c h]; [done|].
  destruct H as [H|H]; [done|]. by rewrite H.
Qed.

End Turn.

(** The LLM is called exactly when the transcript is not empty and a wake
    phrase matches it, and then with what [strip_wake] leaves of the
    transcript: no third condition stands between the match and the call. *)
Theorem llm_called_iff_wake_matched
        (whisper_transcribe : list Q -> Stt.result)
        (subprocess_run : list text -> Llm.run_result)
        (wake_words : list text) (llm_cmd : text)
        (pcm : list Z) (query : text) :
  let heard := Stt.text_of (whisper_transcribe (Stt.to_float32 pcm)) in
  In (Pipeline.CallLlm query)
     (fst (Pipeline.turn whisper_transcribe subprocess_run wake_words
                         llm_cmd pcm))
  <-> heard <> []
      /\ Wake.wake_match heard wake_words = true
      /\ query = Wake.strip_wake heard wake_words.
Proof.
  intros heard.
  destruct (decide (heard = [])) as [He|He].
  { rewrite (turn_unmatched _ _ _ _ pcm) by (by left).
    split; [intros [] | by intros [? _]]. }
  destruct (Wake.wake_match heard wake_words) eqn:Em.
  - destruct (turn_matched whisper_transcribe subprocess_run wake_words
                llm_cmd pcm He Em) as [_ ->].
    cbn [fst In]. split.
    + intros [H|[H|[H|[H|H]]]]; try discriminate H.
      * by injection H as <-.
      * unfold Pipeline.after_llm in H.
        destruct (Llm.run_llm _ _ _); simpl in H;
          repeat (destruct H as [H|H]; try discriminate H); done.
    + intros (_ & _ & ->). right. right. by left.
  - rewrite (turn_unmatched _ _ _ _ pcm) by (right; exact Em).
    split; [intros [] | by intros (_ & ? & _)].
Qed.

(** The turn calls [speak_response] exactly when a wake phrase matched,
    the LLM process ran to its end and its standard output, stripped, is
    not empty; the argument of the call is that stripped output,
    whatever the exit status.  What is heard of it is for
    [speak_response] to decide. *)
Theorem speak_response_called_on_stdout
        (whisper_transcribe : list Q -> Stt.result)
        (subprocess_run : list text -> Llm.run_result)
        (wake_words : list text) (llm_cmd : text)
        (pcm : list Z) (r : text) :
  let heard := Stt.text_of (whisper_transcribe (Stt.to_float32 pcm)) in
  In (Pipeline.Speak r)
     (fst (Pipeline.turn whisper_transcribe subprocess_run wake_words
                         llm_cmd pcm))
  <-> heard <> []
      /\ Wake.wake_match heard wake_words = true
      /\ r <> []
      /\ exists returncode stdout,
          subprocess_run
            (split llm_cmd ++ [Wake.strip_wake heard wake_words])
          = Llm.Completed returncode stdout
          /\ r = strip stdout.
Proof.
  intros heard.
  destruct (decide (heard = [])) as [He|He].
  { rewrite (turn_unmatched _ _ _ _ pcm) by (by left).
    split; [intros [] | by intros [? _]]. }
  destruct (Wake.wake_match heard wake_words) eqn:Em.
  - destruct (turn_matched whisper_transcribe subprocess_run wake_words
                llm_cmd pcm He Em) as [_ ->].
    cbn [fst]. fold heard.
    set (query := Wake.strip_wake heard wake_words).
    unfold Pipeline.after_llm, Llm.run_llm.
    destruct (subprocess_run (split llm_cmd ++ [query]))
      as [rc out| |] eqn:Er.
    + destruct (strip out) as [|c s] eqn:Es; cbn [fst In].
      * split.
        -- intros [H|[H|[H|[H|[H|[]]]]]]; discriminate H.
        -- intros (_ & _ & Hr & rc' & out' & [= <- <-] & ->). congruence.
      * split.
        -- intros [H|[H|[H|[H|[H|[H|[]]]]]]]; try discriminate H.
           injection H as <-. repeat split; [done..|].
           by exists rc, out.
        -- intros (_ & _ & _ & rc' & out' & [= <- <-] & ->).
           rewrite Es. do 5 right. by left.
    + cbn [fst In]. split.
      * intros [H|[H|[H|[H|[H|[]]]]]]; discriminate H.
      * intros (_ & _ & _ & rc' & out' & [=] & _).
    + cbn [fst In]. split.
      * intros [H|[H|[H|[H|[H|[]]]]]]; discriminate H.
      * intros (_ & _ & _ & rc' & out' & [=] & _).
  - rewrite (turn_unmatched _ _ _ _ pcm) by (right; exact Em).
    split; [intros [] | by intros (_ & ? & _)].
Qed.

End PipelineMore.

(* ----------------------------------------------------------------- *)
(** ** The [/transcribe] endpoint: what reaches the model *)

Module SttServerMore.
Import SttServer.

Lemma int16_le_range (lo hi : Byte.byte) :
  (-32768 <= int16_le lo hi < 32768)%Z.
Proof.
  unfold int16_le.
  pose proof (Byte.to_N_bounded lo) as Hlo.
  pose proof (Byte.to_N_bounded hi) as Hhi.
  destruct (Z.ltb_spec (Z.of_N (Byte.to_N lo)
                        + 256 * Z.of_N (Byte.to_N hi)) 32768); lia.
Qed.

Lemma frombuffer_samples (body : list Byte.byte) (pcm16 : list Z) :
  frombuffer_int16 body = Some pcm16 ->
  length body = 2 * length pcm16
  /\ Forall (fun x => (-32768 <= x < 32768)%Z) pcm16.
Proof.
  revert pcm16.
  induction body as [body IH] using (induction_ltof1 _ (@length _)).
  unfold ltof in IH. intros pcm16.
  destruct body as [|lo [|hi rest]]; cbn [frombuffer_int16].
  - intros [= <-]. by split.
  - discriminate.
  - destruct (frombuffer_int16 rest) as [pcm|] eqn:E; [|discriminate].
    intros [= <-]. destruct (IH rest) with (pcm16 := pcm) as [Hl Hr];
      [simpl; lia | done |].
    split; [simpl; lia|]. constructor; [apply int16_le_range | done].
Qed.

Lemma to_float32_unit (pcm16 : list Z) :
  Forall (fun x => (-32768 <= x < 32768)%Z) pcm16 ->
  Forall (fun q => (-1 <= q)%Q /\ (q < 1)%Q) (Stt.to_float32 pcm16).
Proof.
  induction 1 as [|x pcm Hx _ IH]; [constructor|].
  cbn [Stt.to_float32 map]. constructor; [|exact IH].
  unfold Qle, Qlt, Qdiv, Qmult, Qinv, inject_Z. simpl. lia.
Qed.

(** Whatever the body, the audio the handler passes to the model has one
    sample for every two bytes, and every sample lies in [-1, 1). *)
Theorem model_input_within_unit
        (whisper_transcribe : list Q -> option Stt.result)
        (elapsed_ms : Z) (body : list Byte.byte) (samples : list Q) :
  In samples (snd (transcribe whisper_transcribe elapsed_ms body)) ->
  length body = 2 * length samples
  /\ Forall (fun q => (-1 <= q)%Q /\ (q < 1)%Q) samples.
Proof.
  unfold transcribe. destruct body as [|b body']; [intros []|].
  destruct (frombuffer_int16 (b :: body')) as [pcm16|] eqn:E; [|intros []].
  apply frombuffer_samples in E as [Hlen Hrange].
  assert (Hs : In samples [Stt.to_float32 pcm16] ->
               length (b :: body') = 2 * length samples
               /\ Forall (fun q => (-1 <= q)%Q /\ (q < 1)%Q) samples).
  { intros [<-|[]]. split; [|by apply to_float32_unit].
    unfold Stt.to_float32. by rewrite length_map. }
  by destruct (whisper_transcribe (Stt.to_float32 pcm16)).
Qed.

Lemma model_input_within_unit_witness :
  In [(inject_Z 1 / 32768)%Q; (inject_Z (-2) / 32768)%Q]
     (snd (transcribe Samples.whisper_silent 7 Samples.body_two_samples))
  /\ length Samples.body_two_samples
     = 2 * length [(inject_Z 1 / 32768)%Q; (inject_Z (-2) / 32768)%Q]
  /\ Forall (fun q => (-1 <= q)%Q /\ (q < 1)%Q)
            [(inject_Z 1 / 32768)%Q; (inject_Z (-2) / 32768)%Q].
Proof.
  assert (H : In [(inject_Z 1 / 32768)%Q; (inject_Z (-2) / 32768)%Q]
                 (snd (transcribe Samples.whisper_silent 7
                                  Samples.body_two_samples)))
    by (left; reflexivity).
  split; [exact H|].
  exact (model_input_within_unit Samples.whisper_silent 7
           Samples.body_two_samples _ H).
Defined.

(** A body with an odd number of bytes never reaches the model: the
    decoding raises, and the handler with it, whatever the model would
    have answered. *)
Theorem odd_body_rejected
        (whisper_transcribe : list Q -> option Stt.result)
        (elapsed_ms : Z) (body : list Byte.byte) (n : nat) :
  length body = S (2 * n) ->
  transcribe whisper_transcribe elapsed_ms body = (Failed, []).
Proof.
  intros Hlen. unfold transcribe.
  destruct body as [|b body']; [discriminate|].
  by rewrite (SttServerFacts.frombuffer_odd n).
Qed.

Lemma odd_body_rejected_witness :
  transcribe Samples.whisper_silent 7
             (Samples.body_two_samples ++ [Byte.x7f])
  = (Failed, []).
Proof.
  apply (odd_body_rejected Samples.whisper_silent 7
           (Samples.body_two_samples ++ [Byte.x7f]) 2).
  reflexivity.
Defined.

End SttServerMore.

(* ----------------------------------------------------------------- *)
(** ** Sentence chunking: what a chunk can hold *)

Module ChunkingMore.
Import Uni Chunking Notions UniFacts ChunkingFacts.

(** *** Chunks are trimmed, and not too many *)

Lemma split_chunk_trimmed (chunk c : utext) :
  In c (split_chunk chunk) -> strip c = c /\ 3 <= length c.
Proof.
  unfold split_chunk. intros [Hin Hlen]%filter_In.
  apply in_map_iff in Hin as (p & <- & _).
  split; [apply uni_strip_idem | by apply Nat.leb_le].
Qed.

Lemma visible_idem (s : utext) : visible (visible s) = visible s.
Proof.
  unfold visible. induction s as [|c s IH]; [done|].
  cbn [List.filter]. destruct (negb (is_space c)) eqn:Ec; [|done].
  cbn [List.filter]. by rewrite Ec, IH.
Qed.

Lemma split_sentences_visible (is_decimal : N -> bool) (t : utext) :
  visible (concat (split_sentences is_decimal t)) `sublist_of` visible t.
Proof.
  rewrite <- (visible_idem (concat _)). apply visible_sublist.
  unfold split_sentences.
  etrans; [apply visible_sublist, flat_map_split_chunk_sublist|].
  etrans; [apply chunk_lines_visible|].
  cbn [concat visible List.filter app].
  etrans; [apply filter_sublist|].
  etrans; [apply split_on_sublist|].
  apply strip_markdown_sublist.
Qed.

(** A trimmed text of 3 characters or more shows at least its first and
    its last. *)
Lemma trimmed_visible (c : utext) :
  strip c = c -> 3 <= length c -> 2 <= length (visible c).
Proof.
  intros Hc Hlen.
  destruct (uni_strip_shape c) as [H|(a & Ha & [H|(y & b & H & Hb)])];
    rewrite Hc in H; subst c; [simpl in Hlen; lia..|].
  unfold visible. cbn [List.filter]. rewrite Ha. cbn [negb].
  rewrite List.filter_app. cbn [List.filter]. rewrite Hb. cbn [negb].
  rewrite length_cons, length_app. simpl. lia.
Qed.

Lemma visible_count (chunks : list utext) :
  Forall (fun c => 2 <= length (visible c)) chunks ->
  2 * length chunks <= length (visible (concat chunks)).
Proof.
  induction 1 as [|c chunks Hc _ IH]; [done|].
  cbn [concat]. rewrite visible_app, length_app. simpl in *. lia.
Qed.

Lemma split_sentences_count (is_decimal : N -> bool) (t : utext) :
  2 * length (split_sentences is_decimal t) <= length (visible t).
Proof.
  etrans; [|apply sublist_length, (split_sentences_visible is_decimal)].
  apply visible_count, List.Forall_forall. intros c Hin.
  unfold split_sentences in Hin.
  apply in_flat_map in Hin as (chunk & _ & Hc).
  apply split_chunk_trimmed in Hc as [? ?]. by apply trimmed_visible.
Qed.

(** Every chunk is trimmed and shows at least two characters, so a text
    gives at most half as many chunks as it has characters that are not
    whitespace; a text with fewer than two of them gives none. *)
Theorem chunk_count_bound (is_decimal : N -> bool) (t : utext) :
  Forall (fun c => strip c = c /\ 2 <= length (visible c))
         (split_sentences is_decimal t)
  /\ 2 * length (split_sentences is_decimal t) <= length (visible t)
  /\ (length (visible t) < 2 -> split_sentences is_decimal t = []).
Proof.
  split; [|split; [apply split_sentences_count|]].
  - apply List.Forall_forall. intros c Hin.
    unfold split_sentences in Hin.
    apply in_flat_map in Hin as (chunk & _ & Hc).
    apply split_chunk_trimmed in Hc as [? ?].
    split; [done | by apply trimmed_visible].
  - intros Hlt. pose proof (split_sentences_count is_decimal t) as Hle.
    destruct (split_sentences is_decimal t); [done | simpl in Hle; lia].
Qed.

(** *** No markup is left in a chunk *)

Lemma Forall_parts (P : N -> Prop) (parts : list utext) :
  Forall P (concat parts) -> Forall (Forall P) parts.
Proof.
  induction parts as [|p parts IH]; [constructor|].
  cbn [concat]. intros [? ?]%Forall_app. constructor; auto.
Qed.

Lemma drop_char_none (p : N -> bool) (s : utext) :
  Forall (fun c => p c = false) (drop_char p s).
Proof.
  apply List.Forall_forall. intros c [_ H]%filter_In.
  by apply negb_true_iff.
Qed.

Lemma strip_markdown_plain (t : utext) :
  Forall (fun c => is_star c = false /\ is_backtick c = false)
         (strip_markdown t).
Proof.
  unfold strip_markdown.
  apply (Forall_of_sublist _ _ _ (drop_urls_sublist _ _)).
  apply Forall_and. split; [|apply drop_char_none].
  apply (Forall_of_sublist _ _ _ (filter_sublist _ _)).
  apply (Forall_of_sublist _ _ _ (drop_code_spans_sublist _ _)).
  apply drop_char_none.
Qed.

Lemma split_on_fields (P : N -> Prop) (sep : N) (s : utext) :
  Forall P s ->
  Forall (Forall (fun c => P c /\ c <> sep)) (split_on sep s).
Proof.
  induction 1 as [|c s Hc _ IH]; [by repeat constructor|].
  cbn [split_on]. destruct (N.eqb_spec c sep) as [Hsep|Hsep].
  - by constructor.
  - destruct (split_on sep s) as [|field fields].
    + by repeat constructor.
    + apply Forall_cons in IH as [? ?]. constructor; [|done].
      by constructor.
Qed.

Lemma join_plain (P : N -> Prop) (parts : list utext) :
  P space -> Forall (Forall P) parts -> Forall P (join [space] parts).
Proof.
  intros Hsp. induction 1 as [|p ps Hp Hps IH]; [constructor|].
  destruct ps as [|q ps]; [done|].
  change (join [space] (p :: q :: ps))
    with (p ++ [space] ++ join [space] (q :: ps)).
  apply Forall_app. split; [done|]. by constructor.
Qed.

Lemma collapse_ws_plain (P : N -> Prop) (s : utext) :
  P space -> Forall P s -> Forall P (collapse_ws s).
Proof.
  intros Hsp. induction 1 as [|c s Hc Hs IH]; [constructor|].
  cbn [collapse_ws]. destruct (is_space c); [|by constructor].
  destruct s as [|d s']; [by repeat constructor|].
  destruct (is_space d); [done | by constructor].
Qed.

Lemma flush_plain (P : N -> Prop) (chunks buf : list utext) :
  P space -> Forall (Forall P) chunks -> Forall (Forall P) buf ->
  Forall (Forall P) (flush chunks buf).
Proof.
  intros Hsp Hc Hb. unfold flush. destruct (3 <=? _); [|done].
  apply Forall_app. split; [done|]. constructor; [|constructor].
  by apply collapse_ws_plain, uni_strip_sub, join_plain.
Qed.

Lemma append_if_long_plain (P : N -> Prop) (chunks : list utext)
      (x : utext) :
  Forall (Forall P) chunks -> Forall P x ->
  Forall (Forall P) (append_if_long chunks x).
Proof.
  intros Hc Hx. unfold append_if_long. destruct (3 <=? _); [|done].
  apply Forall_app. split; [done | by repeat constructor].
Qed.

Lemma chunk_lines_plain (is_decimal : N -> bool) (P : N -> Prop)
      (lines chunks buf : list utext) :
  P space -> Forall (Forall P) lines ->
  Forall (Forall P) chunks -> Forall (Forall P) buf ->
  Forall (Forall P) (chunk_lines is_decimal lines chunks buf).
Proof.
  intros Hsp Hlines. revert chunks buf.
  induction Hlines as [|line rest Hline _ IH]; intros chunks buf Hc Hb.
  - by apply flush_plain.
  - cbn [chunk_lines].
    pose proof (uni_strip_sub P line Hline) as Hs.
    destruct (strip line) as [|a stripped] eqn:E.
    { apply IH; [by apply flush_plain | constructor]. }
    assert (Hitem : forall item, item `sublist_of` a :: stripped ->
              Forall (Forall P)
                     (append_if_long (flush chunks buf) (strip item))).
    { intros item Hsub. apply append_if_long_plain; [by apply flush_plain|].
      apply uni_strip_sub.
      by apply (Forall_of_sublist _ _ _ Hsub). }
    destruct (is_heading (a :: stripped)).
    { apply IH; [|constructor]. apply Hitem.
      etrans; [apply uni_drop_while_sublist | apply uni_drop_while_sublist]. }
    destruct (is_bullet (a :: stripped)).
    { apply IH; [|constructor]. apply Hitem.
      etrans; [apply uni_drop_while_sublist | apply tl_sublist]. }
    destruct (is_numbered is_decimal (a :: stripped)).
    { apply IH; [|constructor]. apply Hitem.
      apply drop_numbering_sublist. }
    apply IH; [done|]. apply Forall_app. split; [done|].
    constructor; [exact Hs | constructor].
Qed.

Lemma split_chunk_plain (P : N -> Prop) (chunk : utext) :
  Forall P chunk -> Forall (Forall P) (split_chunk chunk).
Proof.
  intros Hc. apply List.Forall_forall. intros c Hin.
  unfold split_chunk in Hin. apply filter_In in Hin as [Hin _].
  apply in_map_iff in Hin as (p & <- & Hp).
  apply uni_strip_sub.
  pose proof (Forall_parts P _
                (Forall_of_sublist P _ _
                   (re_split_sentences_sublist false false chunk) Hc))
    as Hparts.
  rewrite List.Forall_forall in Hparts. by apply Hparts.
Qed.

Lemma lines_plain (t : utext) :
  Forall (Forall plain_char) (split_on newline (strip_markdown t)).
Proof.
  eapply Forall_impl;
    [apply (split_on_fields _ newline _ (strip_markdown_plain t))|].
  intros line Hline. eapply Forall_impl; [exact Hline|].
  intros c [[? ?] ?]. by repeat split.
Qed.

Lemma plain_space : plain_char space.
Proof. by repeat split. Qed.

(** No chunk holds a star, a backtick or a newline: the markup
    characters are gone from everything that is spoken. *)
Theorem chunks_hold_no_markup (is_decimal : N -> bool) (t : utext) :
  Forall (Forall plain_char) (split_sentences is_decimal t).
Proof.
  apply List.Forall_forall. intros c Hin.
  unfold split_sentences in Hin.
  apply in_flat_map in Hin as (chunk & Hchunk & Hc).
  pose proof (chunk_lines_plain is_decimal plain_char _ [] [] plain_space
                (lines_plain t) (List.Forall_nil _) (List.Forall_nil _))
    as Hchunks.
  rewrite List.Forall_forall in Hchunks.
  pose proof (split_chunk_plain plain_char chunk (Hchunks _ Hchunk)) as H.
  rewrite List.Forall_forall in H. by apply H.
Qed.

(** The stars are removed before the lines are looked at, so the star of
    the list-item pattern never matches: a line taken as a list item
    begins with a dash or with the bullet U+2022, never with a star. *)
Theorem star_bullet_never_matches (t line : utext) :
  In line (split_on newline (strip_markdown t)) ->
  is_bullet (strip line) = true ->
  exists c rest,
    strip line = c :: rest
    /\ is_star c = false
    /\ (is_dash c = true \/ is_bullet_char c = true).
Proof.
  intros Hin Hb.
  pose proof (lines_plain t) as Hlines.
  rewrite List.Forall_forall in Hlines.
  pose proof (uni_strip_sub _ _ (Hlines _ Hin)) as Hs.
  destruct (strip line) as [|c [|c' rest]]; [discriminate..|].
  apply Forall_cons in Hs as [(Hstar & _ & _) _].
  cbn [is_bullet] in Hb. rewrite Hstar, orb_false_r in Hb.
  apply andb_true_iff in Hb as [Hc _].
  exists c, (c' :: rest). split; [done|]. split; [done|].
  by apply orb_true_iff.
Qed.

Lemma star_bullet_never_matches_witness :
  In (8226%N :: utxt " one")
     (split_on newline (strip_markdown (utxt "* one" ++ 10%N :: 8226%N
                                          :: utxt " one")))
  /\ exists c rest,
      strip (8226%N :: utxt " one") = c :: rest
      /\ is_star c = false
      /\ (is_dash c = true \/ is_bullet_char c = true).
Proof.
  assert (H : In (8226%N :: utxt " one")
                 (split_on newline
                    (strip_markdown (utxt "* one" ++ 10%N :: 8226%N
                                       :: utxt " one"))))
    by (right; left; reflexivity).
  split; [exact H|].
  apply (star_bullet_never_matches
           (utxt "* one" ++ 10%N :: 8226%N :: utxt " one")
           (8226%N :: utxt " one") H).
  reflexivity.
Defined.

(** *** No chunk holds two sentences *)

Lemma capital_follows_space (c : N) (s : utext) :
  is_space c = true -> capital_follows (c :: s) = capital_follows s.
Proof. intros Hc. unfold capital_follows. simpl. by rewrite Hc. Qed.

Lemma capital_follows_nonspace (c : N) (s : utext) :
  is_space c = false -> capital_follows (c :: s) = is_upper_az c.
Proof. intros Hc. unfold capital_follows. simpl. by rewrite Hc. Qed.

Lemma capital_follows_app (s w : utext) :
  capital_follows s = true -> capital_follows (s ++ w) = true.
Proof.
  induction s as [|c s IH]; [discriminate|].
  destruct (is_space c) eqn:Ec.
  - cbn [app]. rewrite !capital_follows_space by done. exact IH.
  - cbn [app]. by rewrite !capital_follows_nonspace.
Qed.

Lemma space_not_sentence_end (c : N) :
  is_space c = true -> is_sentence_end c = false.
Proof.
  intros Hc. unfold is_sentence_end, is_char.
  destruct (N.eqb_spec c (N_of_ascii ".")) as [->|_]; [discriminate|].
  destruct (N.eqb_spec c (N_of_ascii "!")) as [->|_]; [discriminate|].
  destruct (N.eqb_spec c (N_of_ascii "?")) as [->|_]; [discriminate|].
  done.
Qed.

Lemma hd_cons_head (c : N) (parts : list utext) :
  hd [] (cons_head c parts) = c :: hd [] parts.
Proof. by destruct parts. Qed.

Lemma has_boundary_cons (c : N) (s : utext) :
  has_boundary (c :: s) = boundary_at (c :: s) || has_boundary s.
Proof. reflexivity. Qed.

(** Where no capital follows, the first part does not end before one. *)
Lemma first_part_no_capital (s : utext) (after_end : bool) :
  capital_follows s = false ->
  capital_follows (hd [] (re_split_sentences after_end false s)) = false.
Proof.
  revert after_end. induction s as [|c s IH]; intros after_end H; [done|].
  cbn [re_split_sentences]. destruct (is_space c) eqn:Ec.
  - rewrite H, andb_false_r, hd_cons_head, capital_follows_space by done.
    apply IH. by rewrite capital_follows_space in H.
  - rewrite hd_cons_head, capital_follows_nonspace by done.
    by rewrite capital_follows_nonspace in H.
Qed.

(** The first part after a sentence end does not open a boundary. *)
Lemma first_part_after_end (s : utext) (d : N) (h : utext) :
  hd [] (re_split_sentences true false s) = d :: h ->
  is_space d = true -> capital_follows (d :: h) = false.
Proof.
  intros Hh Hd. destruct (capital_follows s) eqn:Ecap.
  - destruct s as [|e s']; [discriminate|].
    cbn [re_split_sentences] in Hh. destruct (is_space e) eqn:Ee.
    + rewrite Ecap in Hh. discriminate.
    + rewrite hd_cons_head in Hh. injection Hh as <- _. congruence.
  - rewrite <- Hh. by apply first_part_no_capital.
Qed.

Lemma re_split_sentences_no_boundary (after_end skipping : bool) (s : utext) :
  Forall (fun p => has_boundary p = false)
         (re_split_sentences after_end skipping s).
Proof.
  revert after_end skipping.
  induction s as [|c s IH]; intros after_end skipping;
    [by repeat constructor|].
  cbn [re_split_sentences]. destruct (is_space c) eqn:Ec.
  - destruct skipping; [apply IH|].
    destruct (after_end && capital_follows (c :: s));
      [by constructor|].
    specialize (IH false false).
    destruct (re_split_sentences false false s) as [|h parts];
      cbn [cons_head]; [by repeat constructor|].
    apply Forall_cons in IH as [Hh Hparts]. constructor; [|done].
    rewrite has_boundary_cons, Hh, orb_false_r.
    destruct h as [|d h']; [done|]. cbn [boundary_at].
    by rewrite space_not_sentence_end.
  - pose proof (IH (is_sentence_end c) false) as Hall.
    pose proof (first_part_after_end s) as Hfirst.
    destruct (is_sentence_end c) eqn:Eend.
    + destruct (re_split_sentences true false s) as [|h parts];
        cbn [cons_head]; [by repeat constructor|].
      apply Forall_cons in Hall as [Hh Hparts]. constructor; [|done].
      rewrite has_boundary_cons, Hh, orb_false_r.
      destruct h as [|d h']; [done|]. cbn [boundary_at]. rewrite Eend.
      destruct (is_space d) eqn:Ed; [|done].
      by rewrite (Hfirst d h').
    + destruct (re_split_sentences false false s) as [|h parts];
        cbn [cons_head]; [by repeat constructor|].
      apply Forall_cons in Hall as [Hh Hparts]. constructor; [|done].
      rewrite has_boundary_cons, Hh, orb_false_r.
      destruct h as [|d h']; [done|]. cbn [boundary_at]. by rewrite Eend.
Qed.

Lemma has_boundary_suffix (s1 s2 : utext) :
  s1 `suffix_of` s2 -> has_boundary s2 = false -> has_boundary s1 = false.
Proof.
  intros [k ->]. induction k as [|c k IH]; [done|].
  cbn [app]. rewrite has_boundary_cons.
  intros [_ H]%orb_false_iff. auto.
Qed.

Lemma has_boundary_prefix (s w : utext) :
  has_boundary (s ++ w) = false -> has_boundary s = false.
Proof.
  induction s as [|c s IH]; [done|].
  cbn [app]. rewrite !has_boundary_cons.
  intros [Hat Hrest]%orb_false_iff. rewrite (IH Hrest), orb_false_r.
  destruct s as [|d s']; [done|].
  cbn [boundary_at app] in *.
  destruct (is_sentence_end c && is_space d); [|done]. cbn [andb] in *.
  destruct (capital_follows (d :: s')) eqn:E; [|done].
  pose proof (capital_follows_app (d :: s') w E) as Hw.
  cbn [app] in Hw. congruence.
Qed.

Lemma rstrip_prefix (s : utext) : exists w, s = rstrip s ++ w.
Proof.
  exists (rev (take_while is_space (rev s))). unfold rstrip.
  rewrite <- rev_app_distr, uni_take_drop_while. by rewrite rev_involutive.
Qed.

Lemma strip_no_boundary (s : utext) :
  has_boundary s = false -> has_boundary (strip s) = false.
Proof.
  intros H. unfold strip.
  destruct (rstrip_prefix (lstrip s)) as [w Hw].
  apply (has_boundary_prefix _ w). rewrite <- Hw.
  apply (has_boundary_suffix _ s); [apply uni_drop_while_suffix | done].
Qed.

(** No chunk holds a sentence boundary: nowhere in a chunk is one of
    [.!?] followed by whitespace and then a capital, so splitting a
    chunk again would leave it whole. *)
Theorem chunks_hold_no_boundary (is_decimal : N -> bool) (t : utext) :
  Forall (fun c => has_boundary c = false) (split_sentences is_decimal t).
Proof.
  apply List.Forall_forall. intros c Hin.
  unfold split_sentences in Hin.
  apply in_flat_map in Hin as (chunk & _ & Hc).
  unfold split_chunk in Hc. apply filter_In in Hc as [Hc _].
  apply in_map_iff in Hc as (p & <- & Hp).
  apply strip_no_boundary.
  pose proof (re_split_sentences_no_boundary false false chunk) as Hall.
  rewrite List.Forall_forall in Hall. by apply Hall.
Qed.

End ChunkingMore.

(* ----------------------------------------------------------------- *)
(** ** Pipelined playback: which chunks are heard *)

Module PlayerMore.
Import Uni Player Notions.

Lemma filter_joined (b : bool) (next_thread : option nat) :
  List.filter is_play
    (if b then match next_thread with
               | Some j => [Join j]
               | None => []
               end
     else []) = [].
Proof. by destruct b, next_thread. Qed.

Lemma filter_spawned (i : nat) (rest : list utext) :
  List.filter is_play
    (match rest with
     | _ :: _ => [Spawn (S i)]
     | [] => []
     end) = [].
Proof. by destruct rest. Qed.

Section Plays.

Variable is_decimal : N -> bool.
Variable Wav : Type.
Variable generate_audio : utext -> synth_result Wav.
Variables stopped_at pressed_at : option nat.
Variable active_polls : nat -> nat.

Local Abbreviation should_stop :=
  (Player.should_stop stopped_at pressed_at).
Local Abbreviation play_poll :=
  (Player.play_poll stopped_at pressed_at).
Local Abbreviation play_loop :=
  (Player.play_loop Wav generate_audio stopped_at pressed_at active_polls).
Local Abbreviation speak_response :=
  (Player.speak_response is_decimal Wav generate_audio stopped_at
                         pressed_at active_polls).

Lemma play_poll_no_play (polls now : nat) :
  List.filter is_play (fst (play_poll polls now)) = [].
Proof.
  revert now. induction polls as [|polls IH]; intros now; [done|].
  cbn [Player.play_poll]. destruct (should_stop now); [done|].
  specialize (IH (S now)).
  by destruct (play_poll polls (S now)) as [tr now'].
Qed.

Lemma background_audio (chunk : utext) :
  background Wav generate_audio chunk <> None ->
  has_audio generate_audio chunk.
Proof.
  unfold background, has_audio.
  destruct (generate_audio chunk) as [w| |]; [by exists w | done..].
Qed.

(** Once a chunk has come without audio, nothing more is played. *)
Lemma play_loop_silent (chunks : list utext) (i : nat) (wav : option Wav)
      (next_thread : option nat) (now : nat) :
  (i = 0 -> wav = None) ->
  List.filter is_play (play_loop i chunks wav None next_thread now) = [].
Proof.
  revert i wav next_thread now.
  induction chunks as [|chunk rest IH]; intros i wav next_thread now Hi;
    [done|].
  cbn [Player.play_loop]. destruct (should_stop now); [done|].
  cbn [List.filter is_play].
  rewrite !List.filter_app, filter_joined, filter_spawned. cbn [app].
  assert (E : (if 0 <? i then None else wav) = None).
  { destruct i; [by rewrite Hi | done]. }
  rewrite E. by apply IH.
Qed.

(** The chunks played from chunk [i] on are [i], [i + 1], ... up to some
    point, each with its audio at hand. *)
Lemma play_loop_plays (chunks : list utext) (i : nat)
      (wav next_wav : option Wav) (next_thread : option nat) (now : nat) :
  (i = 0 -> next_wav = None) ->
  exists n,
    n <= length chunks
    /\ List.filter is_play
         (play_loop i chunks wav next_wav next_thread now)
       = map Play (seq i n)
    /\ forall k, k < n ->
         match k with
         | 0 => (if 0 <? i then next_wav else wav) <> None
         | S _ => exists chunk,
             chunks !! k = Some chunk /\ has_audio generate_audio chunk
         end.
Proof.
  revert i wav next_wav next_thread now.
  induction chunks as [|chunk rest IH];
    intros i wav next_wav next_thread now Hi.
  { exists 0. split; [done|]. split; [done|]. intros k Hk. lia. }
  cbn [Player.play_loop]. destruct (should_stop now).
  { exists 0. split; [lia|]. split; [done|]. intros k Hk. lia. }
  cbn [List.filter is_play].
  rewrite !List.filter_app, filter_joined, filter_spawned. cbn [app].
  destruct (if 0 <? i then next_wav else wav) as [w|] eqn:Ew.
  - pose proof (play_poll_no_play (active_polls i) (S now)) as Hpoll.
    destruct (play_poll (active_polls i) (S now)) as [polled now'].
    cbn [fst] in Hpoll.
    cbn [List.filter is_play]. rewrite List.filter_app, Hpoll. cbn [app].
    assert (Hone : exists n,
               n <= length (chunk :: rest)
               /\ [Play i] = map Play (seq i n)
               /\ forall k, k < n ->
                    match k with
                    | 0 => Some w <> None
                    | S _ => exists chunk0,
                        (chunk :: rest) !! k = Some chunk0
                        /\ has_audio generate_audio chunk0
                    end).
    { exists 1. split; [simpl; lia|]. split; [done|].
      intros [|k] Hk; [done | lia]. }
    destruct (should_stop now'); [exact Hone|].
    destruct rest as [|next_chunk rest']; [exact Hone|].
    cbn [List.filter is_play].
    destruct (IH (S i) (Some w) (background Wav generate_audio next_chunk)
                 (Some (S i)) (S now')) as (n & Hn & Hplays & Haudio);
      [done|].
    exists (S n). split; [simpl in *; lia|]. split.
    { rewrite Hplays. done. }
    intros [|[|k]] Hk; [done| |].
    + exists next_chunk. split; [done|].
      apply background_audio. apply (Haudio 0). lia.
    + destruct (Haudio (S k)) as (chunk0 & Hlook & Hgen); [lia|].
      by exists chunk0.
  - assert (next_wav = None) as ->.
    { destruct i; [by apply Hi | done]. }
    rewrite play_loop_silent by done.
    exists 0. split; [lia|]. split; [done|]. intros k Hk. lia.
Qed.

Lemma speak_response_plays (response : utext) :
  exists n,
    n <= length (Chunking.split_sentences is_decimal response)
    /\ List.filter is_play (fst (speak_response response))
       = map Play (seq 0 n)
    /\ forall k, k < n ->
         exists chunk,
           Chunking.split_sentences is_decimal response !! k = Some chunk
           /\ has_audio generate_audio chunk.
Proof.
  unfold Player.speak_response.
  destruct (Chunking.split_sentences is_decimal response) as [|first chunks].
  { exists 0. split; [done|]. split; [done|]. intros k Hk. lia. }
  destruct (generate_audio first) as [w| |] eqn:Efirst; cbn [fst].
  - destruct (play_loop_plays (first :: chunks) 0 (Some w) None None 0)
      as (n & Hn & Hplays & Haudio); [done|].
    exists n. split; [done|]. split.
    { cbn [List.filter is_play]. rewrite List.filter_app, Hplays.
      cbn [List.filter is_play]. by rewrite app_nil_r. }
    intros [|k] Hk.
    + exists first. split; [done|]. by exists w.
    + by apply (Haudio (S k)).
  - exists 0. split; [lia|]. split; [|intros k Hk; lia].
    cbn [List.filter is_play].
    rewrite List.filter_app, play_loop_silent by done. done.
  - exists 0. split; [lia|]. split; [done|]. intros k Hk. lia.
Qed.

(** *** The listeners *)

Lemma play_poll_no_listener (polls now : nat) :
  Forall (fun e => e <> ListenersStart /\ e <> ListenersStop)
         (fst (play_poll polls now)).
Proof.
  revert now. induction polls as [|polls IH]; intros now; [constructor|].
  cbn [Player.play_poll]. destruct (should_stop now);
    [by repeat constructor|].
  specialize (IH (S now)).
  destruct (play_poll polls (S now)) as [tr now']. cbn [fst] in *.
  by repeat constructor.
Qed.

Lemma play_loop_no_listener (chunks : list utext) (i : nat)
      (wav next_wav : option Wav) (next_thread : option nat) (now : nat) :
  Forall (fun e => e <> ListenersStart /\ e <> ListenersStop)
         (play_loop i chunks wav next_wav next_thread now).
Proof.
  revert i wav next_wav next_thread now.
  induction chunks as [|chunk rest IH];
    intros i wav next_wav next_thread now; [constructor|].
  cbn [Player.play_loop].
  destruct (should_stop now); [by repeat constructor|].
  constructor; [done|].
  apply Forall_app. split.
  { destruct (0 <? i); [|constructor].
    destruct next_thread; by repeat constructor. }
  apply Forall_app. split.
  { destruct rest; by repeat constructor. }
  destruct (if 0 <? i then next_wav else wav) as [w|]; [|apply IH].
  pose proof (play_poll_no_listener (active_polls i) (S now)) as Hpoll.
  destruct (play_poll (active_polls i) (S now)) as [polled now'].
  cbn [fst] in Hpoll.
  constructor; [done|]. apply Forall_app. split; [done|].
  destruct (should_stop now'); [by repeat constructor|].
  constructor; [done|].
  destruct rest as [|next_chunk rest']; [apply IH|].
  constructor; [done | apply IH].
Qed.

End Plays.

Section Uncancelled.

Variable Wav : Type.
Variable generate_audio : utext -> synth_result Wav.
Variable active_polls : nat -> nat.

Local Abbreviation play_loop :=
  (Player.play_loop Wav generate_audio None None active_polls).

(** With no flag ever set and audio for every chunk, the loop plays
    them all. *)
Lemma play_loop_all (chunks : list utext) (i : nat)
      (wav next_wav : option Wav) (next_thread : option nat) (now : nat) :
  (if 0 <? i then next_wav else wav) <> None ->
  Forall (has_audio generate_audio) (tl chunks) ->
  List.filter is_play (play_loop i chunks wav next_wav next_thread now)
  = map Play (seq i (length chunks)).
Proof.
  revert i wav next_wav next_thread now.
  induction chunks as [|chunk rest IH];
    intros i wav next_wav next_thread now Hwav Hrest; [done|].
  cbn [Player.play_loop Player.should_stop Player.flag_set orb].
  cbn [List.filter is_play].
  rewrite !List.filter_app, filter_joined, filter_spawned. cbn [app].
  destruct (if 0 <? i then next_wav else wav) as [w|]; [|done].
  pose proof (play_poll_no_play None None (active_polls i) (S now))
    as Hpoll.
  destruct (Player.play_poll None None (active_polls i) (S now))
    as [polled now'].
  cbn [fst] in Hpoll.
  cbn [List.filter is_play]. rewrite List.filter_app, Hpoll. cbn [app].
  destruct rest as [|next_chunk rest']; [done|].
  cbn [List.filter is_play length seq map]. f_equal.
  cbn [tl] in Hrest. apply Forall_cons in Hrest as [[w' Hnext] Hrest].
  apply IH; [|done].
  unfold background. by rewrite Hnext.
Qed.

End Uncancelled.

(** The chunks are played in their order, each at most once and none
    skipped: what is heard is the first [n] chunks, for some [n]. *)
Theorem plays_in_order
        (is_decimal : N -> bool)
        (Wav : Type) (generate_audio : utext -> synth_result Wav)
        (stopped_at pressed_at : option nat) (active_polls : nat -> nat)
        (response : utext) :
  exists n,
    n <= length (Chunking.split_sentences is_decimal response)
    /\ List.filter is_play
         (fst (speak_response is_decimal Wav generate_audio stopped_at
                          pressed_at active_polls response))
       = map Play (seq 0 n).
Proof.
  destruct (speak_response_plays is_decimal Wav generate_audio stopped_at
              pressed_at active_polls response) as (n & Hn & Hplays & _).
  by exists n.
Qed.

(** A chunk is played only if its synthesis, and that of every chunk
    before it, gave audio: a chunk that comes without audio, or whose
    background synthesis raises, silences itself and all that follow. *)
Theorem play_needs_audio_so_far
        (is_decimal : N -> bool)
        (Wav : Type) (generate_audio : utext -> synth_result Wav)
        (stopped_at pressed_at : option nat) (active_polls : nat -> nat)
        (response : utext) (j : nat) :
  In (Play j)
     (fst (speak_response is_decimal Wav generate_audio stopped_at
                          pressed_at active_polls response)) ->
  forall k, k <= j ->
    exists chunk,
      Chunking.split_sentences is_decimal response !! k = Some chunk
      /\ has_audio generate_audio chunk.
Proof.
  intros Hin k Hk.
  destruct (speak_response_plays is_decimal Wav generate_audio stopped_at
              pressed_at active_polls response)
    as (n & _ & Hplays & Haudio).
  apply Haudio.
  assert (Hj : In (Play j) (map Play (seq 0 n))).
  { rewrite <- Hplays. by apply filter_In. }
  apply in_map_iff in Hj as (j' & [= ->] & Hj%in_seq). lia.
Qed.

Lemma play_needs_audio_so_far_witness :
  In (Play 1)
     (fst (speak_response Samples.decimal_sample utext Samples.tts_echo
                          None None (fun _ => 1) Samples.three_sentences))
  /\ forall k, k <= 1 ->
       exists chunk,
         Chunking.split_sentences Samples.decimal_sample
                                  Samples.three_sentences !! k
         = Some chunk
         /\ has_audio Samples.tts_echo chunk.
Proof.
  assert (H : In (Play 1)
                 (fst (speak_response Samples.decimal_sample utext
                                      Samples.tts_echo None None
                                      (fun _ => 1)
                                      Samples.three_sentences)))
    by (vm_compute; tauto).
  split; [exact H|].
  exact (play_needs_audio_so_far Samples.decimal_sample utext
           Samples.tts_echo None None (fun _ => 1)
           Samples.three_sentences 1 H).
Defined.

(** When neither flag is ever set and every chunk has audio, every chunk
    is played, once, in order, and the function returns. *)
Theorem uncancelled_plays_all
        (is_decimal : N -> bool)
        (Wav : Type) (generate_audio : utext -> synth_result Wav)
        (active_polls : nat -> nat) (response : utext) :
  Forall (has_audio generate_audio)
         (Chunking.split_sentences is_decimal response) ->
  List.filter is_play
    (fst (speak_response is_decimal Wav generate_audio None None active_polls
                         response))
  = map Play (seq 0 (length (Chunking.split_sentences is_decimal response)))
  /\ snd (speak_response is_decimal Wav generate_audio None None active_polls
                         response)
     = Returned.
Proof.
  intros Hall. unfold speak_response.
  destruct (Chunking.split_sentences is_decimal response) as [|first chunks];
    [done|].
  apply Forall_cons in Hall as [[w Hfirst] Hrest]. rewrite Hfirst.
  cbn [fst snd]. split; [|done].
  cbn [List.filter is_play]. rewrite List.filter_app.
  rewrite play_loop_all by done.
  cbn [List.filter is_play]. by rewrite app_nil_r.
Qed.

Lemma uncancelled_plays_all_witness :
  List.filter is_play
    (fst (speak_response Samples.decimal_sample utext Samples.tts_echo
                         None None Samples.three_polls
                         Samples.three_sentences))
  = map Play
        (seq 0 (length (Chunking.split_sentences Samples.decimal_sample
                                                 Samples.three_sentences)))
  /\ snd (speak_response Samples.decimal_sample utext Samples.tts_echo
                         None None Samples.three_polls
                         Samples.three_sentences)
     = Returned.
Proof.
  apply (uncancelled_plays_all Samples.decimal_sample utext
           Samples.tts_echo Samples.three_polls Samples.three_sentences).
  apply List.Forall_forall. intros chunk _. by exists chunk.
Defined.

(** Whenever there is something to say the two listeners are started
    first and stopped last, once each, also when the playback is
    cancelled, when audio is missing and when the first synthesis
    raises; with nothing to say they are not started at all. *)
Theorem listeners_bracket_playback
        (is_decimal : N -> bool)
        (Wav : Type) (generate_audio : utext -> synth_result Wav)
        (stopped_at pressed_at : option nat) (active_polls : nat -> nat)
        (response : utext) :
  let trace :=
    fst (speak_response is_decimal Wav generate_audio stopped_at
                          pressed_at active_polls response) in
  match Chunking.split_sentences is_decimal response with
  | [] => trace = []
  | _ :: _ =>
      exists mid,
        trace = ListenersStart :: mid ++ [ListenersStop]
        /\ Forall (fun e => e <> ListenersStart /\ e <> ListenersStop) mid
  end.
Proof.
  unfold speak_response.
  destruct (Chunking.split_sentences is_decimal response) as [|first chunks];
    [done|].
  destruct (generate_audio first) as [w| |]; cbn [fst].
  - eexists (Synth 0 :: _). split; [done|]. constructor; [done|].
    apply play_loop_no_listener.
  - eexists (Synth 0 :: _). split; [done|]. constructor; [done|].
    apply play_loop_no_listener.
  - exists [Synth 0]. split; [done|]. by repeat constructor.
Qed.

End PlayerMore.

(* ----------------------------------------------------------------- *)
(** ** Keystroke extraction: where the keys are cut *)

Module TypingMore.
Import Typing Notions.

Lemma sorted_snoc {A} (R : A -> A -> Prop) (l : list A) (x : A) :
  Sorted R l -> (forall o, list.last l = Some o -> R o x) ->
  Sorted R (l ++ [x]).
Proof.
  induction l as [|a l IH]; intros Hs Hlast; [by repeat constructor|].
  apply Sorted_inv in Hs as [Hs Hhd]. cbn [app]. constructor.
  - apply IH; [done|]. intros o Ho. apply Hlast.
    destruct l; [discriminate | exact Ho].
  - destruct l as [|b l'].
    + constructor. by apply Hlast.
    + constructor. by inversion Hhd.
Qed.

Lemma last_In {A} (l : list A) (x : A) : list.last l = Some x -> In x l.
Proof.
  induction l as [|a l IH]; [discriminate|].
  destruct l; [intros [= ->]; by left | intros H; right; by apply IH].
Qed.

Lemma Forall_false_snoc (done : list bool) (v : bool) :
  Forall (fun v => v = false) (done ++ [v])
  <-> Forall (fun v => v = false) done /\ v = false.
Proof. rewrite Forall_app, Forall_singleton. done. Qed.

Lemma last_true_not_false (done : list bool) :
  list.last done = Some true -> ~ Forall (fun v => v = false) done.
Proof.
  intros Hl Hall. apply last_In in Hl.
  rewrite List.Forall_forall in Hall. by specialize (Hall _ Hl).
Qed.

Section Extract.

Variables win key_max min_gap n : nat.
Variable exceeds : nat -> bool.

Local Abbreviation onsets_loop := (Typing.onsets_loop min_gap).
Local Abbreviation n_windows := (Typing.n_windows win n).
Local Abbreviation detect_onsets :=
  (Typing.detect_onsets win min_gap n exceeds).
Local Abbreviation key_bounds := (Typing.key_bounds win key_max n).

(** What the loop keeps true of the onsets found among the windows
    [done]. *)
Lemma onsets_loop_inv (all rest done : list bool) (onsets : list nat)
      (was_below : bool) :
  all = done ++ rest ->
  Sorted (spaced min_gap) onsets ->
  Forall (fun o => o < length done /\ rising_edge all o) onsets ->
  (was_below = true <-> list.last done <> Some true) ->
  (onsets = [] <-> Forall (fun v => v = false) done) ->
  Sorted (spaced min_gap)
         (onsets_loop (length done) rest onsets was_below)
  /\ Forall (rising_edge all)
            (onsets_loop (length done) rest onsets was_below)
  /\ (onsets_loop (length done) rest onsets was_below = []
      <-> Forall (fun v => v = false) all).
Proof.
  revert done onsets was_below.
  induction rest as [|v rest IH];
    intros done onsets was_below Hall Hs Hf Hwb He.
  { rewrite app_nil_r in Hall. subst all. cbn [Typing.onsets_loop].
    split; [done|]. split; [|done].
    eapply Forall_impl; [exact Hf|]. by intros o [_ ?]. }
  assert (Hlook : all !! length done = Some v).
  { rewrite Hall. by apply list_lookup_middle. }
  assert (Hnext : all = (done ++ [v]) ++ rest).
  { by rewrite <- app_assoc. }
  assert (Hlen : length (done ++ [v]) = S (length done)).
  { rewrite length_app. simpl. lia. }
  assert (Hkeep : Forall (fun o => o < length (done ++ [v])
                                   /\ rising_edge all o) onsets).
  { eapply Forall_impl; [exact Hf|]. intros o [? ?]. split; [lia | done]. }
  cbn [Typing.onsets_loop]. rewrite <- Hlen.
  destruct v.
  - destruct was_below; cbn [andb negb].
    + assert (Hedge : rising_edge all (length done)).
      { split; [done|].
        destruct done as [|x done' _] using rev_ind; [by left|]. right.
        rewrite length_app. cbn [length]. rewrite Nat.add_1_r. cbn [Nat.pred].
        assert (x = false) as ->.
        { destruct x; [|done]. exfalso.
          apply (proj1 Hwb); [done|]. apply last_snoc. }
        rewrite Hall, <- !app_assoc. by apply list_lookup_middle. }
      assert (Hadd : Forall (fun o => o < length (done ++ [true])
                                      /\ rising_edge all o)
                            (onsets ++ [length done])).
      { apply Forall_app. split; [done|]. constructor; [|constructor].
        split; [lia | done]. }
      assert (Hfalse : ~ Forall (fun v => v = false) (done ++ [true])).
      { rewrite Forall_false_snoc. by intros [_ ?]. }
      assert (Hwb' : false = true <-> list.last (done ++ [true]) <> Some true).
      { rewrite last_snoc. split; [done | by intros H]. }
      destruct (list.last onsets) as [o|] eqn:Elast.
      * destruct (Z.leb_spec (Z.of_nat min_gap)
                             (Z.of_nat (length done) - Z.of_nat o)) as [Hgap|_].
        -- apply IH; [done| |done|done|].
           ++ apply sorted_snoc; [done|]. intros o' Ho'.
              rewrite Elast in Ho'. injection Ho' as <-.
              apply last_In in Elast.
              rewrite List.Forall_forall in Hf.
              destruct (Hf _ Elast) as [Hlt _].
              split; lia.
           ++ split; [by destruct onsets | done].
        -- apply IH; [done|done|done|done|].
           split; [|done]. intros ->. discriminate.
      * apply IH; [done| |done|done|].
        -- apply sorted_snoc; [done|]. intros o' Ho'. congruence.
        -- split; [by destruct onsets | done].
    + assert (Hprev : list.last done = Some true).
      { destruct (list.last done) as [[|]|] eqn:El; [done| |];
          exfalso; (assert (false = true) by (apply Hwb; congruence));
          discriminate. }
      apply IH; [done|done|done| |].
      * rewrite last_snoc. split; [done | by intros H].
      * rewrite Forall_false_snoc. split; [|by intros [_ ?]].
        intros Hnil. exfalso.
        by apply (last_true_not_false done Hprev), He.
  - cbn [andb negb].
    apply IH; [done|done|done| |].
    + rewrite last_snoc. split; [done | by intros _].
    + rewrite Forall_false_snoc, He. split; [by intros ? | by intros [? _]].
Qed.

Lemma detect_onsets_inv :
  Sorted (spaced min_gap) detect_onsets
  /\ Forall (rising_edge (map exceeds (seq 0 n_windows))) detect_onsets
  /\ (detect_onsets = []
      <-> Forall (fun v => v = false) (map exceeds (seq 0 n_windows))).
Proof.
  apply (onsets_loop_inv _ _ []); [done|constructor|constructor| |done].
  split; [done | by intros _].
Qed.

(** A window of the envelope lies well inside the samples. *)
Lemma window_inside (o : nat) :
  0 < win -> o < n_windows -> o * win + win < n.
Proof.
  unfold Typing.n_windows. intros Hwin Ho.
  pose proof (Nat.Div0.mul_div_le (n - win + (win - 1)) win) as Hdiv.
  nia.
Qed.

Lemma key_bounds_inv (onsets : list nat) :
  0 < win -> 0 < key_max ->
  Sorted (spaced min_gap) onsets ->
  Forall (fun o => o * win + win < n) onsets ->
  Forall (fun b => fst b < snd b /\ snd b <= fst b + key_max /\ snd b <= n)
         (key_bounds onsets)
  /\ Sorted (fun a b => snd a <= fst b) (key_bounds onsets).
Proof.
  intros Hwin Hkey.
  induction onsets as [|o rest IH]; intros Hs Hin;
    [by split; constructor|].
  apply Sorted_inv in Hs as [Hs Hhd].
  apply Forall_cons in Hin as [Ho Hin].
  destruct (IH Hs Hin) as [IHf IHs].
  cbn [Typing.key_bounds]. destruct rest as [|next rest'].
  - split; [|by repeat constructor].
    constructor; [|constructor]. cbn [fst snd]. lia.
  - assert (Hnext : o < next) by (inversion Hhd as [|? ? [? ?]]; done).
    apply Forall_cons in Hin as [Hn _].
    split.
    + constructor; [|exact IHf]. cbn [fst snd]. nia.
    + constructor; [exact IHs|].
      cbn [Typing.key_bounds]. constructor. cbn [fst snd]. lia.
Qed.

End Extract.

(** Every onset is a window above the threshold whose predecessor, if
    any, is not; each onset comes [min_gap] windows or more after the one
    before it; and there is no onset exactly when no window is above the
    threshold. *)
Theorem onsets_are_spaced_rising_edges
        (win min_gap n : nat) (exceeds : nat -> bool) :
  let above := map exceeds (seq 0 (n_windows win n)) in
  let onsets := detect_onsets win min_gap n exceeds in
  Sorted (spaced min_gap) onsets
  /\ Forall (rising_edge above) onsets
  /\ (onsets = [] <-> Forall (fun v => v = false) above).
Proof. intros above onsets. apply detect_onsets_inv. Qed.

(** The keys are cut from the samples without overlap: each key is not
    empty, no longer than [key_max] samples and within the recording, and
    it ends where the next one starts or before; so the fade written into
    one key never touches another. *)
Theorem keys_do_not_overlap
        (win key_max min_gap n : nat) (exceeds : nat -> bool)
        (bounds : list (nat * nat)) :
  0 < key_max ->
  _extract_keystrokes win key_max min_gap n exceeds = Keys bounds ->
  bounds <> []
  /\ Forall (fun b => fst b < snd b /\ snd b <= fst b + key_max
                      /\ snd b <= n) bounds
  /\ Sorted (fun a b => snd a <= fst b) bounds.
Proof.
  intros Hkey. unfold _extract_keystrokes.
  destruct (Nat.eqb_spec win 0) as [|Hwin]; [discriminate|].
  destruct (n_windows win n =? 0); [discriminate|].
  destruct (detect_onsets_inv win min_gap n exceeds) as (Hs & Hedge & _).
  destruct (detect_onsets win min_gap n exceeds) as [|o onsets];
    [discriminate|].
  intros [= <-]. split; [done|].
  apply (key_bounds_inv win key_max min_gap n (o :: onsets));
    [lia|done|done|].
  eapply Forall_impl; [exact Hedge|].
  intros o' [Hlook _]. apply window_inside; [lia|].
  apply lookup_lt_Some in Hlook.
  by rewrite length_map, length_seq in Hlook.
Qed.

Lemma keys_do_not_overlap_witness :
  _extract_keystrokes 80 2400 16 2000 Samples.taps
  = Keys [(160, 1600); (1600, 2000)]
  /\ [(160, 1600); (1600, 2000)] <> []
  /\ Forall (fun b => fst b < snd b /\ snd b <= fst b + 2400
                      /\ snd b <= 2000)
            [(160, 1600); (1600, 2000)]
  /\ Sorted (fun a b => snd a <= fst b) [(160, 1600); (1600, 2000)].
Proof.
  assert (H : _extract_keystrokes 80 2400 16 2000 Samples.taps
              = Keys [(160, 1600); (1600, 2000)])
    by (vm_compute; reflexivity).
  split; [exact H|].
  apply (keys_do_not_overlap 80 2400 16 2000 Samples.taps
           [(160, 1600); (1600, 2000)]); [lia | exact H].
Defined.

(** The function raises, instead of returning [None], exactly when the
    analysis window is empty or the recording is no longer than one
    window; it returns [None] exactly when it does not raise and no
    window is above the threshold. *)
Theorem extract_outcomes
        (win key_max min_gap n : nat) (exceeds : nat -> bool) :
  (_extract_keystrokes win key_max min_gap n exceeds = Raises
   <-> win = 0 \/ n <= win)
  /\ (_extract_keystrokes win key_max min_gap n exceeds = NoKeys
      <-> 0 < win /\ win < n
          /\ forall i, i < n_windows win n -> exceeds i = false).
Proof.
  assert (Hzero : 0 < win -> (n_windows win n = 0 <-> n <= win)).
  { intros Hwin. unfold n_windows. split.
    - intros H%Nat.div_small_iff; lia.
    - intros Hle. apply Nat.div_small. lia. }
  assert (Hnone : detect_onsets win min_gap n exceeds = []
                  <-> forall i, i < n_windows win n -> exceeds i = false).
  { destruct (detect_onsets_inv win min_gap n exceeds) as (_ & _ & ->).
    rewrite List.Forall_forall. split.
    - intros H i Hi. apply H, in_map, in_seq. lia.
    - intros H v (i & <- & Hi%in_seq)%in_map_iff. apply H. lia. }
  unfold _extract_keystrokes.
  destruct (Nat.eqb_spec win 0) as [->|Hwin].
  { split; [by split; [left|] |]. split; [done | lia]. }
  destruct (Nat.eqb_spec (n_windows win n) 0) as [Hw|Hw].
  { apply Hzero in Hw; [|lia].
    split; [by split; [right|] |]. split; [done | lia]. }
  assert (Hlt : win < n).
  { destruct (Nat.le_gt_cases n win) as [Hle|]; [|done].
    apply Hzero in Hle; [done | lia]. }
  destruct (detect_onsets win min_gap n exceeds) as [|o onsets] eqn:Eo.
  - split; [split; [done | lia] |].
    split; [|done]. intros _. split; [lia|]. split; [done|].
    by apply Hnone.
  - split; [split; [done | lia] |].
    split; [done|]. intros (_ & _ & H). by apply Hnone in H.
Qed.

End TypingMore.
